(** * prosemirror-recreate-transform: the reconstruction driver, the diff
      classifier and the replace-step boundary resolver

    The development embeds [recreateTransform.ts] and [getReplaceStep.ts].
    The document tree, its position arithmetic and the content-diff
    primitives ([findDiffStart], [findDiffEnd], [nodeAt], [resolve],
    [slice], [nodesBetween]) belong to prosemirror-model; they are embedded
    here as pure functions over an inductive tree.  The step application
    engine of prosemirror-transform and the text-diff primitive are taken
    through an interface ([Env]); a concrete instance working on the
    token linearisation of a document is used to evaluate examples. *)

From Stdlib Require Import ZArith List String Ascii Bool Lia.
Import ListNotations.

Local Open Scope string_scope.
Local Open Scope Z_scope.

(* ================================================================== *)
(** * Results of fallible code *)

(** The exceptions the code can raise: a plain [Error] built by the driver
    itself, the [TransformError] thrown by [Transform.step], the
    [RangeError] thrown by position lookups and the [TypeError] of a
    destructured [null]. *)
Inductive Exn : Type :=
| JsError (msg : string)
| TransformError (msg : string)
| RangeError (msg : string)
| TypeError (msg : string).

Inductive Result (A : Type) : Type :=
| Ok (a : A)
| Throw (e : Exn).
Arguments Ok {A} a.
Arguments Throw {A} e.

Definition bind {A B : Type} (r : Result A) (f : A -> Result B) : Result B :=
  match r with
  | Ok a => f a
  | Throw e => Throw e
  end.

Notation "x <- r ;; k" := (bind r (fun x => k))
  (at level 61, r at next level, right associativity).
Notation "' pat <- r ;; k" := (bind r (fun x => match x with pat => k end))
  (at level 61, pat pattern, r at next level, right associativity).

(* ================================================================== *)
(** * The document tree *)

Definition Attrs := list (string * string).

Record MarkType : Type := mkMarkType {
  markName : string;
  markRank : nat;
  inclusive : bool
}.

Record Mark : Type := mkMark {
  markType : MarkType;
  markAttrs : Attrs
}.

Record NodeType : Type := mkNodeType {
  typeName : string;
  isInlineType : bool;
  isLeafType : bool
}.

(** A node is a text leaf or an element with a type, attributes, marks and
    child content. *)
#[local] Unset Elimination Schemes.
Inductive Node : Type :=
| Text (text : string) (marks : list Mark)
| Elem (type : NodeType) (attrs : Attrs) (marks : list Mark)
       (content : list Node).
#[local] Set Elimination Schemes.

Definition Fragment := list Node.

Definition isText (n : Node) : bool :=
  match n with Text _ _ => true | Elem _ _ _ _ => false end.

Definition isInline (n : Node) : bool :=
  match n with Text _ _ => true | Elem ty _ _ _ => isInlineType ty end.

Definition isLeaf (n : Node) : bool :=
  match n with Text _ _ => true | Elem ty _ _ _ => isLeafType ty end.

(** The one type of text leaves. *)
Definition textType : NodeType := mkNodeType "text" true true.

Definition nodeTypeOf (n : Node) : NodeType :=
  match n with Text _ _ => textType | Elem ty _ _ _ => ty end.

Definition nodeText (n : Node) : string :=
  match n with Text t _ => t | Elem _ _ _ _ => "" end.

Definition nodeMarks (n : Node) : list Mark :=
  match n with Text _ m => m | Elem _ _ m _ => m end.

Definition nodeAttrs (n : Node) : Attrs :=
  match n with Text _ _ => [] | Elem _ a _ _ => a end.

Definition nodeContent (n : Node) : Fragment :=
  match n with Text _ _ => [] | Elem _ _ _ c => c end.

Definition strlen (s : string) : Z := Z.of_nat (String.length s).

Definition sumZ (l : list Z) : Z := fold_right Z.add 0 l.

Fixpoint nodeSize (n : Node) : Z :=
  match n with
  | Text t _ => strlen t
  | Elem ty _ _ c => if isLeafType ty then 1 else 2 + sumZ (map nodeSize c)
  end.

Definition fragSize (f : Fragment) : Z := sumZ (map nodeSize f).

(** ** Equality tests *)

Fixpoint list_eqb {A : Type} (eqb : A -> A -> bool) (l1 l2 : list A) : bool :=
  match l1, l2 with
  | [], [] => true
  | x :: r1, y :: r2 => eqb x y && list_eqb eqb r1 r2
  | _, _ => false
  end.

Definition attr_eqb (a b : string * string) : bool :=
  String.eqb (fst a) (fst b) && String.eqb (snd a) (snd b).

(** [compareDeep] on attribute objects. *)
Definition attrs_eqb : Attrs -> Attrs -> bool := list_eqb attr_eqb.

Definition markType_eqb (a b : MarkType) : bool :=
  String.eqb (markName a) (markName b)
  && Nat.eqb (markRank a) (markRank b)
  && Bool.eqb (inclusive a) (inclusive b).

(** [Mark.eq]. *)
Definition mark_eqb (a b : Mark) : bool :=
  markType_eqb (markType a) (markType b) && attrs_eqb (markAttrs a) (markAttrs b).

(** [Mark.sameSet]. *)
Definition sameSet : list Mark -> list Mark -> bool := list_eqb mark_eqb.

(** [Mark.isInSet]. *)
Definition isInSet (m : Mark) (set : list Mark) : bool := existsb (mark_eqb m) set.

Definition nodeType_eqb (a b : NodeType) : bool :=
  String.eqb (typeName a) (typeName b)
  && Bool.eqb (isInlineType a) (isInlineType b)
  && Bool.eqb (isLeafType a) (isLeafType b).

(** [Node.sameMarkup]: equal type, attributes and marks.  All text leaves
    share the one text type of the schema. *)
Definition sameMarkup (a b : Node) : bool :=
  match a, b with
  | Text _ ma, Text _ mb => sameSet ma mb
  | Elem ta aa ma _, Elem tb ab mb _ =>
      nodeType_eqb ta tb && attrs_eqb aa ab && sameSet ma mb
  | _, _ => false
  end.

(** [Node.eq] and [Fragment.eq]. *)
Fixpoint node_eqb (a b : Node) : bool :=
  match a, b with
  | Text sa ma, Text sb mb => sameSet ma mb && String.eqb sa sb
  | Elem ta aa ma ca, Elem tb ab mb cb =>
      nodeType_eqb ta tb && attrs_eqb aa ab && sameSet ma mb
      && (fix frag_eqb (l1 : list Node) (l2 : list Node) : bool :=
            match l1, l2 with
            | [], [] => true
            | x :: r1, y :: r2 => node_eqb x y && frag_eqb r1 r2
            | _, _ => false
            end) ca cb
  | _, _ => false
  end.

Definition frag_eqb : Fragment -> Fragment -> bool := list_eqb node_eqb.

(* ================================================================== *)
(** * Positions *)

Definition RangeErr {A : Type} (pos : Z) : Result A :=
  Throw (RangeError "Position out of range").

(** [Fragment.findIndex(pos)] with the default rounding: the index and the
    start offset of the child that contains [pos], or of the child that
    starts at [pos]. *)
Fixpoint findIndexLoop (l : Fragment) (pos i curPos : Z) : Result (Z * Z) :=
  match l with
  | [] => Throw (TypeError "child is undefined")
  | cur :: r =>
      let e := curPos + nodeSize cur in
      if pos <=? e then
        if e =? pos then Ok (i + 1, e) else Ok (i, curPos)
      else findIndexLoop r pos (i + 1) e
  end.

Definition findIndex (f : Fragment) (pos : Z) : Result (Z * Z) :=
  if pos =? 0 then Ok (0, pos)
  else if pos =? fragSize f then Ok (Z.of_nat (List.length f), pos)
  else if (fragSize f <? pos) || (pos <? 0) then RangeErr pos
  else findIndexLoop f pos 0 0.

Definition maybeChild (f : Fragment) (index : Z) : option Node :=
  if index <? 0 then None else nth_error f (Z.to_nat index).

(** [findIndex] followed by [maybeChild], with the continuation applied to
    the child itself, so that functions descending into that child are
    structurally recursive. *)
Section WithChild.
Context {R : Type}.
Variable none : Z -> Z -> R.
Variable some : Node -> Z -> Z -> R.
Variable err : Exn -> R.

Fixpoint scanChild (l : Fragment) (pos i curPos : Z) : R :=
  match l with
  | [] => err (TypeError "child is undefined")
  | cur :: r =>
      let e := curPos + nodeSize cur in
      if pos <=? e then
        if e =? pos then
          match r with
          | [] => none (i + 1) e
          | nx :: _ => some nx (i + 1) e
          end
        else some cur i curPos
      else scanChild r pos (i + 1) e
  end.

Definition withChild (f : Fragment) (pos : Z) : R :=
  if pos =? 0 then
    match f with
    | [] => none 0 pos
    | c :: _ => some c 0 pos
    end
  else if pos =? fragSize f then none (Z.of_nat (List.length f)) pos
  else if (fragSize f <? pos) || (pos <? 0) then err (RangeError "Position out of range")
  else scanChild f pos 0 0.
End WithChild.

(** [Node.nodeAt(pos)]: the node directly after [pos], if any. *)
Fixpoint nodeAt (node : Node) (pos : Z) : Result (option Node) :=
  match node with
  | Text _ _ => withChild (fun _ _ => Ok None) (fun c _ _ => Ok (Some c)) Throw [] pos
  | Elem _ _ _ c =>
      withChild
        (fun _ _ => Ok None)
        (fun ch _ offset =>
           if (offset =? pos) || isText ch then Ok (Some ch)
           else nodeAt ch (pos - (offset + 1)))
        Throw c pos
  end.

(** ** Resolved positions *)

(** One level of the path of a resolved position: the ancestor, the index
    into it and the absolute offset of the start of the indexed child. *)
Record PathEntry : Type := mkEntry {
  peNode : Node;
  peIndex : Z;
  peOffset : Z
}.

Record ResolvedPos : Type := mkResolved {
  rpPos : Z;
  rpPath : list PathEntry;
  rpParentOffset : Z
}.

Fixpoint resolveLoop (node : Node) (parentOffset start : Z)
  : Result (list PathEntry * Z) :=
  let here index offset := mkEntry node index (start + offset) in
  match node with
  | Text _ _ =>
      withChild
        (fun index offset =>
           if parentOffset - offset =? 0 then Ok ([here index offset], parentOffset)
           else RangeErr index)
        (fun _ index offset => Ok ([here index offset], parentOffset))
        Throw [] parentOffset
  | Elem _ _ _ c =>
      withChild
        (fun index offset =>
           if parentOffset - offset =? 0 then Ok ([here index offset], parentOffset)
           else RangeErr index)
        (fun ch index offset =>
           let rem := parentOffset - offset in
           if rem =? 0 then Ok ([here index offset], parentOffset)
           else if isText ch then Ok ([here index offset], parentOffset)
           else
             '(rest, po) <- resolveLoop ch (rem - 1) (start + offset + 1) ;;
             Ok (here index offset :: rest, po))
        Throw c parentOffset
  end.

(** [Node.resolve(pos)]. *)
Definition resolve (doc : Node) (pos : Z) : Result ResolvedPos :=
  if negb ((0 <=? pos) && (pos <=? fragSize (nodeContent doc))) then RangeErr pos
  else
    '(path, po) <- resolveLoop doc pos 0 ;;
    Ok (mkResolved pos path po).

Definition depth (r : ResolvedPos) : Z := Z.of_nat (List.length (rpPath r)) - 1.

Definition lastEntry (r : ResolvedPos) : PathEntry :=
  last (rpPath r) (mkEntry (Text "" []) 0 0).

Definition parent (r : ResolvedPos) : Node := peNode (lastEntry r).

Definition textOffset (r : ResolvedPos) : Z := rpPos r - peOffset (lastEntry r).

Definition entryAt (r : ResolvedPos) (d : Z) : PathEntry :=
  nth (Z.to_nat d) (rpPath r) (mkEntry (Text "" []) 0 0).

(** [$pos.node(depth)], [$pos.start(depth)], [$pos.end(depth)]. *)
Definition nodeAtDepth (r : ResolvedPos) (d : Z) : Node := peNode (entryAt r d).

Definition startAt (r : ResolvedPos) (d : Z) : Z :=
  if d =? 0 then 0 else peOffset (entryAt r (d - 1)) + 1.

Definition endAt (r : ResolvedPos) (d : Z) : Z :=
  startAt r d + fragSize (nodeContent (nodeAtDepth r d)).

(** [$pos.sharedDepth(pos)]: counts down from the depth of the position. *)
Fixpoint sharedDepthFrom (r : ResolvedPos) (pos : Z) (d : nat) : Z :=
  match d with
  | O => 0
  | S d' =>
      if (startAt r (Z.of_nat d) <=? pos) && (pos <=? endAt r (Z.of_nat d))
      then Z.of_nat d
      else sharedDepthFrom r pos d'
  end.

Definition sharedDepth (r : ResolvedPos) (pos : Z) : Z :=
  sharedDepthFrom r pos (Z.to_nat (depth r)).

(* ================================================================== *)
(** * Content diffing ([diff.ts] of prosemirror-model) *)

Fixpoint commonPrefixLen (a b : string) : Z :=
  match a, b with
  | String ca ra, String cb rb =>
      if Ascii.eqb ca cb then 1 + commonPrefixLen ra rb else 0
  | _, _ => 0
  end.

Definition revString (s : string) : string :=
  string_of_list_ascii (rev (list_ascii_of_string s)).

Definition commonSuffixLen (a b : string) : Z :=
  commonPrefixLen (revString a) (revString b).

Definition textDiffers (a b : Node) : bool :=
  isText a && negb (String.eqb (nodeText a) (nodeText b)).

Definition hasContent (a b : Node) : bool :=
  negb (fragSize (nodeContent a) =? 0) || negb (fragSize (nodeContent b) =? 0).

(** [findDiffStart(a, b, pos)].  The [childA == childB] shortcut of the
    source compares references; for two nodes that are the same object the
    remaining tests advance [pos] by the node size as well, so the shortcut
    has no counterpart here. *)
Section DiffStart.
Variable inner : Node -> Fragment -> Z -> option Z.

Fixpoint findDiffStartLoop (a b : Fragment) (pos : Z) : option Z :=
  match a, b with
  | [], [] => None
  | [], _ :: _ => Some pos
  | _ :: _, [] => Some pos
  | childA :: ra, childB :: rb =>
      if negb (sameMarkup childA childB) then Some pos
      else if textDiffers childA childB then
        Some (pos + commonPrefixLen (nodeText childA) (nodeText childB))
      else if hasContent childA childB then
        match inner childA (nodeContent childB) (pos + 1) with
        | Some r => Some r
        | None => findDiffStartLoop ra rb (pos + nodeSize childA)
        end
      else findDiffStartLoop ra rb (pos + nodeSize childA)
  end.
End DiffStart.

(** [findDiffStartIn a b pos] is [a.content.findDiffStart(b, pos)]. *)
Fixpoint findDiffStartIn (a : Node) (b : Fragment) (pos : Z) : option Z :=
  match a with
  | Text _ _ => findDiffStartLoop findDiffStartIn [] b pos
  | Elem _ _ _ c => findDiffStartLoop findDiffStartIn c b pos
  end.

Definition findDiffStart (a b : Node) : option Z :=
  findDiffStartIn a (nodeContent b) 0.

(** [findDiffEnd(a, b, posA, posB)] walks both child lists from their ends.
    The walk over [a] is a right fold; the state carries the children of
    [b] that are still to be visited, last child first. *)
Inductive EndScan : Type :=
| Done (r : option (Z * Z))
| Cont (rb : list Node) (posA posB : Z).

Section DiffEnd.
Variable inner : Node -> Fragment -> Z -> Z -> option (Z * Z).

Definition endStep (childA : Node) (st : EndScan) : EndScan :=
  match st with
  | Done r => Done r
  | Cont [] posA posB => Done (Some (posA, posB))
  | Cont (childB :: rb) posA posB =>
      let size := nodeSize childA in
      if negb (sameMarkup childA childB) then Done (Some (posA, posB))
      else if textDiffers childA childB then
        let same := commonSuffixLen (nodeText childA) (nodeText childB) in
        Done (Some (posA - same, posB - same))
      else if hasContent childA childB then
        match inner childA (nodeContent childB) (posA - 1) (posB - 1) with
        | Some r => Done (Some r)
        | None => Cont rb (posA - size) (posB - size)
        end
      else Cont rb (posA - size) (posB - size)
  end.

Definition endResult (st : EndScan) : option (Z * Z) :=
  match st with
  | Done r => r
  | Cont [] _ _ => None
  | Cont (_ :: _) posA posB => Some (posA, posB)
  end.

Definition findDiffEndLoop (a b : Fragment) (posA posB : Z) : option (Z * Z) :=
  endResult (fold_right endStep (Cont (rev' b) posA posB) a).
End DiffEnd.

Fixpoint findDiffEndIn (a : Node) (b : Fragment) (posA posB : Z)
  : option (Z * Z) :=
  match a with
  | Text _ _ => findDiffEndLoop findDiffEndIn [] b posA posB
  | Elem _ _ _ c => findDiffEndLoop findDiffEndIn c b posA posB
  end.

(** [a.content.findDiffEnd(b.content)]: the pair is [(a, b)] of the source's
    result object. *)
Definition findDiffEnd (a b : Node) : option (Z * Z) :=
  findDiffEndIn a (nodeContent b) (fragSize (nodeContent a)) (fragSize (nodeContent b)).

(* ================================================================== *)
(** * Slices *)

Definition substr (from to : Z) (s : string) : string :=
  String.substring (Z.to_nat from) (Z.to_nat (to - from)) s.

Section Cut.
Variable cutChild : Node -> Z -> Z -> Node.

Fixpoint cutLoop (l : Fragment) (from to pos : Z) : Fragment :=
  match l with
  | [] => []
  | child :: r =>
      if pos <? to then
        let e := pos + nodeSize child in
        let kept :=
          if from <? e then
            if (pos <? from) || (to <? e) then
              if isText child then
                [cutChild child (Z.max 0 (from - pos))
                          (Z.min (strlen (nodeText child)) (to - pos))]
              else
                [cutChild child (Z.max 0 (from - pos - 1))
                          (Z.min (fragSize (nodeContent child)) (to - pos - 1))]
            else [child]
          else [] in
        (kept ++ cutLoop r from to e)%list
      else []
  end.

(** [Fragment.cut(from, to)]. *)
Definition cutFrag (l : Fragment) (from to : Z) : Fragment :=
  if (from =? 0) && (to =? fragSize l) then l
  else if from <? to then cutLoop l from to 0
  else [].
End Cut.

(** [Node.cut(from, to)] and [TextNode.cut(from, to)]. *)
Fixpoint cut (n : Node) (from to : Z) : Node :=
  match n with
  | Text t m => Text (substr from to t) m
  | Elem ty a m c => Elem ty a m (cutFrag cut c from to)
  end.

Record Slice : Type := mkSlice {
  sliceContent : Fragment;
  openStart : Z;
  openEnd : Z
}.

Definition emptySlice : Slice := mkSlice [] 0 0.

Definition sliceSize (s : Slice) : Z :=
  fragSize (sliceContent s) - openStart s - openEnd s.

(** [Node.slice(from, to)]. *)
Definition slice (doc : Node) (from to : Z) : Result Slice :=
  if from =? to then Ok emptySlice
  else
    rfrom <- resolve doc from ;;
    rto <- resolve doc to ;;
    let d := sharedDepth rfrom to in
    let start := startAt rfrom d in
    let node := nodeAtDepth rfrom d in
    let content := cutFrag cut (nodeContent node) (rpPos rfrom - start) (rpPos rto - start) in
    Ok (mkSlice content (depth rfrom - d) (depth rto - d)).

(** [$pos.nodeBefore]. *)
Definition nodeBefore (r : ResolvedPos) : Result (option Node) :=
  let index := peIndex (lastEntry r) in
  let dOff := rpPos r - peOffset (lastEntry r) in
  if negb (dOff =? 0) then
    match maybeChild (nodeContent (parent r)) index with
    | Some ch => Ok (Some (cut ch 0 dOff))
    | None => RangeErr index
    end
  else if index =? 0 then Ok None
  else
    match maybeChild (nodeContent (parent r)) (index - 1) with
    | Some ch => Ok (Some ch)
    | None => RangeErr index
    end.

(** [$pos.marks()]: the marks in force at the position. *)
Definition marksAt (r : ResolvedPos) : list Mark :=
  let par := parent r in
  let index := peIndex (lastEntry r) in
  if fragSize (nodeContent par) =? 0 then []
  else if negb (textOffset r =? 0) then
    match maybeChild (nodeContent par) index with
    | Some ch => nodeMarks ch
    | None => []
    end
  else
    let before := maybeChild (nodeContent par) (index - 1) in
    let after := maybeChild (nodeContent par) index in
    let '(main, other) :=
      match before with
      | Some _ => (before, after)
      | None => (after, before)
      end in
    match main with
    | None => []
    | Some mn =>
        filter
          (fun m =>
             negb (negb (inclusive (markType m))
                   && match other with
                      | None => true
                      | Some o => negb (isInSet m (nodeMarks o))
                      end))
          (nodeMarks mn)
    end.

(* ================================================================== *)
(** * Steps *)

Inductive Step : Type :=
| ReplaceStep (from to : Z) (slice : Slice)
| ReplaceAroundStep (from to gapFrom gapTo : Z) (slice : Slice) (insert : Z)
| AddMarkStep (from to : Z) (mark : Mark)
| RemoveMarkStep (from to : Z) (mark : Mark).

(* ================================================================== *)
(** * getReplaceStep.ts *)

(** [a.type === b.type] on nodes. *)
Definition sameType (a b : Node) : bool :=
  match a, b with
  | Text _ _, Text _ _ => true
  | Elem ta _ _ _, Elem tb _ _ _ => nodeType_eqb ta tb
  | _, _ => false
  end.

Definition replacementSize (start endA endB : Z) : Z :=
  Z.abs (endB - start) + Z.abs (endA - start).

(** The score is kept in tenths: the source computes
    [-(fromDepth + toDepth) * 2 + bonus - replacementSize * 0.1], all of
    whose terms but the last are integers.  The two calls of
    [getReplaceStep] always pass windows of equal replacement size (lemma
    [candidate_sizes_equal]), so the comparison of the two scores is decided
    by the integer terms. *)
Definition calculateBoundaryScore (fromDoc toDoc : Node) (start endA endB : Z)
  : Result Z :=
  (* Factor 1 *)
  rf <- resolve fromDoc start ;;
  rt <- resolve toDoc endA ;;
  let score := 0 - (depth rf + depth rt) * 2 * 10 in
  (* Factors 2 and 3 *)
  fromNode <- nodeAt fromDoc start ;;
  toNode <- nodeAt toDoc start ;;
  let score :=
    match fromNode, toNode with
    | Some f, Some t =>
        if node_eqb f t then score + 20 * 10
        else if sameMarkup f t then score + 5 * 10
        else score
    | _, _ => score
    end in
  (* Factor 4 *)
  score <-
    (if 0 <? start then
       rf' <- resolve fromDoc start ;;
       fromBefore <- nodeBefore rf' ;;
       rt' <- resolve toDoc start ;;
       toBefore <- nodeBefore rt' ;;
       match fromBefore, toBefore with
       | Some fb, Some tb => if sameType fb tb then Ok (score + 3 * 10) else Ok score
       | _, _ => Ok score
       end
     else Ok score) ;;
  (* Factor 5 *)
  Ok (score - replacementSize start endA endB).

(** The window chosen by [getReplaceStep]: the start and the two ends. *)
Definition chooseWindow (fromDoc toDoc : Node) (start endA endB : Z)
  : Result (Z * Z * Z) :=
  let overlap := start - Z.min endA endB in
  if 0 <? overlap then
    scoreStart <- calculateBoundaryScore fromDoc toDoc (start - overlap) endA endB ;;
    scoreEnd <- calculateBoundaryScore fromDoc toDoc start (endA + overlap) (endB + overlap) ;;
    if scoreEnd <? scoreStart then Ok (start - overlap, endA, endB)
    else Ok (start, endA + overlap, endB + overlap)
  else Ok (start, endA, endB).

(** [getReplaceStep(fromDoc, toDoc)]: [None] is the source's [false]. *)
Definition getReplaceStep (fromDoc toDoc : Node) : Result (option Step) :=
  match findDiffStart toDoc fromDoc with
  | None => Ok None
  | Some start =>
      match findDiffEnd toDoc fromDoc with
      | None => Throw (TypeError "Cannot destructure property 'a' of null")
      | Some (endA, endB) =>
          '(start', endA', endB') <- chooseWindow fromDoc toDoc start endA endB ;;
          s <- slice toDoc start' endA' ;;
          Ok (Some (ReplaceStep start' endB' s))
      end
  end.

(* ================================================================== *)
(** * The diff classifier *)

Inductive DiffType : Type := TextDiff | MarkupDiff | StructuralDiff.

Record DiffResult : Type := mkDiff {
  dType : DiffType;
  dStart : Z;
  dEndFrom : Z;
  dEndTo : Z;
  dFromNode : option Node;
  dToNode : option Node;
  dTextNodeStart : Z
}.

Definition optIsText (n : option Node) : bool :=
  match n with Some x => isText x | None => false end.

(** The test of the first branch of [classifyDiff]. *)
Definition isTextChange (fromDoc toDoc : Node) (start : Z)
  (fromNode toNode : option Node) : Result bool :=
  match fromNode, toNode with
  | Some f, Some t =>
      if isText f && isText t && sameMarkup f t then
        rfrom <- resolve fromDoc start ;;
        rto <- resolve toDoc start ;;
        if (depth rfrom =? depth rto)
           && sameType (parent rfrom) (parent rto)
           && sameMarkup (parent rfrom) (parent rto)
        then
          let fromText := nodeText f in
          let toText := nodeText t in
          let commonPrefix := commonPrefixLen fromText toText in
          Ok ((0 <? commonPrefix) || (strlen fromText =? 0) || (strlen toText =? 0))
        else Ok false
      else Ok false
  | _, _ => Ok false
  end.

(** The test of the second branch. *)
Definition isMarkupChange (fromNode toNode : option Node) : bool :=
  match fromNode, toNode with
  | Some f, Some t =>
      negb (isText f) && negb (isText t)
      && frag_eqb (nodeContent f) (nodeContent t)
      && negb (sameMarkup f t)
  | _, _ => false
  end.

Definition classifyDiff (fromDoc toDoc : Node) (start endFrom endTo : Z)
  : Result DiffResult :=
  fromNode <- nodeAt fromDoc start ;;
  toNode <- nodeAt toDoc start ;;
  textNodeStart <-
    (if optIsText fromNode then
       rpos <- resolve fromDoc start ;;
       Ok (start - textOffset rpos)
     else Ok start) ;;
  isTextC <- isTextChange fromDoc toDoc start fromNode toNode ;;
  if isTextC then
    Ok (mkDiff TextDiff start endFrom endTo fromNode toNode textNodeStart)
  else if isMarkupChange fromNode toNode then
    Ok (mkDiff MarkupDiff start endFrom endTo fromNode toNode textNodeStart)
  else
    Ok (mkDiff StructuralDiff start endFrom endTo fromNode toNode textNodeStart).

(* ================================================================== *)
(** * Transforms and the external collaborators *)

(** A transform: the document it started from, the current document and
    the steps applied so far, oldest first. *)
Record Transform : Type := mkTransform {
  trBefore : Node;
  trDoc : Node;
  trSteps : list Step
}.

Definition newTransform (doc : Node) : Transform := mkTransform doc doc [].

Inductive StepResult : Type :=
| StepOk (doc : Node)
| StepFailed (failed : string).

(** One segment of a text diff. *)
Record Change : Type := mkChange {
  value : string;
  added : bool;
  removed : bool
}.

(** What the driver takes from outside: the step application engine and the
    schema of prosemirror, the text-diff primitive, and the two helpers of
    the repository whose sources are [removeMarks.ts] and
    [simplifyTransform.ts]. *)
Class Env : Type := {
  (** [step.apply(doc)] *)
  applyStep : Step -> Node -> StepResult;
  (** [replaceStep(doc, from, to, slice)] of prosemirror-transform: fits the
      slice into the range; no step when nothing would change *)
  fitReplace : Node -> Z -> Z -> Slice -> Result (option Step);
  (** [type.validContent(fragment)] *)
  validContent : NodeType -> Fragment -> bool;
  (** the steps [tr.addMark(from, to, mark)] builds against a document *)
  addMarkSteps : Node -> Z -> Z -> Mark -> list Step;
  (** the steps [tr.removeMark(from, to, mark)] builds against a document *)
  removeMarkSteps : Node -> Z -> Z -> Mark -> list Step;
  diffChars : string -> string -> list Change;
  diffWordsWithSpace : string -> string -> list Change;
  removeMarks : Node -> Node;
  (** [None] stands for a falsy result *)
  simplifyTransform : Transform -> Result (option Transform)
}.

Section Driver.
Context {E : Env}.

(** ** [Transform] methods *)

(** [tr.maybeStep(step)]: the transform grows only when the step applies. *)
Definition maybeStep (tr : Transform) (s : Step) : StepResult * Transform :=
  match applyStep s (trDoc tr) with
  | StepOk d => (StepOk d, mkTransform (trBefore tr) d (trSteps tr ++ [s])%list)
  | StepFailed msg => (StepFailed msg, tr)
  end.

(** [tr.step(step)]. *)
Definition step (tr : Transform) (s : Step) : Result Transform :=
  match maybeStep tr s with
  | (StepOk _, tr') => Ok tr'
  | (StepFailed msg, _) => Throw (TransformError msg)
  end.

Fixpoint steps (tr : Transform) (l : list Step) : Result Transform :=
  match l with
  | [] => Ok tr
  | s :: r => tr' <- step tr s ;; steps tr' r
  end.

(** [tr.replace(from, to, slice)]. *)
Definition replace (tr : Transform) (from to : Z) (sl : Slice) : Result Transform :=
  st <- fitReplace (trDoc tr) from to sl ;;
  match st with
  | Some s => step tr s
  | None => Ok tr
  end.

Definition replaceWith (tr : Transform) (from to : Z) (n : Node) : Result Transform :=
  replace tr from to (mkSlice [n] 0 0).

Definition delete (tr : Transform) (from to : Z) : Result Transform :=
  replace tr from to emptySlice.

Definition insert (tr : Transform) (pos : Z) (n : Node) : Result Transform :=
  replaceWith tr pos pos n.

(** [tr.setNodeMarkup(pos, type, attrs, marks)]; [None] is a [null] type. *)
Definition setNodeMarkup (tr : Transform) (pos : Z) (ty : option NodeType)
  (attrs : Attrs) (marks : list Mark) : Result Transform :=
  node <- nodeAt (trDoc tr) pos ;;
  match node with
  | None => Throw (RangeError "No node at given position")
  | Some n =>
      if isText n then Throw (RangeError "NodeType.create can't construct text nodes")
      else
        let ty' := match ty with Some t => t | None => nodeTypeOf n end in
        let newNode := Elem ty' attrs marks [] in
        if isLeaf n then replaceWith tr pos (pos + nodeSize n) newNode
        else if negb (validContent ty' (nodeContent n)) then
          Throw (RangeError "Invalid content for node type")
        else
          step tr (ReplaceAroundStep pos (pos + nodeSize n) (pos + 1)
                     (pos + nodeSize n - 1) (mkSlice [newNode] 0 0) 1)
  end.

Definition addMark (tr : Transform) (from to : Z) (m : Mark) : Result Transform :=
  steps tr (addMarkSteps (trDoc tr) from to m).

Definition removeMark (tr : Transform) (from to : Z) (m : Mark) : Result Transform :=
  steps tr (removeMarkSteps (trDoc tr) from to m).

(** [schema.text(text, marks)]. *)
Definition schemaText (s : string) (marks : list Mark) : Result Node :=
  if strlen s =? 0 then Throw (RangeError "Empty text nodes are not allowed")
  else Ok (Text s marks).
End Driver.

(* ================================================================== *)
(** * recreateTransform.ts *)

Record Options : Type := mkOptions {
  optComplexSteps : option bool;
  optWordDiffs : option bool;
  optSimplifyDiff : option bool
}.

Definition orDefault (o : option bool) (d : bool) : bool :=
  match o with Some b => b | None => d end.

Definition MAX_ITERATIONS : nat := 1000.

Definition maxIterationsStructural : Exn :=
  JsError "Max iterations reached in recreateStructuralSteps".

Definition maxIterationsAll : Exn :=
  JsError "Max iterations reached in recreateAllSteps".

Definition replaceStepFailed (failed : string) : Exn :=
  JsError ("ReplaceStep failed: " ++ failed).

(** One call the text run editor makes on the transform. *)
Inductive TextEdit : Type :=
| EReplaceWith (from to : Z) (text : string) (marks : list Mark)
| EInsert (pos : Z) (text : string) (marks : list Mark)
| EDelete (from to : Z).

(** The calls of the loop of [applyTextDiff], in order: the offsets and the
    marks do not depend on the transform. *)
Fixpoint textEdits (marks : list Mark) (textDiffs : list Change) (offset : Z)
  : list TextEdit :=
  match textDiffs with
  | [] => []
  | textDiff :: rest =>
      if added textDiff then
        match rest with
        | nextDiff :: rest' =>
            if removed nextDiff then
              EReplaceWith offset (offset + strlen (value nextDiff)) (value textDiff) marks
              :: textEdits marks rest' (offset + strlen (value textDiff))
            else
              EInsert offset (value textDiff) marks
              :: textEdits marks rest (offset + strlen (value textDiff))
        | [] =>
            EInsert offset (value textDiff) marks
            :: textEdits marks rest (offset + strlen (value textDiff))
        end
      else if removed textDiff then
        match rest with
        | nextDiff :: rest' =>
            if added nextDiff then
              EReplaceWith offset (offset + strlen (value textDiff)) (value nextDiff) marks
              :: textEdits marks rest' (offset + strlen (value nextDiff))
            else
              EDelete offset (offset + strlen (value textDiff))
              :: textEdits marks rest offset
        | [] =>
            EDelete offset (offset + strlen (value textDiff))
            :: textEdits marks rest offset
        end
      else textEdits marks rest (offset + strlen (value textDiff))
  end.

Section Recreate.
Context {E : Env}.

(** The loop of [applyTextDiff]. *)
Fixpoint textLoop (marks : list Mark) (textDiffs : list Change) (offset : Z)
  (tr : Transform) : Result Transform :=
  match textDiffs with
  | [] => Ok tr
  | textDiff :: rest =>
      if added textDiff then
        textNode <- schemaText (value textDiff) marks ;;
        match rest with
        | nextDiff :: rest' =>
            if removed nextDiff then
              tr' <- replaceWith tr offset (offset + strlen (value nextDiff)) textNode ;;
              textLoop marks rest' (offset + strlen (value textDiff)) tr'
            else
              tr' <- insert tr offset textNode ;;
              textLoop marks rest (offset + strlen (value textDiff)) tr'
        | [] =>
            tr' <- insert tr offset textNode ;;
            textLoop marks rest (offset + strlen (value textDiff)) tr'
        end
      else if removed textDiff then
        match rest with
        | nextDiff :: rest' =>
            if added nextDiff then
              textNode <- schemaText (value nextDiff) marks ;;
              tr' <- replaceWith tr offset (offset + strlen (value textDiff)) textNode ;;
              textLoop marks rest' (offset + strlen (value nextDiff)) tr'
            else
              tr' <- delete tr offset (offset + strlen (value textDiff)) ;;
              textLoop marks rest offset tr'
        | [] =>
            tr' <- delete tr offset (offset + strlen (value textDiff)) ;;
            textLoop marks rest offset tr'
        end
      else textLoop marks rest (offset + strlen (value textDiff)) tr
  end.

Definition nullDeref {A : Type} : Result A :=
  Throw (TypeError "Cannot read properties of null").

(** The string diff and the marks that [applyTextDiff] computes before its
    loop. *)
Definition textDiffsOf (wordDiffs : bool) (diff : DiffResult) : Result (list Change) :=
  match dFromNode diff, dToNode diff with
  | Some f, Some t =>
      Ok (if wordDiffs then diffWordsWithSpace (nodeText f) (nodeText t)
          else diffChars (nodeText f) (nodeText t))
  | _, _ => nullDeref
  end.

Definition textMarks (tr : Transform) (diff : DiffResult) : Result (list Mark) :=
  rpos <- resolve (trDoc tr) (dTextNodeStart diff + 1) ;;
  Ok (marksAt rpos).

Definition applyTextDiff (wordDiffs : bool) (tr : Transform) (diff : DiffResult)
  : Result Transform :=
  textDiffs <- textDiffsOf wordDiffs diff ;;
  let offset := dTextNodeStart diff in
  marks <- textMarks tr diff ;;
  textLoop marks textDiffs offset tr.

Definition applyMarkupDiff (tr : Transform) (diff : DiffResult) : Result Transform :=
  match dFromNode diff, dToNode diff with
  | Some f, Some t =>
      let nodeType :=
        if nodeType_eqb (nodeTypeOf f) (nodeTypeOf t) then None
        else Some (nodeTypeOf t) in
      setNodeMarkup tr (dStart diff) nodeType (nodeAttrs t) (nodeMarks t)
  | _, _ => nullDeref
  end.

Definition applyStructuralDiff (tr : Transform) (fromDoc toDoc : Node)
  : Result Transform :=
  st <- getReplaceStep fromDoc toDoc ;;
  match st with
  | Some s =>
      match maybeStep tr s with
      | (StepFailed failed, _) => Throw (replaceStepFailed failed)
      | (StepOk _, tr') => Ok tr'
      end
  | None => Ok tr
  end.

Definition applyDiff (wordDiffs : bool) (tr : Transform) (diff : DiffResult)
  (fromDoc toDoc : Node) : Result Transform :=
  match dType diff with
  | TextDiff => applyTextDiff wordDiffs tr diff
  | MarkupDiff => applyMarkupDiff tr diff
  | StructuralDiff => applyStructuralDiff tr fromDoc toDoc
  end.

(** The body of the loop of [recreateStructuralSteps]: [None] is a
    [break], otherwise the transform after [applyDiff]. *)
Definition structuralBody (wordDiffs : bool) (tr : Transform)
  (currentDoc toDocNoMarks : Node) : Result (option Transform) :=
  match findDiffStart toDocNoMarks currentDoc with
  | None => Ok None
  | Some start =>
      match findDiffEnd toDocNoMarks currentDoc with
      | None => Ok None
      | Some (endTo, endFrom) =>
          diff <- classifyDiff currentDoc toDocNoMarks start endFrom endTo ;;
          tr' <- applyDiff wordDiffs tr diff currentDoc toDocNoMarks ;;
          Ok (Some tr')
      end
  end.

(** The [while] loop: [remaining] is [MAX_ITERATIONS - iterations].  The
    result carries the final value of [iterations]. *)
Fixpoint structuralLoop (wordDiffs : bool) (toDocNoMarks : Node)
  (remaining iterations : nat) (tr : Transform) (currentDoc : Node)
  : Result (nat * Transform) :=
  match remaining with
  | O => Ok (iterations, tr)
  | S remaining' =>
      r <- structuralBody wordDiffs tr currentDoc toDocNoMarks ;;
      match r with
      | None => Ok (iterations, tr)
      | Some tr' =>
          structuralLoop wordDiffs toDocNoMarks remaining' (S iterations) tr'
            (removeMarks (trDoc tr'))
      end
  end.

Definition recreateStructuralSteps (wordDiffs : bool) (fromDoc toDoc : Node)
  (tr : Transform) : Result Transform :=
  let fromDocNoMarks := removeMarks fromDoc in
  let toDocNoMarks := removeMarks toDoc in
  '(iterations, tr') <-
    structuralLoop wordDiffs toDocNoMarks MAX_ITERATIONS 0 tr fromDocNoMarks ;;
  if (MAX_ITERATIONS <=? iterations)%nat then Throw maxIterationsStructural
  else Ok tr'.

(** The body of the loop of [recreateAllSteps]. *)
Definition allBody (tr : Transform) (currentDoc toDoc : Node)
  : Result (option Transform) :=
  st <- getReplaceStep currentDoc toDoc ;;
  match st with
  | None => Ok None
  | Some s =>
      match maybeStep tr s with
      | (StepFailed failed, _) => Throw (replaceStepFailed failed)
      | (StepOk _, tr') => Ok (Some tr')
      end
  end.

Fixpoint allLoop (toDoc : Node) (remaining iterations : nat) (tr : Transform)
  (currentDoc : Node) : Result (nat * Transform) :=
  match remaining with
  | O => Ok (iterations, tr)
  | S remaining' =>
      r <- allBody tr currentDoc toDoc ;;
      match r with
      | None => Ok (iterations, tr)
      | Some tr' => allLoop toDoc remaining' (S iterations) tr' (trDoc tr')
      end
  end.

Definition recreateAllSteps (fromDoc toDoc : Node) (tr : Transform)
  : Result Transform :=
  '(iterations, tr') <- allLoop toDoc MAX_ITERATIONS 0 tr fromDoc ;;
  if (MAX_ITERATIONS <=? iterations)%nat then Throw maxIterationsAll
  else Ok tr'.
End Recreate.

(* ================================================================== *)
(** * Tree traversal and the mark reconciler *)

(** [Fragment.nodesBetween] and [Node.nodesBetween], threading a state
    through the callback.  The boolean returned by the callback is
    [result !== false]: whether to descend into the node. *)
Section NodesBetween.
Context {S : Type}.
Variable f : Node -> Z -> S -> Result (bool * S).

Section Loop.
Variable inner : Node -> Z -> Z -> Z -> S -> Result S.

Fixpoint nodesBetweenLoop (l : Fragment) (from to nodeStart pos : Z) (s : S)
  : Result S :=
  if pos <? to then
    match l with
    | [] => Throw (TypeError "child is undefined")
    | child :: r =>
        let e := pos + nodeSize child in
        s' <-
          (if from <? e then
             '(descend, s1) <- f child (nodeStart + pos) s ;;
             if descend && negb (fragSize (nodeContent child) =? 0) then
               let start := pos + 1 in
               inner child (Z.max 0 (from - start))
                 (Z.min (fragSize (nodeContent child)) (to - start))
                 (nodeStart + start) s1
             else Ok s1
           else Ok s) ;;
        nodesBetweenLoop r from to nodeStart e s'
    end
  else Ok s.
End Loop.

Fixpoint nodesBetween (n : Node) (from to startPos : Z) (s : S) : Result S :=
  match n with
  | Text _ _ => nodesBetweenLoop nodesBetween [] from to startPos 0 s
  | Elem _ _ _ c => nodesBetweenLoop nodesBetween c from to startPos 0 s
  end.

(** [Node.descendants(f)]. *)
Definition descendants (n : Node) (s : S) : Result S :=
  nodesBetween n 0 (fragSize (nodeContent n)) 0 s.
End NodesBetween.

Section Reconcile.
Context {E : Env}.

Fixpoint forEachMark (g : Mark -> Transform -> Result Transform)
  (marks : list Mark) (tr : Transform) : Result Transform :=
  match marks with
  | [] => Ok tr
  | m :: r => tr' <- g m tr ;; forEachMark g r tr'
  end.

(** The inner callback of [recreateChangeMarkSteps]. *)
Definition reconcileNode (tNode : Node) (tPos : Z) (fNode : Node) (fPos : Z)
  (tr : Transform) : Result (bool * Transform) :=
  if negb (isInline fNode) then Ok (true, tr)
  else
    let from := Z.max tPos fPos in
    let to := Z.min (tPos + nodeSize tNode) (fPos + nodeSize fNode) in
    tr1 <- forEachMark
             (fun nodeMark tr0 =>
                if negb (isInSet nodeMark (nodeMarks tNode))
                then removeMark tr0 from to nodeMark else Ok tr0)
             (nodeMarks fNode) tr ;;
    tr2 <- forEachMark
             (fun nodeMark tr0 =>
                if negb (isInSet nodeMark (nodeMarks fNode))
                then addMark tr0 from to nodeMark else Ok tr0)
             (nodeMarks tNode) tr1 ;;
    Ok (true, tr2).

(** The outer callback. *)
Definition reconcileTarget (tNode : Node) (tPos : Z) (tr : Transform)
  : Result (bool * Transform) :=
  if negb (isInline tNode) then Ok (true, tr)
  else
    tr' <- nodesBetween (reconcileNode tNode tPos) (trDoc tr)
             tPos (tPos + nodeSize tNode) 0 tr ;;
    Ok (true, tr').

Definition recreateChangeMarkSteps (toDoc : Node) (tr : Transform)
  : Result Transform :=
  descendants reconcileTarget toDoc tr.

(** [RecreateTransform.init], on the transform made by the constructor. *)
Definition init (fromDoc toDoc : Node) (complexSteps wordDiffs simplifyDiff : bool)
  (tr : Transform) : Result Transform :=
  tr1 <-
    (if complexSteps then
       tr' <- recreateStructuralSteps wordDiffs fromDoc toDoc tr ;;
       recreateChangeMarkSteps toDoc tr'
     else recreateAllSteps fromDoc toDoc tr) ;;
  if simplifyDiff then
    simplified <- simplifyTransform tr1 ;;
    match simplified with
    | Some tr2 => Ok tr2
    | None => Ok tr1
    end
  else Ok tr1.

Definition recreateTransform (fromDoc toDoc : Node) (options : Options)
  : Result Transform :=
  init fromDoc toDoc
    (orDefault (optComplexSteps options) true)
    (orDefault (optWordDiffs options) false)
    (orDefault (optSimplifyDiff options) true)
    (newTransform fromDoc).
End Reconcile.

(* ================================================================== *)
(** * A step application engine on the token linearisation

    A document is linearised into one token per position: an opening and a
    closing token around the content of a node, one token for a leaf, one
    token per character of text.  A replace step splices the token lists;
    the result is a document again when the spliced list is balanced.  As
    [replace] of the document model does, the engine rejects a slice that
    is open deeper than its insertion position and a slice whose open
    depths do not fit the depths of the two ends of the range.  The
    interface has a document or a failure for the outcome of a step: a
    step with a position outside the document, for which the library
    raises an error of its own, is a failure of this engine.  The schema
    accepts every content. *)

Inductive Token : Type :=
| TOpen (ty : NodeType) (attrs : Attrs) (marks : list Mark)
| TClose
| TLeaf (ty : NodeType) (attrs : Attrs) (marks : list Mark)
| TChar (c : ascii) (marks : list Mark).

Fixpoint tokensOf (n : Node) : list Token :=
  match n with
  | Text t m => map (fun c => TChar c m) (list_ascii_of_string t)
  | Elem ty a m c =>
      if isLeafType ty then [TLeaf ty a m]
      else (TOpen ty a m :: flat_map tokensOf c ++ [TClose])%list
  end.

Definition tokensOfFrag (f : Fragment) : list Token := flat_map tokensOf f.

(** Appends a character to a child list kept in reverse order, joining it
    to a preceding text leaf with the same marks. *)
Definition pushChar (c : ascii) (m : list Mark) (revChildren : Fragment) : Fragment :=
  match revChildren with
  | Text t m' :: r =>
      if sameSet m m' then Text (t ++ String c EmptyString) m' :: r
      else Text (String c EmptyString) m :: revChildren
  | _ => Text (String c EmptyString) m :: revChildren
  end.

(** The open ancestors, innermost first, each with its children so far. *)
Definition Frame : Type := (NodeType * Attrs * list Mark * Fragment)%type.

Fixpoint parseTokens (ts : list Token) (stack : list Frame) (cur : Fragment)
  : option Fragment :=
  match ts with
  | [] => match stack with [] => Some (rev' cur) | _ :: _ => None end
  | TOpen ty a m :: r => parseTokens r ((ty, a, m, cur) :: stack) []
  | TClose :: r =>
      match stack with
      | [] => None
      | (ty, a, m, up) :: stack' =>
          parseTokens r stack' (Elem ty a m (rev' cur) :: up)
      end
  | TLeaf ty a m :: r => parseTokens r stack (Elem ty a m [] :: cur)
  | TChar c m :: r => parseTokens r stack (pushChar c m cur)
  end.

Definition withContent (doc : Node) (c : Fragment) : Node :=
  match doc with
  | Text t m => Text t m
  | Elem ty a m _ => Elem ty a m c
  end.

Definition sliceRange {A : Type} (l : list A) (from to : Z) : list A :=
  firstn (Z.to_nat (to - from)) (skipn (Z.to_nat from) l).

(** The tokens a slice stands for: those of its content without the
    opening tokens of the nodes open at its start and the closing tokens of
    the nodes open at its end. *)
Definition sliceTokens (s : Slice) : list Token :=
  let ts := tokensOfFrag (sliceContent s) in
  sliceRange ts (openStart s) (Z.of_nat (List.length ts) - openEnd s).

Definition inRange (doc : Node) (from to : Z) : bool :=
  (0 <=? from) && (from <=? to) && (to <=? fragSize (nodeContent doc)).

Definition reparse (doc : Node) (ts : list Token) : StepResult :=
  match parseTokens ts [] [] with
  | Some c => StepOk (withContent doc c)
  | None => StepFailed "Structure replace would create an invalid document"
  end.

Definition isInlineToken (t : Token) : bool :=
  match t with
  | TChar _ _ => true
  | TLeaf ty _ _ => isInlineType ty
  | _ => false
  end.

Definition mapTokenMarks (g : list Mark -> list Mark) (t : Token) : Token :=
  match t with
  | TChar c m => TChar c (g m)
  | TLeaf ty a m => if isInlineType ty then TLeaf ty a (g m) else t
  | _ => t
  end.

(** [Mark.addToSet]: marks are kept by rank; a mark type excludes itself. *)
Fixpoint addToSetFrom (m : Mark) (set : list Mark) (placed : bool) : list Mark :=
  match set with
  | [] => if placed then [] else [m]
  | other :: r =>
      if markType_eqb (markType m) (markType other) then addToSetFrom m r placed
      else if negb placed && (markRank (markType m) <? markRank (markType other))%nat
      then m :: other :: addToSetFrom m r true
      else other :: addToSetFrom m r placed
  end.

Definition addToSet (m : Mark) (set : list Mark) : list Mark :=
  if isInSet m set then set else addToSetFrom m set false.

(** [Mark.removeFromSet]. *)
Fixpoint removeFromSet (m : Mark) (set : list Mark) : list Mark :=
  match set with
  | [] => []
  | x :: r => if mark_eqb m x then r else x :: removeFromSet m r
  end.

Definition mapRange (g : Token -> Token) (ts : list Token) (from to : Z) : list Token :=
  (firstn (Z.to_nat from) ts
   ++ map g (sliceRange ts from to)
   ++ skipn (Z.to_nat to) ts)%list.

Definition tokenApplyStep (s : Step) (doc : Node) : StepResult :=
  let ts := tokensOfFrag (nodeContent doc) in
  match s with
  | ReplaceStep from to sl =>
      if inRange doc from to then
        match resolve doc from, resolve doc to with
        | Ok rfrom, Ok rto =>
            if depth rfrom <? openStart sl then
              StepFailed "Inserted content deeper than insertion position"
            else if negb (depth rfrom - openStart sl =? depth rto - openEnd sl) then
              StepFailed "Inconsistent open depths"
            else
              reparse doc
                (firstn (Z.to_nat from) ts ++ sliceTokens sl ++ skipn (Z.to_nat to) ts)%list
        | _, _ => StepFailed "Position out of range"
        end
      else StepFailed "Position out of range"
  | ReplaceAroundStep from to gapFrom gapTo sl ins =>
      if inRange doc from to && (from <=? gapFrom) && (gapFrom <=? gapTo) && (gapTo <=? to)
      then
        let st := sliceTokens sl in
        reparse doc (firstn (Z.to_nat from) ts
                     ++ firstn (Z.to_nat ins) st
                     ++ sliceRange ts gapFrom gapTo
                     ++ skipn (Z.to_nat ins) st
                     ++ skipn (Z.to_nat to) ts)%list
      else StepFailed "Gap is not a flat range"
  | AddMarkStep from to m =>
      if inRange doc from to then
        reparse doc (mapRange (mapTokenMarks (addToSet m)) ts from to)
      else StepFailed "Position out of range"
  | RemoveMarkStep from to m =>
      if inRange doc from to then
        reparse doc (mapRange (mapTokenMarks (removeFromSet m)) ts from to)
      else StepFailed "Position out of range"
  end.

(** The steps of [tr.addMark(from, to, mark)]: the removals it needs first,
    then the additions, adjacent ranges joined.  Both lists are kept with
    the step pushed last in front. *)
Definition MarkRange : Type := (Z * Z * Mark)%type.

Definition extendOrPush (acc : list MarkRange) (start e : Z) (m : Mark) : list MarkRange :=
  match acc with
  | (f, t, m') :: r =>
      if (t =? start) && mark_eqb m' m then (f, e, m') :: r
      else (start, e, m) :: acc
  | [] => [(start, e, m)]
  end.

Definition addMarkVisit (from to : Z) (mark : Mark) (node : Node) (pos : Z)
  (st : list MarkRange * list MarkRange)
  : Result (bool * (list MarkRange * list MarkRange)) :=
  if negb (isInline node) then Ok (true, st)
  else
    let marks := nodeMarks node in
    if negb (isInSet mark marks) then
      let start := Z.max pos from in
      let e := Z.min (pos + nodeSize node) to in
      let newSet := addToSet mark marks in
      let removed' :=
        fold_left
          (fun acc mk => if negb (isInSet mk newSet) then extendOrPush acc start e mk else acc)
          marks (fst st) in
      let added' :=
        match snd st with
        | (f, t, m') :: r => if t =? start then (f, e, m') :: r else (start, e, mark) :: snd st
        | [] => [(start, e, mark)]
        end in
      Ok (true, (removed', added'))
    else Ok (true, st).

Definition tokenAddMarkSteps (doc : Node) (from to : Z) (mark : Mark) : list Step :=
  match nodesBetween (addMarkVisit from to mark) doc from to 0 ([], []) with
  | Ok (removed', added') =>
      (map (fun '(f, t, m) => RemoveMarkStep f t m) (rev removed')
       ++ map (fun '(f, t, m) => AddMarkStep f t m) (rev added'))%list
  | Throw _ => []
  end.

(** The steps of [tr.removeMark(from, to, mark)] for a mark instance: one
    range per run of consecutive inline nodes that carry the mark.  The
    state is the list of ranges, last in front, with the ordinal of the
    inline node that last extended each, and the count of inline nodes. *)
Definition removeMarkVisit (from to : Z) (mark : Mark) (node : Node) (pos : Z)
  (st : list (MarkRange * Z) * Z) : Result (bool * (list (MarkRange * Z) * Z)) :=
  if negb (isInline node) then Ok (true, st)
  else
    let stepNo := snd st + 1 in
    if isInSet mark (nodeMarks node) then
      let e := Z.min (pos + nodeSize node) to in
      match fst st with
      | ((f, t, m), n) :: r =>
          if n =? stepNo - 1 then Ok (true, (((f, e, m), stepNo) :: r, stepNo))
          else Ok (true, (((Z.max pos from, e, mark), stepNo) :: fst st, stepNo))
      | [] => Ok (true, ([((Z.max pos from, e, mark), stepNo)], stepNo))
      end
    else Ok (true, (fst st, stepNo)).

Definition tokenRemoveMarkSteps (doc : Node) (from to : Z) (mark : Mark) : list Step :=
  match nodesBetween (removeMarkVisit from to mark) doc from to 0 ([], 0) with
  | Ok (matched, _) => map (fun '((f, t, m), _) => RemoveMarkStep f t m) (rev matched)
  | Throw _ => []
  end.

(** [replaceStep(doc, from, to, slice)]: nothing to do for an empty
    replacement of an empty range; both positions have to resolve.  The
    slices the driver passes are closed and replace inline content of one
    parent, which fits as it is. *)
Definition tokenFitReplace (doc : Node) (from to : Z) (sl : Slice)
  : Result (option Step) :=
  if (from =? to) && (sliceSize sl =? 0) then Ok None
  else
    _ <- resolve doc from ;;
    _ <- resolve doc to ;;
    Ok (Some (ReplaceStep from to sl)).

(* ================================================================== *)
(** * The text-diff primitive: the shortest-edit-script search of the
      [diff] package over a list of tokens *)

Record Component : Type := mkComponent {
  count : Z;
  cAdded : bool;
  cRemoved : bool
}.

(** A candidate path: the position reached in the new string and the
    components so far, last in front. *)
Record Path : Type := mkPath {
  newPos : Z;
  components : list Component
}.

Definition tokenAt (l : list string) (i : Z) : option string :=
  if i <? 0 then None else nth_error l (Z.to_nat i).

Definition optStringEqb (a b : option string) : bool :=
  match a, b with
  | Some x, Some y => String.eqb x y
  | _, _ => false
  end.

Definition pushComponent (cs : list Component) (a r : bool) : list Component :=
  match cs with
  | lastC :: rest =>
      if Bool.eqb (cAdded lastC) a && Bool.eqb (cRemoved lastC) r
      then mkComponent (count lastC + 1) a r :: rest
      else mkComponent 1 a r :: cs
  | [] => [mkComponent 1 a r]
  end.

Section Myers.
Variables newString oldString : list string.

Let newLen : Z := Z.of_nat (List.length newString).
Let oldLen : Z := Z.of_nat (List.length oldString).

Fixpoint commonRun (fuel : nat) (np op common : Z) : Z * Z * Z :=
  match fuel with
  | O => (np, op, common)
  | S fuel' =>
      if (np + 1 <? newLen) && (op + 1 <? oldLen)
         && optStringEqb (tokenAt newString (np + 1)) (tokenAt oldString (op + 1))
      then commonRun fuel' (np + 1) (op + 1) (common + 1)
      else (np, op, common)
  end.

(** [extractCommon(basePath, newString, oldString, diagonalPath)]: the
    extended path and the position reached in the old string. *)
Definition extractCommon (base : Path) (diagonalPath : Z) : Path * Z :=
  let '(np, op, common) :=
    commonRun (List.length newString) (newPos base) (newPos base - diagonalPath) 0 in
  (mkPath np (if common =? 0 then components base
              else mkComponent common false false :: components base), op).

Definition BestPath : Type := list (Z * Path).

Fixpoint lookupPath (best : BestPath) (d : Z) : option Path :=
  match best with
  | [] => None
  | (k, p) :: r => if k =? d then Some p else lookupPath r d
  end.

(** One diagonal of [execEditLength]: nothing (pruned), a finished
    component list, or a candidate for the diagonal. *)
Inductive Diagonal : Type :=
| Pruned
| Finished (cs : list Component)
| Candidate (p : Path).

Definition execDiagonal (best : BestPath) (diagonalPath : Z) : Diagonal :=
  let addPath := lookupPath best (diagonalPath - 1) in
  let removePath := lookupPath best (diagonalPath + 1) in
  let oldPos := match removePath with Some p => newPos p | None => 0 end - diagonalPath in
  let canAdd := match addPath with Some p => newPos p + 1 <? newLen | None => false end in
  let canRemove :=
    match removePath with Some _ => (0 <=? oldPos) && (oldPos <? oldLen) | None => false end in
  if negb canAdd && negb canRemove then Pruned
  else
    let base :=
      match addPath, removePath with
      | Some ap, Some rp =>
          if negb canAdd || (canRemove && (newPos ap <? newPos rp))
          then mkPath (newPos rp) (pushComponent (components rp) false true)
          else mkPath (newPos ap + 1) (pushComponent (components ap) true false)
      | None, Some rp => mkPath (newPos rp) (pushComponent (components rp) false true)
      | Some ap, None => mkPath (newPos ap + 1) (pushComponent (components ap) true false)
      | None, None => mkPath 0 []
      end in
    let '(base', oldPos') := extractCommon base diagonalPath in
    if (newLen <=? newPos base' + 1) && (oldLen <=? oldPos' + 1)
    then Finished (components base')
    else Candidate base'.

(** The [for] loop of [execEditLength] over the diagonals
    [diagonalPath, diagonalPath + 2, ...]. *)
Fixpoint execDiagonals (n : nat) (best : BestPath) (diagonalPath : Z)
  (next : BestPath) : BestPath + list Component :=
  match n with
  | O => inl next
  | S n' =>
      match execDiagonal best diagonalPath with
      | Pruned => execDiagonals n' best (diagonalPath + 2) next
      | Finished cs => inr cs
      | Candidate p => execDiagonals n' best (diagonalPath + 2) ((diagonalPath, p) :: next)
      end
  end.

Fixpoint execEditLengths (fuel : nat) (editLength : Z) (best : BestPath)
  : option (list Component) :=
  match fuel with
  | O => None
  | S fuel' =>
      match execDiagonals (Z.to_nat (editLength + 1)) best (- editLength) [] with
      | inr cs => Some cs
      | inl next => execEditLengths fuel' (editLength + 1) next
      end
  end.

Definition joinTokens (l : list string) : string := String.concat "" l.

(** [buildValues]: the values of the components, a removal moved in front
    of the addition that precedes it.  The output is built last in front. *)
Fixpoint buildValues (cs : list Component) (np op : Z) (out : list Change)
  : list Change :=
  match cs with
  | [] => rev out
  | c :: r =>
      if negb (cRemoved c) then
        let v := joinTokens (sliceRange newString np (np + count c)) in
        buildValues r (np + count c) (if cAdded c then op else op + count c)
          (mkChange v (cAdded c) false :: out)
      else
        let v := mkChange (joinTokens (sliceRange oldString op (op + count c))) false true in
        match out with
        | prev :: out' =>
            if added prev then buildValues r np (op + count c) (prev :: v :: out')
            else buildValues r np (op + count c) (v :: out)
        | [] => buildValues r np (op + count c) [v]
        end
  end.

Definition diffTokens : list Change :=
  let '(seed, oldPos) := extractCommon (mkPath (-1) []) 0 in
  if (newLen <=? newPos seed + 1) && (oldLen <=? oldPos + 1)
  then [mkChange (joinTokens newString) false false]
  else
    match execEditLengths (List.length newString + List.length oldString) 1 [(0, seed)] with
    | Some cs => buildValues (rev cs) 0 0 []
    | None => []
    end.
End Myers.

Definition charTokens (s : string) : list string :=
  map (fun c => String c EmptyString) (list_ascii_of_string s).

(** [diffChars(oldStr, newStr)]. *)
Definition myersDiffChars (oldStr newStr : string) : list Change :=
  diffTokens (charTokens newStr) (charTokens oldStr).

(** Word tokens for [diffWordsWithSpace], on ASCII text: runs of word
    characters, runs of blanks, runs of other punctuation; brackets, quotes
    and line breaks stand alone. *)
Inductive CharClass : Type := WordChar | Blank | Breaker | Punct.

Definition charClass (c : ascii) : CharClass :=
  let n := Z.of_nat (nat_of_ascii c) in
  if ((48 <=? n) && (n <=? 57)) || ((65 <=? n) && (n <=? 90))
     || ((97 <=? n) && (n <=? 122)) || (n =? 95) then WordChar
  else if (n =? 10) || (n =? 13) then Breaker
  else if (n =? 32) || (n =? 9) || (n =? 11) || (n =? 12) then Blank
  else if (n =? 40) || (n =? 41) || (n =? 91) || (n =? 93) || (n =? 123)
          || (n =? 125) || (n =? 39) || (n =? 34) then Breaker
  else Punct.

Definition classEqb (a b : CharClass) : bool :=
  match a, b with
  | WordChar, WordChar | Blank, Blank | Punct, Punct => true
  | _, _ => false
  end.

Fixpoint wordTokensFrom (cs : list ascii) (cur : string) (cls : CharClass)
  : list string :=
  let flush := if (strlen cur =? 0) then [] else [cur] in
  match cs with
  | [] => flush
  | c :: r =>
      if classEqb (charClass c) cls then wordTokensFrom r (cur ++ String c EmptyString) cls
      else (flush ++ wordTokensFrom r (String c EmptyString) (charClass c))%list
  end.

Definition wordTokens (s : string) : list string :=
  wordTokensFrom (list_ascii_of_string s) EmptyString Breaker.

Definition myersDiffWords (oldStr newStr : string) : list Change :=
  diffTokens (wordTokens newStr) (wordTokens oldStr).

(** Modelled from the spec: [removeMarks] ([removeMarks.ts]), which yields
    the annotation-stripped copy of a document.  Annotations are a matter
    of inline content: the annotation list of every text leaf and of every
    other inline node is emptied, the nodes that are not inline are left as
    they are; text leaves that become adjacent with equal markup are
    joined, as a document never holds two such leaves side by side. *)
Fixpoint joinText (l : Fragment) : Fragment :=
  match l with
  | Text a ma :: r =>
      match joinText r with
      | Text b mb :: r' =>
          if sameSet ma mb then Text (a ++ b) ma :: r' else Text a ma :: Text b mb :: r'
      | r' => Text a ma :: r'
      end
  | x :: r => x :: joinText r
  | [] => []
  end.

Fixpoint stripMarks (n : Node) : Node :=
  match n with
  | Text t _ => Text t []
  | Elem ty a m c =>
      Elem ty a (if isInlineType ty then [] else m) (joinText (map stripMarks c))
  end.

(** Modelled from the spec: [simplifyTransform] ([simplifyTransform.ts]),
    which maps a transform to a transform with the same resulting document
    and may merge steps.  This one merges none; it has nothing to return
    for a transform without steps. *)
Definition keepSteps (tr : Transform) : Result (option Transform) :=
  match trSteps tr with
  | [] => Ok None
  | _ :: _ => Ok (Some tr)
  end.

Definition tokenEnv : Env := {|
  applyStep := tokenApplyStep;
  fitReplace := tokenFitReplace;
  validContent := fun _ _ => true;
  addMarkSteps := tokenAddMarkSteps;
  removeMarkSteps := tokenRemoveMarkSteps;
  diffChars := myersDiffChars;
  diffWordsWithSpace := myersDiffWords;
  removeMarks := stripMarks;
  simplifyTransform := keepSteps
|}.

(* ================================================================== *)
(** * Facts about the tree model *)

Local Open Scope list_scope.

Section NodeInduction.
Variable P : Node -> Prop.
Hypothesis HText : forall t m, P (Text t m).
Hypothesis HElem : forall ty a m c, Forall P c -> P (Elem ty a m c).

Fixpoint Node_ind' (n : Node) : P n :=
  match n with
  | Text t m => HText t m
  | Elem ty a m c =>
      HElem ty a m c
        ((fix all (l : list Node) : Forall P l :=
            match l with
            | [] => Forall_nil P
            | x :: r => Forall_cons x (Node_ind' x) (all r)
            end) c)
  end.
End NodeInduction.

Lemma list_eqb_eq {A : Type} (eqb : A -> A -> bool) :
  (forall x y, eqb x y = true <-> x = y) ->
  forall l1 l2, list_eqb eqb l1 l2 = true <-> l1 = l2.
Proof.
  intros Heq l1; induction l1 as [|x r1 IH]; intros [|y r2]; simpl;
    try (split; [discriminate | congruence]); [tauto|].
  rewrite andb_true_iff, Heq, IH. split.
  - intros [-> ->]; reflexivity.
  - intros H; inversion H; auto.
Qed.

Lemma attr_eqb_eq (a b : string * string) : attr_eqb a b = true <-> a = b.
Proof.
  destruct a as [k v], b as [k' v']; unfold attr_eqb; simpl.
  rewrite andb_true_iff, !String.eqb_eq. split.
  - intros [-> ->]; reflexivity.
  - intros H; inversion H; auto.
Qed.

Lemma attrs_eqb_eq (a b : Attrs) : attrs_eqb a b = true <-> a = b.
Proof. apply list_eqb_eq, attr_eqb_eq. Qed.

Lemma markType_eqb_eq (a b : MarkType) : markType_eqb a b = true <-> a = b.
Proof.
  destruct a, b; unfold markType_eqb; simpl.
  rewrite !andb_true_iff, String.eqb_eq, Nat.eqb_eq, Bool.eqb_true_iff. split.
  - intros [[-> ->] ->]; reflexivity.
  - intros H; inversion H; auto.
Qed.

Lemma mark_eqb_eq (a b : Mark) : mark_eqb a b = true <-> a = b.
Proof.
  destruct a, b; unfold mark_eqb; simpl.
  rewrite andb_true_iff, markType_eqb_eq, attrs_eqb_eq. split.
  - intros [-> ->]; reflexivity.
  - intros H; inversion H; auto.
Qed.

Lemma sameSet_eq (a b : list Mark) : sameSet a b = true <-> a = b.
Proof. apply list_eqb_eq, mark_eqb_eq. Qed.

Lemma nodeType_eqb_eq (a b : NodeType) : nodeType_eqb a b = true <-> a = b.
Proof.
  destruct a, b; unfold nodeType_eqb; simpl.
  rewrite !andb_true_iff, String.eqb_eq, !Bool.eqb_true_iff. split.
  - intros [[-> ->] ->]; reflexivity.
  - intros H; inversion H; auto.
Qed.

(** Equal type, as a proposition. *)
Definition SameType (a b : Node) : Prop :=
  match a, b with
  | Text _ _, Text _ _ => True
  | Elem ta _ _ _, Elem tb _ _ _ => ta = tb
  | _, _ => False
  end.

(** "Same markup": equal type, attributes and annotation list. *)
Definition SameMarkup (a b : Node) : Prop :=
  SameType a b /\ nodeAttrs a = nodeAttrs b /\ nodeMarks a = nodeMarks b.

Lemma sameType_iff (a b : Node) : sameType a b = true <-> SameType a b.
Proof.
  destruct a, b; simpl; try tauto; try (split; [discriminate | tauto]).
  apply nodeType_eqb_eq.
Qed.

Lemma sameMarkup_iff (a b : Node) : sameMarkup a b = true <-> SameMarkup a b.
Proof.
  unfold SameMarkup; destruct a, b; simpl;
    try (split; [discriminate | tauto]).
  - rewrite sameSet_eq. tauto.
  - rewrite !andb_true_iff, nodeType_eqb_eq, attrs_eqb_eq, sameSet_eq. tauto.
Qed.

Lemma node_eqb_eq (a b : Node) : node_eqb a b = true <-> a = b.
Proof.
  revert b; induction a as [t m | ty at' m c IH] using Node_ind'; intros [t' m' | ty' a' m' c'];
    simpl; try (split; [discriminate | congruence]).
  - rewrite andb_true_iff, sameSet_eq, String.eqb_eq. split.
    + intros [-> ->]; reflexivity.
    + intros H; inversion H; auto.
  - rewrite !andb_true_iff, nodeType_eqb_eq, attrs_eqb_eq, sameSet_eq.
    assert (Hc : forall c2,
      (fix frag_eqb (l1 l2 : list Node) : bool :=
         match l1, l2 with
         | [], [] => true
         | x :: r1, y :: r2 => node_eqb x y && frag_eqb r1 r2
         | _, _ => false
         end) c c2 = true <-> c = c2).
    { induction IH as [|x r Hx _ IHr]; intros [|y r2];
        try (split; [discriminate | congruence]); [tauto|].
      rewrite andb_true_iff, Hx, IHr. split.
      - intros [-> ->]; reflexivity.
      - intros H; inversion H; auto. }
    rewrite Hc. split.
    + intros [[[-> ->] ->] ->]; reflexivity.
    + intros H; inversion H; auto.
Qed.

Lemma frag_eqb_eq (a b : Fragment) : frag_eqb a b = true <-> a = b.
Proof. apply list_eqb_eq, node_eqb_eq. Qed.

(** [withChild] is [findIndex] followed by [maybeChild]. *)
Lemma scanChild_findIndexLoop {R : Type} (none : Z -> Z -> R) (some : Node -> Z -> Z -> R)
  (err : Exn -> R) (l : Fragment) :
  forall (pre : Fragment) (pos curPos : Z),
    scanChild none some err l pos (Z.of_nat (List.length pre)) curPos
    = match findIndexLoop l pos (Z.of_nat (List.length pre)) curPos with
      | Throw e => err e
      | Ok (index, offset) =>
          match maybeChild (pre ++ l) index with
          | None => none index offset
          | Some c => some c index offset
          end
      end.
Proof.
  induction l as [|cur r IH]; intros pre pos curPos; [reflexivity|].
  cbn [scanChild findIndexLoop].
  assert (Hnth : forall (p : Fragment) (x : Fragment),
            maybeChild (p ++ x) (Z.of_nat (List.length p)) = nth_error x 0).
  { intros p x. unfold maybeChild.
    destruct (Z.of_nat (List.length p) <? 0) eqn:Hneg; [apply Z.ltb_lt in Hneg; lia|].
    rewrite Nat2Z.id, nth_error_app2 by apply Nat.le_refl.
    rewrite Nat.sub_diag. reflexivity. }
  assert (Hsucc : Z.of_nat (List.length pre) + 1 = Z.of_nat (List.length (pre ++ [cur]))).
  { rewrite length_app. simpl. lia. }
  destruct (pos <=? curPos + nodeSize cur).
  - destruct (curPos + nodeSize cur =? pos).
    + rewrite Hsucc.
      replace (pre ++ cur :: r) with ((pre ++ [cur]) ++ r) by (rewrite <- app_assoc; reflexivity).
      rewrite Hnth. destruct r; reflexivity.
    + rewrite Hnth. reflexivity.
  - rewrite Hsucc, (IH (pre ++ [cur])). rewrite <- app_assoc. reflexivity.
Qed.

Lemma withChild_findIndex {R : Type} (none : Z -> Z -> R) (some : Node -> Z -> Z -> R)
  (err : Exn -> R) (f : Fragment) (pos : Z) :
  withChild none some err f pos
  = match findIndex f pos with
    | Throw e => err e
    | Ok (index, offset) =>
        match maybeChild f index with
        | None => none index offset
        | Some c => some c index offset
        end
    end.
Proof.
  unfold withChild, findIndex. destruct (pos =? 0).
  - destruct f; reflexivity.
  - destruct (pos =? fragSize f).
    + unfold maybeChild.
      destruct (Z.of_nat (List.length f) <? 0) eqn:Hneg; [apply Z.ltb_lt in Hneg; lia|].
      rewrite Nat2Z.id. rewrite (proj2 (nth_error_None f (List.length f)) (Nat.le_refl _)).
      reflexivity.
    + destruct ((fragSize f <? pos) || (pos <? 0)); [reflexivity|].
      apply (scanChild_findIndexLoop none some err f []).
Qed.

(* ================================================================== *)
(** * The diff classifier decides the documented conditions *)

(** The two strings share a non-empty common prefix. *)
Definition SharePrefix (a b : string) : Prop :=
  exists c ra rb, a = String c ra /\ b = String c rb.

(** The conditions of a text change, in the words of the specification. *)
Definition SpecTextChange (fromDoc toDoc : Node) (start : Z) : Prop :=
  exists f t rfrom rto,
    nodeAt fromDoc start = Ok (Some f) /\ nodeAt toDoc start = Ok (Some t)
    /\ isText f = true /\ isText t = true /\ SameMarkup f t
    /\ resolve fromDoc start = Ok rfrom /\ resolve toDoc start = Ok rto
    /\ depth rfrom = depth rto
    /\ SameType (parent rfrom) (parent rto)
    /\ SameMarkup (parent rfrom) (parent rto)
    /\ (SharePrefix (nodeText f) (nodeText t)
        \/ nodeText f = "" \/ nodeText t = "").

(** The conditions of a markup change. *)
Definition SpecMarkupChange (fromDoc toDoc : Node) (start : Z) : Prop :=
  exists f t,
    nodeAt fromDoc start = Ok (Some f) /\ nodeAt toDoc start = Ok (Some t)
    /\ isText f = false /\ isText t = false
    /\ nodeContent f = nodeContent t
    /\ ~ SameMarkup f t.

Lemma commonPrefixLen_nonneg (a b : string) : 0 <= commonPrefixLen a b.
Proof.
  revert b; induction a as [|c r IH]; intros [|c' r']; cbn [commonPrefixLen]; try lia.
  destruct (Ascii.eqb c c'); [specialize (IH r')|]; lia.
Qed.

Lemma commonPrefix_pos_iff (a b : string) :
  (0 <? commonPrefixLen a b) = true <-> SharePrefix a b.
Proof.
  rewrite Z.ltb_lt. unfold SharePrefix.
  destruct a as [|c r], b as [|c' r']; cbn [commonPrefixLen].
  - split; [lia | intros (? & ? & ? & H & _); discriminate].
  - split; [lia | intros (? & ? & ? & H & _); discriminate].
  - split; [lia | intros (? & ? & ? & _ & H); discriminate].
  - destruct (Ascii.eqb c c') eqn:Hc.
    + apply Ascii.eqb_eq in Hc; subst c'. split.
      * intros _; eauto.
      * intros _. pose proof (commonPrefixLen_nonneg r r'); lia.
    + split; [lia|]. intros (x & ra & rb & H1 & H2).
      inversion H1; inversion H2; subst. rewrite Ascii.eqb_refl in Hc. discriminate.
Qed.

Lemma strlen_zero_iff (s : string) : (strlen s =? 0) = true <-> s = "".
Proof.
  rewrite Z.eqb_eq. unfold strlen. destruct s; simpl; split; try reflexivity; try lia.
  discriminate.
Qed.

Lemma isTextChange_true_iff (fromDoc toDoc : Node) (start : Z) (fn tn : option Node) :
  isTextChange fromDoc toDoc start fn tn = Ok true <->
  exists f t rfrom rto,
    fn = Some f /\ tn = Some t
    /\ isText f = true /\ isText t = true /\ SameMarkup f t
    /\ resolve fromDoc start = Ok rfrom /\ resolve toDoc start = Ok rto
    /\ depth rfrom = depth rto
    /\ SameType (parent rfrom) (parent rto)
    /\ SameMarkup (parent rfrom) (parent rto)
    /\ (SharePrefix (nodeText f) (nodeText t)
        \/ nodeText f = "" \/ nodeText t = "").
Proof.
  unfold isTextChange. split.
  - destruct fn as [f|]; [|discriminate]. destruct tn as [t|]; [|discriminate].
    destruct (isText f) eqn:Hf; [|discriminate].
    destruct (isText t) eqn:Ht; [|discriminate].
    destruct (sameMarkup f t) eqn:Hm; [|discriminate]. simpl.
    destruct (resolve fromDoc start) as [rfrom|] eqn:Hrf; [|discriminate].
    destruct (resolve toDoc start) as [rto|] eqn:Hrt; [|discriminate]. simpl.
    destruct (depth rfrom =? depth rto) eqn:Hd; [|discriminate].
    destruct (sameType (parent rfrom) (parent rto)) eqn:Hty; [|discriminate].
    destruct (sameMarkup (parent rfrom) (parent rto)) eqn:Hpm; [|discriminate].
    simpl. intros H; injection H as H.
    exists f, t, rfrom, rto.
    apply sameMarkup_iff in Hm, Hpm. apply sameType_iff in Hty. apply Z.eqb_eq in Hd.
    repeat (split; [assumption || reflexivity|]).
    rewrite !orb_true_iff, commonPrefix_pos_iff, !strlen_zero_iff in H. tauto.
  - intros (f & t & rfrom & rto & -> & -> & Hf & Ht & Hm & Hrf & Hrt & Hd & Hty & Hpm & Htxt).
    apply sameMarkup_iff in Hm, Hpm. apply sameType_iff in Hty. apply Z.eqb_eq in Hd.
    rewrite Hf, Ht, Hm, Hrf, Hrt. simpl. rewrite Hd, Hty, Hpm. simpl.
    f_equal. rewrite !orb_true_iff, commonPrefix_pos_iff, !strlen_zero_iff. tauto.
Qed.

Lemma isMarkupChange_true_iff (fn tn : option Node) :
  isMarkupChange fn tn = true <->
  exists f t, fn = Some f /\ tn = Some t /\ isText f = false /\ isText t = false
              /\ nodeContent f = nodeContent t /\ ~ SameMarkup f t.
Proof.
  unfold isMarkupChange. split.
  - destruct fn as [f|]; [|discriminate]. destruct tn as [t|]; [|discriminate].
    rewrite !andb_true_iff, !negb_true_iff, frag_eqb_eq.
    intros [[[Hf Ht] Hc] Hm]. exists f, t. repeat (split; [assumption || reflexivity|]).
    rewrite <- sameMarkup_iff. congruence.
  - intros (f & t & -> & -> & Hf & Ht & Hc & Hm).
    rewrite !andb_true_iff, !negb_true_iff, frag_eqb_eq.
    repeat split; try assumption.
    destruct (sameMarkup f t) eqn:H; [|reflexivity].
    apply sameMarkup_iff in H. contradiction.
Qed.

(** The parts of a successful classification. *)
Lemma classifyDiff_Ok (fromDoc toDoc : Node) (start endFrom endTo : Z) (r : DiffResult) :
  classifyDiff fromDoc toDoc start endFrom endTo = Ok r ->
  exists fn tn b,
    nodeAt fromDoc start = Ok fn /\ nodeAt toDoc start = Ok tn
    /\ isTextChange fromDoc toDoc start fn tn = Ok b
    /\ dFromNode r = fn /\ dToNode r = tn
    /\ dStart r = start /\ dEndFrom r = endFrom /\ dEndTo r = endTo
    /\ dType r = (if b then TextDiff
                  else if isMarkupChange fn tn then MarkupDiff else StructuralDiff).
Proof.
  unfold classifyDiff.
  destruct (nodeAt fromDoc start) as [fn|]; [|discriminate].
  destruct (nodeAt toDoc start) as [tn|]; [|discriminate]. simpl.
  destruct (if optIsText fn then _ else _) as [tns|]; [|discriminate]. simpl.
  destruct (isTextChange fromDoc toDoc start fn tn) as [b|] eqn:Hb; [|discriminate]. simpl.
  intros H. exists fn, tn, b.
  destruct b; [|destruct (isMarkupChange fn tn)]; injection H as <-; simpl;
    repeat split; try reflexivity; assumption.
Qed.

(* ================================================================== *)
(** * Documents used in the examples *)

Definition docT : NodeType := mkNodeType "doc" false false.
Definition paragraphT : NodeType := mkNodeType "paragraph" false false.
Definition headingT : NodeType := mkNodeType "heading" false false.

Definition doc (c : Fragment) : Node := Elem docT [] [] c.
Definition paragraph (c : Fragment) : Node := Elem paragraphT [] [] c.
Definition heading (c : Fragment) : Node := Elem headingT [("level", "1")] [] c.
Definition txt (s : string) : Node := Text s [].

Definition strong : Mark := mkMark (mkMarkType "strong" 1 true) [].
Definition em : Mark := mkMark (mkMarkType "em" 0 true) [].

Definition helloWorld : Node := doc [paragraph [txt "Hello world"]].
Definition helloThere : Node := doc [paragraph [txt "Hello there"]].

(* ================================================================== *)
(** * Claims about the classifier *)

(** C5: [classifyDiff] labels a divergence 'text' exactly when the nodes at
    the start position of both documents are text leaves with the same
    markup, their parents are at equal depth with equal type and equal
    markup, and the two strings share a non-empty common prefix or one of
    them is empty; a divergence that meets neither the text nor the markup
    conditions is labelled 'structural', and only such a divergence is. *)
Theorem classifyDiff_text_iff (fromDoc toDoc : Node) (start endFrom endTo : Z) :
  ((exists r, classifyDiff fromDoc toDoc start endFrom endTo = Ok r
              /\ dType r = TextDiff)
   <-> SpecTextChange fromDoc toDoc start)
  /\ (forall r, classifyDiff fromDoc toDoc start endFrom endTo = Ok r ->
        (dType r = StructuralDiff
         <-> ~ SpecTextChange fromDoc toDoc start
             /\ ~ SpecMarkupChange fromDoc toDoc start)).
Proof.
  split; [split|].
  - intros (r & Hr & Hty).
    apply classifyDiff_Ok in Hr as (fn & tn & b & Hfn & Htn & Hb & _ & _ & _ & _ & _ & Hd).
    rewrite Hty in Hd. destruct b.
    + apply isTextChange_true_iff in Hb
        as (f & t & rf & rt & -> & -> & H). exists f, t, rf, rt. tauto.
    + destruct (isMarkupChange fn tn); discriminate.
  - intros (f & t & rf & rt & Hfn & Htn & H).
    assert (Hb : isTextChange fromDoc toDoc start (Some f) (Some t) = Ok true).
    { apply isTextChange_true_iff. exists f, t, rf, rt. tauto. }
    destruct H as (Hf & _ & _ & Hrf & _).
    unfold classifyDiff. rewrite Hfn, Htn. cbn [bind optIsText]. rewrite Hf, Hrf.
    cbn [bind]. rewrite Hb. cbn [bind]. eexists; split; reflexivity.
  - intros r Hr.
    apply classifyDiff_Ok in Hr as (fn & tn & b & Hfn & Htn & Hb & _ & _ & _ & _ & _ & Hd).
    assert (Htext : b = true <-> SpecTextChange fromDoc toDoc start).
    { split.
      - intros ->. apply isTextChange_true_iff in Hb
          as (f & t & rf & rt & -> & -> & H). exists f, t, rf, rt. tauto.
      - intros (f & t & rf & rt & Hfn' & Htn' & H).
        rewrite Hfn in Hfn'. rewrite Htn in Htn'.
        injection Hfn' as ->. injection Htn' as ->.
        assert (Hb' : isTextChange fromDoc toDoc start (Some f) (Some t) = Ok true).
        { apply isTextChange_true_iff. exists f, t, rf, rt. tauto. }
        congruence. }
    assert (Hmark : isMarkupChange fn tn = true <-> SpecMarkupChange fromDoc toDoc start).
    { rewrite isMarkupChange_true_iff. split.
      - intros (f & t & -> & -> & H). exists f, t. tauto.
      - intros (f & t & Hfn' & Htn' & H).
        rewrite Hfn in Hfn'. rewrite Htn in Htn'.
        injection Hfn' as ->. injection Htn' as ->. exists f, t. tauto. }
    rewrite Hd. destruct b.
    + split; [discriminate|]. intros [H _]. exfalso. apply H, Htext. reflexivity.
    + destruct (isMarkupChange fn tn).
      * split; [discriminate|]. intros [_ H]. exfalso. apply H, Hmark. reflexivity.
      * split; [|reflexivity]. intros _. split.
        -- intros H. apply Htext in H. discriminate.
        -- intros H. apply Hmark in H. discriminate.
Qed.

Lemma classifyDiff_text_iff_witness :
  classifyDiff helloWorld helloThere 7 12 12
  = Ok (mkDiff TextDiff 7 12 12 (Some (txt "Hello world")) (Some (txt "Hello there")) 1)
  /\ SpecTextChange helloWorld helloThere 7.
Proof.
  split; [reflexivity|].
  apply (proj1 (classifyDiff_text_iff helloWorld helloThere 7 12 12)).
  eexists; split; reflexivity.
Defined.

(* ================================================================== *)
(** * Claims about the boundary resolver *)

Definition twoAs : Node := doc [paragraph [txt "aa"]].
Definition threeAs : Node := doc [paragraph [txt "aaa"]].

(** The two windows scored for an ambiguous divergence replace ranges of
    the same total size, so the size penalty is the same for both. *)
Lemma candidate_sizes_equal (start endA endB : Z) :
  let overlap := start - Z.min endA endB in
  0 < overlap ->
  replacementSize (start - overlap) endA endB
  = replacementSize start (endA + overlap) (endB + overlap).
Proof. intros overlap H; subst overlap; unfold replacementSize; lia. Qed.

(** An unambiguous window is used as it is. *)
Lemma getReplaceStep_unambiguous (fromDoc toDoc : Node) (start endA endB : Z) :
  findDiffStart toDoc fromDoc = Some start ->
  findDiffEnd toDoc fromDoc = Some (endA, endB) ->
  start - Z.min endA endB <= 0 ->
  getReplaceStep fromDoc toDoc
  = (s <- slice toDoc start endA ;; Ok (Some (ReplaceStep start endB s))).
Proof.
  intros Hs He Ho. unfold getReplaceStep, chooseWindow. rewrite Hs, He.
  destruct (0 <? start - Z.min endA endB) eqn:Hlt; [apply Z.ltb_lt in Hlt; lia|].
  reflexivity.
Qed.

(** C6: for an ambiguous window ([overlap > 0]) [getReplaceStep] scores the
    window with the start moved back by the overlap and the window with
    both ends moved forward by it; it takes the first only when its score
    is strictly higher, and the second on a tie or a lower score.  The step
    deletes [start, endB) of the source and inserts the slice
    [start, endA) of the target, for the window taken. *)
Theorem getReplaceStep_ambiguous (fromDoc toDoc : Node)
  (start endA endB scoreStart scoreEnd : Z) :
  let overlap := start - Z.min endA endB in
  findDiffStart toDoc fromDoc = Some start ->
  findDiffEnd toDoc fromDoc = Some (endA, endB) ->
  0 < overlap ->
  calculateBoundaryScore fromDoc toDoc (start - overlap) endA endB = Ok scoreStart ->
  calculateBoundaryScore fromDoc toDoc start (endA + overlap) (endB + overlap)
  = Ok scoreEnd ->
  (scoreEnd < scoreStart ->
   getReplaceStep fromDoc toDoc
   = (s <- slice toDoc (start - overlap) endA ;;
      Ok (Some (ReplaceStep (start - overlap) endB s))))
  /\ (scoreStart <= scoreEnd ->
      getReplaceStep fromDoc toDoc
      = (s <- slice toDoc start (endA + overlap) ;;
         Ok (Some (ReplaceStep start (endB + overlap) s)))).
Proof.
  intros overlap Hs He Ho H1 H2. unfold getReplaceStep, chooseWindow.
  rewrite Hs, He. fold overlap.
  destruct (0 <? overlap) eqn:Hlt; [|apply Z.ltb_ge in Hlt; lia].
  rewrite H1, H2. cbn [bind]. split; intros Hcmp.
  - apply Z.ltb_lt in Hcmp. rewrite Hcmp. reflexivity.
  - apply Z.ltb_ge in Hcmp. rewrite Hcmp. reflexivity.
Qed.

Lemma getReplaceStep_ambiguous_witness :
  findDiffStart threeAs twoAs = Some 3
  /\ findDiffEnd threeAs twoAs = Some (2, 1)
  /\ calculateBoundaryScore twoAs threeAs 1 2 1 = Ok 9
  /\ calculateBoundaryScore twoAs threeAs 3 4 3 = Ok (-11)
  /\ getReplaceStep twoAs threeAs
     = Ok (Some (ReplaceStep 1 1 (mkSlice [txt "a"] 0 0))).
Proof.
  repeat (split; [reflexivity|]).
  apply (proj1 (getReplaceStep_ambiguous twoAs threeAs 3 2 1 9 (-11)
                  eq_refl eq_refl eq_refl eq_refl eq_refl)).
  reflexivity.
Defined.

(* ================================================================== *)
(** * Facts about transforms: steps are only ever appended *)

Section TransformFacts.
Context {E : Env}.

(** Applies steps in order to a document. *)
Fixpoint replay (l : list Step) (d : Node) : StepResult :=
  match l with
  | [] => StepOk d
  | s :: r =>
      match applyStep s d with
      | StepOk d' => replay r d'
      | StepFailed failed => StepFailed failed
      end
  end.

(** The steps of a transform, applied in order to the document it started
    from, yield its current document. *)
Definition Valid (tr : Transform) : Prop :=
  replay (trSteps tr) (trBefore tr) = StepOk (trDoc tr).

(** [Extends P tr tr']: [tr'] is [tr] with steps appended that all satisfy
    [P] and lead from the document of [tr] to the document of [tr']. *)
Definition Extends (P : Step -> Prop) (tr tr' : Transform) : Prop :=
  exists l, trSteps tr' = (trSteps tr ++ l)%list
            /\ trBefore tr' = trBefore tr
            /\ replay l (trDoc tr) = StepOk (trDoc tr')
            /\ Forall P l.

Definition Grows : Transform -> Transform -> Prop := Extends (fun _ => True).

Lemma replay_app (l1 l2 : list Step) (d : Node) :
  replay (l1 ++ l2) d
  = match replay l1 d with
    | StepOk d' => replay l2 d'
    | StepFailed failed => StepFailed failed
    end.
Proof.
  revert d; induction l1 as [|s r IH]; intros d; simpl; [reflexivity|].
  destruct (applyStep s d); [apply IH | reflexivity].
Qed.

Lemma Extends_refl (P : Step -> Prop) (tr : Transform) : Extends P tr tr.
Proof. exists []. rewrite app_nil_r. simpl. auto. Qed.

Lemma Extends_trans (P : Step -> Prop) (a b c : Transform) :
  Extends P a b -> Extends P b c -> Extends P a c.
Proof.
  intros (l1 & H1 & B1 & R1 & F1) (l2 & H2 & B2 & R2 & F2). exists (l1 ++ l2)%list.
  rewrite H2, H1, app_assoc, replay_app, R1. repeat split; try congruence.
  apply Forall_app; auto.
Qed.

Lemma Extends_Valid (P : Step -> Prop) (tr tr' : Transform) :
  Valid tr -> Extends P tr tr' -> Valid tr'.
Proof.
  unfold Valid. intros Hv (l & H1 & H2 & H3 & _).
  rewrite H1, H2, replay_app, Hv. exact H3.
Qed.

Lemma Grows_refl (tr : Transform) : Grows tr tr.
Proof. apply Extends_refl. Qed.

Lemma Grows_trans (a b c : Transform) : Grows a b -> Grows b c -> Grows a c.
Proof. apply Extends_trans. Qed.

Lemma Grows_same_steps (tr tr' : Transform) :
  Grows tr tr' -> trSteps tr' = trSteps tr -> tr' = tr.
Proof.
  intros (l & H & Hb & Hr & _) Hs. rewrite H in Hs.
  rewrite <- (app_nil_r (trSteps tr)) in Hs at 2.
  apply app_inv_head in Hs. subst l. simpl in Hr. injection Hr as Hd.
  rewrite app_nil_r in H. destruct tr, tr'; simpl in *; congruence.
Qed.

Lemma maybeStep_cases (tr : Transform) (s : Step) :
  (exists d, applyStep s (trDoc tr) = StepOk d
             /\ maybeStep tr s = (StepOk d, mkTransform (trBefore tr) d (trSteps tr ++ [s])))
  \/ (exists failed, applyStep s (trDoc tr) = StepFailed failed
                     /\ maybeStep tr s = (StepFailed failed, tr)).
Proof.
  unfold maybeStep. destruct (applyStep s (trDoc tr)) as [d|failed]; eauto.
Qed.

Lemma appended_Extends (P : Step -> Prop) (tr : Transform) (s : Step) (d : Node) :
  applyStep s (trDoc tr) = StepOk d -> P s ->
  Extends P tr (mkTransform (trBefore tr) d (trSteps tr ++ [s])).
Proof.
  intros Ha Hp. exists [s]. simpl. rewrite Ha. repeat split. auto.
Qed.

Lemma step_Extends (P : Step -> Prop) (tr tr' : Transform) (s : Step) :
  P s -> step tr s = Ok tr' -> Extends P tr tr'.
Proof.
  intros Hp. unfold step.
  destruct (maybeStep_cases tr s) as [(d & Ha & ->)|(f & _ & ->)]; [|discriminate].
  intros H; injection H as <-. apply appended_Extends; assumption.
Qed.

Lemma steps_Extends (P : Step -> Prop) (l : list Step) (tr tr' : Transform) :
  Forall P l -> steps tr l = Ok tr' -> Extends P tr tr'.
Proof.
  intros Hl; revert tr; induction Hl as [|s r Hs _ IH]; simpl; intros tr H.
  - injection H as <-. apply Extends_refl.
  - destruct (step tr s) as [tr1|] eqn:Hst; [|discriminate]. simpl in H.
    eapply Extends_trans; [eapply step_Extends; eauto | eauto].
Qed.

Lemma step_Grows (tr tr' : Transform) (s : Step) : step tr s = Ok tr' -> Grows tr tr'.
Proof. apply step_Extends. exact I. Qed.

Lemma replace_Grows (tr tr' : Transform) (from to : Z) (sl : Slice) :
  replace tr from to sl = Ok tr' -> Grows tr tr'.
Proof.
  unfold replace. destruct (fitReplace (trDoc tr) from to sl) as [[s|]|]; simpl;
    [apply step_Grows | | discriminate].
  intros H; injection H as <-. apply Grows_refl.
Qed.

Lemma setNodeMarkup_Grows (tr tr' : Transform) pos ty attrs marks :
  setNodeMarkup tr pos ty attrs marks = Ok tr' -> Grows tr tr'.
Proof.
  unfold setNodeMarkup. destruct (nodeAt (trDoc tr) pos) as [[n|]|]; simpl;
    try discriminate.
  destruct (isText n); [discriminate|].
  destruct (isLeaf n); [apply replace_Grows|].
  destruct (negb _); [discriminate|]. apply step_Grows.
Qed.

Lemma textLoop_Grows (marks : list Mark) (textDiffs : list Change) :
  forall offset tr tr', textLoop marks textDiffs offset tr = Ok tr' -> Grows tr tr'.
Proof.
  assert (Hlen : forall n textDiffs, (List.length textDiffs <= n)%nat ->
            forall offset tr tr',
              textLoop marks textDiffs offset tr = Ok tr' -> Grows tr tr');
    [|intros offset tr tr'; apply (Hlen (List.length textDiffs)), Nat.le_refl].
  clear textDiffs. induction n as [|n IH]; intros textDiffs Hn offset tr tr'.
  { destruct textDiffs; [|simpl in Hn; lia]. simpl.
    intros H; injection H as <-. apply Grows_refl. }
  destruct textDiffs as [|d rest]; simpl.
  - intros H; injection H as <-. apply Grows_refl.
  - simpl in Hn.
    assert (Hrest : forall o t t', textLoop marks rest o t = Ok t' -> Grows t t').
    { intros o t t'. apply IH. lia. }
    assert (Hrest' : forall x r', rest = x :: r' ->
              forall o t t', textLoop marks r' o t = Ok t' -> Grows t t').
    { intros x r' -> o t t'. apply IH. simpl in Hn. lia. }
    destruct (added d).
    + destruct (schemaText (value d) marks) as [node|]; [|discriminate]. simpl.
      destruct rest as [|nx rest'].
      * destruct (insert tr offset node) as [tr1|] eqn:H1; [|discriminate]. simpl.
        intros H. eapply Grows_trans; [eapply replace_Grows; exact H1 | eapply Hrest; exact H].
      * destruct (removed nx).
        -- destruct (replaceWith tr offset _ node) as [tr1|] eqn:H1; [|discriminate].
           simpl. intros H.
           eapply Grows_trans; [eapply replace_Grows; exact H1 | eapply (Hrest' _ _ eq_refl); exact H].
        -- destruct (insert tr offset node) as [tr1|] eqn:H1; [|discriminate]. simpl.
           intros H. eapply Grows_trans; [eapply replace_Grows; exact H1 | eapply Hrest; exact H].
    + destruct (removed d); [|apply Hrest].
      destruct rest as [|nx rest'].
      * destruct (delete tr offset _) as [tr1|] eqn:H1; [|discriminate]. simpl.
        intros H. eapply Grows_trans; [eapply replace_Grows; exact H1 | eapply Hrest; exact H].
      * destruct (added nx).
        -- destruct (schemaText (value nx) marks) as [node|]; [|discriminate]. simpl.
           destruct (replaceWith tr offset _ node) as [tr1|] eqn:H1; [|discriminate].
           simpl. intros H.
           eapply Grows_trans; [eapply replace_Grows; exact H1 | eapply (Hrest' _ _ eq_refl); exact H].
        -- destruct (delete tr offset _) as [tr1|] eqn:H1; [|discriminate]. simpl.
           intros H. eapply Grows_trans; [eapply replace_Grows; exact H1 | eapply Hrest; exact H].
  Unshelve. all: exact 0.
Qed.

Lemma applyStructuralDiff_Grows (tr tr' : Transform) (fromDoc toDoc : Node) :
  applyStructuralDiff tr fromDoc toDoc = Ok tr' -> Grows tr tr'.
Proof.
  unfold applyStructuralDiff. destruct (getReplaceStep fromDoc toDoc) as [[s|]|];
    simpl; try discriminate.
  - destruct (maybeStep_cases tr s) as [(d & Ha & ->)|(f & _ & ->)]; [|discriminate].
    intros H; injection H as <-. apply appended_Extends; [assumption | exact I].
  - intros H; injection H as <-. apply Grows_refl.
Qed.

Lemma applyDiff_Grows (w : bool) (tr tr' : Transform) (diff : DiffResult)
  (fromDoc toDoc : Node) :
  applyDiff w tr diff fromDoc toDoc = Ok tr' -> Grows tr tr'.
Proof.
  unfold applyDiff. destruct (dType diff).
  - unfold applyTextDiff. destruct (textDiffsOf w diff); [|discriminate]. simpl.
    destruct (textMarks tr diff); [|discriminate]. simpl. apply textLoop_Grows.
  - unfold applyMarkupDiff. destruct (dFromNode diff); [|discriminate].
    destruct (dToNode diff); [|discriminate]. apply setNodeMarkup_Grows.
  - apply applyStructuralDiff_Grows.
Qed.

End TransformFacts.

(* ================================================================== *)
(** * Facts about content diffing *)

(** Two child lists between which neither scan finds a difference. *)
Section Alike.
Variable inner : Node -> Fragment -> bool.

Definition alikePair (x y : Node) : bool :=
  sameMarkup x y && negb (textDiffers x y)
  && (negb (hasContent x y) || inner x (nodeContent y)).

Fixpoint alikeLoop (a b : Fragment) : bool :=
  match a, b with
  | [], [] => true
  | x :: ra, y :: rb => alikePair x y && alikeLoop ra rb
  | _, _ => false
  end.
End Alike.

Fixpoint alikeIn (a : Node) (b : Fragment) : bool :=
  match a with
  | Text _ _ => alikeLoop alikeIn [] b
  | Elem _ _ _ c => alikeLoop alikeIn c b
  end.

Lemma alikeIn_unfold (a : Node) (b : Fragment) :
  alikeIn a b = alikeLoop alikeIn (nodeContent a) b.
Proof. destruct a; reflexivity. Qed.

Lemma findDiffStartIn_unfold (a : Node) (b : Fragment) (pos : Z) :
  findDiffStartIn a b pos = findDiffStartLoop findDiffStartIn (nodeContent a) b pos.
Proof. destruct a; reflexivity. Qed.

Lemma findDiffEndIn_unfold (a : Node) (b : Fragment) (posA posB : Z) :
  findDiffEndIn a b posA posB = findDiffEndLoop findDiffEndIn (nodeContent a) b posA posB.
Proof. destruct a; reflexivity. Qed.

Lemma alikeLoop_Forall2 (inner : Node -> Fragment -> bool) (a b : Fragment) :
  alikeLoop inner a b = true <-> Forall2 (fun x y => alikePair inner x y = true) a b.
Proof.
  revert b; induction a as [|x ra IH]; intros [|y rb]; simpl.
  - split; auto.
  - split; [discriminate | intros H; inversion H].
  - split; [discriminate | intros H; inversion H].
  - rewrite andb_true_iff, IH. split.
    + intros [H1 H2]; constructor; assumption.
    + intros H; inversion H; subst; auto.
Qed.

Lemma Forall2_rev_intro {A B : Type} (R : A -> B -> Prop) (a : list A) (b : list B) :
  Forall2 R a b -> Forall2 R (rev a) (rev b).
Proof.
  induction 1 as [|x y ra rb Hxy _ IH]; simpl; [constructor|].
  apply Forall2_app; [assumption | repeat constructor; assumption].
Qed.

Lemma alikeLoop_rev (inner : Node -> Fragment -> bool) (a b : Fragment) :
  alikeLoop inner (rev a) (rev b) = true <-> alikeLoop inner a b = true.
Proof.
  rewrite !alikeLoop_Forall2. split; intros H.
  - apply Forall2_rev_intro in H. rewrite !rev_involutive in H. exact H.
  - apply Forall2_rev_intro, H.
Qed.

Lemma findDiffStartLoop_None (inner : Node -> Fragment -> Z -> option Z)
  (alikeInner : Node -> Fragment -> bool) (a : Fragment) :
  Forall (fun x => forall b pos, inner x b pos = None <-> alikeInner x b = true) a ->
  forall b pos,
    findDiffStartLoop inner a b pos = None <-> alikeLoop alikeInner a b = true.
Proof.
  induction 1 as [|x ra Hx _ IH]; intros [|y rb] pos; simpl;
    try (split; [discriminate | discriminate]); [tauto|].
  unfold alikePair.
  destruct (sameMarkup x y); simpl; [|split; discriminate].
  destruct (textDiffers x y); simpl; [split; discriminate|].
  destruct (hasContent x y); simpl.
  - specialize (Hx (nodeContent y) (pos + 1)).
    destruct (inner x (nodeContent y) (pos + 1)) as [r|].
    + destruct (alikeInner x (nodeContent y)); simpl; [|split; discriminate].
      destruct Hx as [_ Hx]. specialize (Hx eq_refl). discriminate.
    + destruct Hx as [Hx _]. rewrite (Hx eq_refl). simpl. apply IH.
  - apply IH.
Qed.

Lemma findDiffStartIn_None (a : Node) :
  forall b pos, findDiffStartIn a b pos = None <-> alikeIn a b = true.
Proof.
  induction a as [t m | ty at' m c IH] using Node_ind'; intros b pos;
    rewrite findDiffStartIn_unfold, alikeIn_unfold;
    apply findDiffStartLoop_None; simpl; auto.
Qed.

Lemma endFold_Done (inner : Node -> Fragment -> Z -> Z -> option (Z * Z))
  (l : Fragment) (r : option (Z * Z)) :
  fold_left (fun st x => endStep inner x st) l (Done r) = Done r.
Proof. induction l; simpl; auto. Qed.

Lemma endFold_None (inner : Node -> Fragment -> Z -> Z -> option (Z * Z))
  (alikeInner : Node -> Fragment -> bool) (ra : Fragment) :
  Forall (fun x => forall b pa pb, inner x b pa pb = None <-> alikeInner x b = true) ra ->
  forall rb pa pb,
    endResult (fold_left (fun st x => endStep inner x st) ra (Cont rb pa pb)) = None
    <-> alikeLoop alikeInner ra rb = true.
Proof.
  induction 1 as [|x r Hx _ IH]; intros [|y rb] pa pb; simpl;
    try rewrite endFold_Done; simpl;
    try (split; [discriminate | discriminate]); [tauto|].
  unfold alikePair.
  destruct (sameMarkup x y); simpl;
    [|rewrite endFold_Done; simpl; split; discriminate].
  destruct (textDiffers x y); simpl;
    [rewrite endFold_Done; simpl; split; discriminate|].
  destruct (hasContent x y); simpl.
  - specialize (Hx (nodeContent y) (pa - 1) (pb - 1)).
    destruct (inner x (nodeContent y) (pa - 1) (pb - 1)) as [res|].
    + rewrite endFold_Done; simpl.
      destruct (alikeInner x (nodeContent y)); simpl; [|split; discriminate].
      destruct Hx as [_ Hx]. specialize (Hx eq_refl). discriminate.
    + destruct Hx as [Hx _]. rewrite (Hx eq_refl). simpl. apply IH.
  - apply IH.
Qed.

Lemma findDiffEndLoop_None (inner : Node -> Fragment -> Z -> Z -> option (Z * Z))
  (alikeInner : Node -> Fragment -> bool) (a : Fragment) :
  Forall (fun x => forall b pa pb, inner x b pa pb = None <-> alikeInner x b = true) a ->
  forall b pa pb,
    findDiffEndLoop inner a b pa pb = None <-> alikeLoop alikeInner a b = true.
Proof.
  intros Ha b pa pb. unfold findDiffEndLoop, rev'. rewrite <- rev_alt.
  rewrite <- (rev_involutive a) at 1. rewrite fold_left_rev_right.
  rewrite (endFold_None inner alikeInner (rev a)); [|apply Forall_rev, Ha].
  apply alikeLoop_rev.
Qed.

Lemma findDiffEndIn_None (a : Node) :
  forall b pa pb, findDiffEndIn a b pa pb = None <-> alikeIn a b = true.
Proof.
  induction a as [t m | ty at' m c IH] using Node_ind'; intros b pa pb;
    rewrite findDiffEndIn_unfold, alikeIn_unfold;
    apply findDiffEndLoop_None; simpl; auto.
Qed.

(** A difference found from the start is found from the end as well. *)
Lemma findDiffEnd_of_start (a b : Node) (start : Z) :
  findDiffStart a b = Some start -> exists ends, findDiffEnd a b = Some ends.
Proof.
  unfold findDiffStart, findDiffEnd. intros Hs.
  destruct (findDiffEndIn a _ _ _) as [ends|] eqn:He; [eauto|].
  apply findDiffEndIn_None in He.
  apply (findDiffStartIn_None a (nodeContent b) 0) in He. congruence.
Qed.

(* ================================================================== *)
(** * The two bounded loops *)

Section LoopFacts.
Context {E : Env}.

Lemma structuralLoop_count (w : bool) (target : Node) (remaining : nat) :
  forall iterations tr cur n tr',
    structuralLoop w target remaining iterations tr cur = Ok (n, tr') ->
    (iterations <= n <= iterations + remaining)%nat.
Proof.
  induction remaining as [|r IH]; simpl; intros iterations tr cur n tr' H.
  - injection H as <- <-. lia.
  - destruct (structuralBody w tr cur target) as [[tr1|]|]; simpl in H;
      [|injection H as <- <-; lia|discriminate].
    apply IH in H. lia.
Qed.

Lemma allLoop_count (toDoc : Node) (remaining : nat) :
  forall iterations tr cur n tr',
    allLoop toDoc remaining iterations tr cur = Ok (n, tr') ->
    (iterations <= n <= iterations + remaining)%nat
    /\ List.length (trSteps tr') = (List.length (trSteps tr) + (n - iterations))%nat.
Proof.
  induction remaining as [|r IH]; simpl; intros iterations tr cur n tr' H.
  - injection H as <- <-. lia.
  - destruct (allBody tr cur toDoc) as [[tr1|]|] eqn:Hb; simpl in H;
      [|injection H as <- <-; lia|discriminate].
    apply IH in H. unfold allBody in Hb.
    destruct (getReplaceStep cur toDoc) as [[s|]|]; simpl in Hb; try discriminate.
    destruct (maybeStep_cases tr s) as [(d & _ & Hm)|(f & _ & Hm)];
      rewrite Hm in Hb; [|discriminate].
    injection Hb as <-. simpl in H. rewrite length_app in H. simpl in H. lia.
Qed.


Lemma all_cap (fromDoc toDoc : Node) (tr tr' : Transform) (n : nat) :
  allLoop toDoc MAX_ITERATIONS 0 tr fromDoc = Ok (n, tr') ->
  recreateAllSteps fromDoc toDoc tr
  = if (MAX_ITERATIONS <=? n)%nat then Throw maxIterationsAll else Ok tr'.
Proof. intros H. unfold recreateAllSteps. rewrite H. reflexivity. Qed.

End LoopFacts.

(* ================================================================== *)
(** * Claims about the driver, for every engine *)

Section DriverClaims.
Context {E : Env}.

Lemma replaceStepFailed_not_max (failed : string) :
  replaceStepFailed failed <> maxIterationsStructural
  /\ replaceStepFailed failed <> maxIterationsAll.
Proof. split; discriminate. Qed.

(** The body of the structural loop on a divergence classified as
    structural. *)
Lemma structuralBody_structural (w : bool) (tr : Transform) (cur target : Node)
  (start endTo endFrom : Z) (diff : DiffResult) :
  findDiffStart target cur = Some start ->
  findDiffEnd target cur = Some (endTo, endFrom) ->
  classifyDiff cur target start endFrom endTo = Ok diff ->
  dType diff = StructuralDiff ->
  structuralBody w tr cur target
  = (tr' <- applyStructuralDiff tr cur target ;; Ok (Some tr')).
Proof.
  intros Hs He Hc Ht. unfold structuralBody. rewrite Hs, He, Hc. cbn [bind].
  unfold applyDiff. rewrite Ht. reflexivity.
Qed.

(** C2, as the code has it: in detailed mode the replace step for a
    structural divergence is computed by [getReplaceStep] on the
    annotation-stripped copy of the current document and the
    annotation-stripped copy of the target, and is then applied to the
    annotated current document. *)
Theorem structural_step_from_stripped_docs (w : bool) (tr : Transform)
  (toDoc : Node) (start endTo endFrom : Z) (diff : DiffResult) :
  let cur := removeMarks (trDoc tr) in
  let target := removeMarks toDoc in
  findDiffStart target cur = Some start ->
  findDiffEnd target cur = Some (endTo, endFrom) ->
  classifyDiff cur target start endFrom endTo = Ok diff ->
  dType diff = StructuralDiff ->
  structuralBody w tr cur target
  = (st <- getReplaceStep cur target ;;
     match st with
     | Some s =>
         match applyStep s (trDoc tr) with
         | StepOk d => Ok (Some (mkTransform (trBefore tr) d (trSteps tr ++ [s])))
         | StepFailed failed => Throw (replaceStepFailed failed)
         end
     | None => Ok (Some tr)
     end).
Proof.
  intros cur target Hs He Hc Ht.
  rewrite (structuralBody_structural w tr cur target _ _ _ _ Hs He Hc Ht).
  unfold applyStructuralDiff.
  destruct (getReplaceStep cur target) as [[s|]|]; cbn [bind]; try reflexivity.
  unfold maybeStep. destruct (applyStep s (trDoc tr)); reflexivity.
Qed.

End DriverClaims.

(* ================================================================== *)
(** * The text run editor *)

Definition editMarks (e : TextEdit) : option (list Mark) :=
  match e with
  | EReplaceWith _ _ _ m => Some m
  | EInsert _ _ m => Some m
  | EDelete _ _ => None
  end.

Section TextClaims.
Context {E : Env}.

(** Performs one call of the text run editor. *)
Definition runEdit (tr : Transform) (e : TextEdit) : Result Transform :=
  match e with
  | EReplaceWith from to s m => textNode <- schemaText s m ;; replaceWith tr from to textNode
  | EInsert pos s m => textNode <- schemaText s m ;; insert tr pos textNode
  | EDelete from to => delete tr from to
  end.

Fixpoint runEdits (edits : list TextEdit) (tr : Transform) : Result Transform :=
  match edits with
  | [] => Ok tr
  | e :: r => tr' <- runEdit tr e ;; runEdits r tr'
  end.

Lemma bind_assoc {A B C : Type} (r : Result A) (f : A -> Result B) (g : B -> Result C) :
  bind (bind r f) g = bind r (fun a => bind (f a) g).
Proof. destruct r; reflexivity. Qed.

(** The loop of [applyTextDiff] performs exactly the calls listed by
    [textEdits]. *)
Lemma textLoop_runs_edits (marks : list Mark) (textDiffs : list Change) :
  forall offset tr,
    textLoop marks textDiffs offset tr = runEdits (textEdits marks textDiffs offset) tr.
Proof.
  assert (Hlen : forall n textDiffs, (List.length textDiffs <= n)%nat ->
            forall offset tr,
              textLoop marks textDiffs offset tr
              = runEdits (textEdits marks textDiffs offset) tr);
    [|intros offset tr; apply (Hlen (List.length textDiffs)), Nat.le_refl].
  clear textDiffs. induction n as [|n IH]; intros textDiffs Hn offset tr.
  { destruct textDiffs; [reflexivity | simpl in Hn; lia]. }
  destruct textDiffs as [|d rest]; [reflexivity|]. simpl in Hn.
  assert (Hrest : forall o t, textLoop marks rest o t
                              = runEdits (textEdits marks rest o) t).
  { intros; apply IH; lia. }
  cbn [textLoop textEdits].
  destruct (added d).
  - destruct rest as [|nx rest'].
    + cbn [runEdits runEdit]. rewrite bind_assoc. f_equal.
    + assert (Hrest' : forall o t, textLoop marks rest' o t
                                   = runEdits (textEdits marks rest' o) t).
      { intros; apply IH; simpl in Hn; lia. }
      destruct (removed nx); cbn [runEdits runEdit]; rewrite bind_assoc.
      * destruct (schemaText (value d) marks); cbn [bind]; [|reflexivity].
        destruct (replaceWith tr offset _ a); cbn [bind]; [apply Hrest'|reflexivity].
      * destruct (schemaText (value d) marks); cbn [bind]; [|reflexivity].
        destruct (insert tr offset a); cbn [bind]; [apply Hrest|reflexivity].
  - destruct (removed d); [|apply Hrest].
    destruct rest as [|nx rest'].
    + cbn [runEdits runEdit]. reflexivity.
    + assert (Hrest' : forall o t, textLoop marks rest' o t
                                   = runEdits (textEdits marks rest' o) t).
      { intros; apply IH; simpl in Hn; lia. }
      destruct (added nx); cbn [runEdits runEdit].
      * rewrite bind_assoc.
        destruct (schemaText (value nx) marks); cbn [bind]; [|reflexivity].
        destruct (replaceWith tr offset _ a); cbn [bind]; [apply Hrest'|reflexivity].
      * destruct (delete tr offset _); cbn [bind]; [apply Hrest|reflexivity].
Qed.

Lemma textEdits_marks (marks : list Mark) (textDiffs : list Change) :
  forall offset e m,
    In e (textEdits marks textDiffs offset) -> editMarks e = Some m -> m = marks.
Proof.
  assert (Hlen : forall n textDiffs, (List.length textDiffs <= n)%nat ->
            forall offset e m,
              In e (textEdits marks textDiffs offset) -> editMarks e = Some m -> m = marks);
    [|intros offset e m; apply (Hlen (List.length textDiffs)), Nat.le_refl].
  clear textDiffs. induction n as [|n IH]; intros textDiffs Hn offset e m.
  { destruct textDiffs; [intros [] | simpl in Hn; lia]. }
  destruct textDiffs as [|d rest]; [intros []|]. simpl in Hn.
  cbn [textEdits].
  assert (Hhead : forall e', editMarks e' = Some marks \/ editMarks e' = None ->
            forall l, (forall x, In x l -> editMarks x = Some m -> m = marks) ->
            In e (e' :: l) -> editMarks e = Some m -> m = marks).
  { intros e' He' l Hl [<-|Hin] Hm; [|eauto]. destruct He' as [He'|He']; congruence. }
  destruct (added d).
  - destruct rest as [|nx rest'].
    + apply Hhead; [left; reflexivity|]. intros x []. 
    + destruct (removed nx); (apply Hhead; [left; reflexivity|]);
        intros x; apply IH; simpl in *; lia.
  - destruct (removed d); [|apply IH; lia].
    destruct rest as [|nx rest'].
    + apply Hhead; [right; reflexivity|]. intros x [].
    + destruct (added nx).
      * apply Hhead; [left; reflexivity|]. intros x; apply IH; simpl in *; lia.
      * apply Hhead; [right; reflexivity|]. intros x; apply IH; simpl in *; lia.
Qed.

(** C4, as the code has it: the marks of inserted text are resolved once,
    before the first edit, from the currently transformed document at the
    position one past the start of the text run; every text node the text
    run editor builds for that divergence carries this one list. *)
Theorem inserted_text_marks_from_run_start (w : bool) (tr : Transform)
  (diff : DiffResult) (textDiffs : list Change) (rpos : ResolvedPos) :
  textDiffsOf w diff = Ok textDiffs ->
  resolve (trDoc tr) (dTextNodeStart diff + 1) = Ok rpos ->
  let edits := textEdits (marksAt rpos) textDiffs (dTextNodeStart diff) in
  applyTextDiff w tr diff = runEdits edits tr
  /\ (forall e m, In e edits -> editMarks e = Some m -> m = marksAt rpos).
Proof.
  intros Hd Hr edits. split.
  - unfold applyTextDiff, textMarks. rewrite Hd, Hr. cbn [bind].
    apply textLoop_runs_edits.
  - intros e m. apply textEdits_marks.
Qed.

(** The merging rule: an added segment directly followed by a removed one,
    or a removed segment directly followed by an added one, becomes a single
    [replaceWith] that deletes the removed segment's length at the current
    offset and inserts the added text there; the walk continues behind the
    inserted text. *)
Lemma textEdits_merges_pairs (marks : list Mark) (x y : Change) (rest : list Change)
  (offset : Z) :
  (added x = true -> removed y = true ->
   textEdits marks (x :: y :: rest) offset
   = EReplaceWith offset (offset + strlen (value y)) (value x) marks
     :: textEdits marks rest (offset + strlen (value x)))
  /\ (added x = false -> removed x = true -> added y = true ->
      textEdits marks (x :: y :: rest) offset
      = EReplaceWith offset (offset + strlen (value x)) (value y) marks
        :: textEdits marks rest (offset + strlen (value y))).
Proof.
  split.
  - intros Ha Hr. cbn [textEdits]. rewrite Ha, Hr. reflexivity.
  - intros Ha Hr Hy. cbn [textEdits]. rewrite Ha, Hr, Hy. reflexivity.
Qed.

End TextClaims.

(* ================================================================== *)
(** * Stalled iterations *)

Section StallClaims.
Context {E : Env}.

(** The states the structural loop passes through when started on [tr0]:
    the iterations left, the iterations done and the transform.  The
    current document of a state is the stripped document of its
    transform. *)
Inductive Reaches (w : bool) (target : Node) (tr0 : Transform)
  : nat -> nat -> Transform -> Prop :=
| reaches_start : Reaches w target tr0 MAX_ITERATIONS 0 tr0
| reaches_next (remaining iterations : nat) (tr tr' : Transform) :
    Reaches w target tr0 (S remaining) iterations tr ->
    structuralBody w tr (removeMarks (trDoc tr)) target = Ok (Some tr') ->
    Reaches w target tr0 remaining (S iterations) tr'.

Lemma reaches_result (w : bool) (target : Node) (tr0 : Transform)
  (remaining iterations : nat) (tr : Transform) :
  Reaches w target tr0 remaining iterations tr ->
  structuralLoop w target MAX_ITERATIONS 0 tr0 (removeMarks (trDoc tr0))
  = structuralLoop w target remaining iterations tr (removeMarks (trDoc tr)).
Proof.
  induction 1 as [|remaining iterations tr tr' _ IH Hb]; [reflexivity|].
  rewrite IH. cbn [structuralLoop]. rewrite Hb. reflexivity.
Qed.

Lemma reaches_count (w : bool) (target : Node) (tr0 : Transform)
  (remaining iterations : nat) (tr : Transform) :
  Reaches w target tr0 remaining iterations tr ->
  (remaining + iterations = MAX_ITERATIONS)%nat.
Proof. induction 1; lia. Qed.

Lemma stalled_loop (w : bool) (target : Node) (tr : Transform) (cur : Node) :
  structuralBody w tr cur target = Ok (Some tr) ->
  removeMarks (trDoc tr) = cur ->
  forall remaining iterations,
    structuralLoop w target remaining iterations tr cur
    = Ok ((iterations + remaining)%nat, tr).
Proof.
  intros Hb Hc. induction remaining as [|r IH]; intros iterations; cbn [structuralLoop].
  - rewrite Nat.add_0_r. reflexivity.
  - rewrite Hb. cbn [bind]. rewrite Hc, IH. do 2 f_equal. lia.
Qed.

Lemma structuralBody_Grows (w : bool) (tr tr' : Transform) (cur target : Node) :
  structuralBody w tr cur target = Ok (Some tr') -> Grows tr tr'.
Proof.
  unfold structuralBody.
  destruct (findDiffStart target cur); [|discriminate].
  destruct (findDiffEnd target cur) as [[endTo endFrom]|]; [|discriminate].
  destruct (classifyDiff cur target _ _ _) as [diff|]; [|discriminate]. cbn [bind].
  destruct (applyDiff w tr diff cur target) as [tr1|] eqn:Ha; [|discriminate].
  cbn [bind]. intros H; injection H as <-. eapply applyDiff_Grows; eauto.
Qed.

Lemma structuralBody_no_silent_break (w : bool) (tr : Transform) (cur target : Node)
  (start : Z) :
  findDiffStart target cur = Some start ->
  structuralBody w tr cur target <> Ok None.
Proof.
  intros Hs. unfold structuralBody. rewrite Hs.
  destruct (findDiffEnd_of_start _ _ _ Hs) as [[endTo endFrom] ->].
  destruct (classifyDiff cur target _ _ _) as [diff|]; cbn [bind]; [|discriminate].
  destruct (applyDiff w tr diff cur target); cbn [bind]; discriminate.
Qed.

End StallClaims.

(* ================================================================== *)
(** * The claims on concrete documents, with the token engine *)

Definition oneParagraph : Node := doc [paragraph [txt "a"]].
Definition withStrongParagraph : Node :=
  doc [paragraph [txt "a"]; paragraph [Text "b" [strong]]].

Definition strongAb : Node := doc [paragraph [Text "ab" [strong]; txt "cd"]].
Definition strongAbX : Node := doc [paragraph [Text "ab" [strong]; txt "cXd"]].

Definition manyParagraphs (n : nat) : Node := doc (repeat (paragraph []) n).
Definition manyHeadings (n : nat) : Node := doc (repeat (Elem headingT [] [] []) n).

(** A text-diff primitive that reports no segment at all. *)
Definition stallEnv : Env := {|
  applyStep := tokenApplyStep;
  fitReplace := tokenFitReplace;
  validContent := fun _ _ => true;
  addMarkSteps := tokenAddMarkSteps;
  removeMarkSteps := tokenRemoveMarkSteps;
  diffChars := fun _ _ => [];
  diffWordsWithSpace := fun _ _ => [];
  removeMarks := stripMarks;
  simplifyTransform := keepSteps
|}.

Lemma structural_step_from_stripped_docs_witness :
  @structuralBody tokenEnv false (newTransform oneParagraph)
    (stripMarks oneParagraph) (stripMarks withStrongParagraph)
  = Ok (Some (mkTransform oneParagraph
                (doc [paragraph [txt "a"]; paragraph [txt "b"]])
                [ReplaceStep 3 3 (mkSlice [paragraph [txt "b"]] 0 0)])).
Proof.
  exact (@structural_step_from_stripped_docs tokenEnv false (newTransform oneParagraph)
           withStrongParagraph 3 5 2
           (mkDiff StructuralDiff 3 2 5 None (Some (paragraph [txt "b"])) 3)
           eq_refl eq_refl eq_refl eq_refl).
Defined.

(** C2, counterexample: the divergence between a one-paragraph document and
    the same document followed by a paragraph of bold text is structural;
    the step the loop applies inserts the paragraph without the mark, as
    computed on the stripped copies, whereas the step computed on the two
    full documents inserts it with the mark. *)
Lemma structural_step_not_from_full_docs :
  classifyDiff (stripMarks oneParagraph) (stripMarks withStrongParagraph) 3 2 5
  = Ok (mkDiff StructuralDiff 3 2 5 None (Some (paragraph [txt "b"])) 3)
  /\ getReplaceStep oneParagraph withStrongParagraph
     = Ok (Some (ReplaceStep 3 3 (mkSlice [paragraph [Text "b" [strong]]] 0 0)))
  /\ @structuralBody tokenEnv false (newTransform oneParagraph)
       (stripMarks oneParagraph) (stripMarks withStrongParagraph)
     <> (tr' <- @applyStructuralDiff tokenEnv (newTransform oneParagraph)
                  oneParagraph withStrongParagraph ;;
         Ok (Some tr')).
Proof.
  split; [reflexivity|]. split; [reflexivity|].
  intros H. vm_compute in H. discriminate H.
Qed.

Lemma inserted_text_marks_from_run_start_witness :
  @applyTextDiff tokenEnv false (newTransform strongAb)
    (mkDiff TextDiff 4 4 5 (Some (txt "abcd")) (Some (txt "abcXd")) 1)
  = @runEdits tokenEnv [EInsert 4 "X" [strong]] (newTransform strongAb).
Proof.
  refine (proj1 (@inserted_text_marks_from_run_start tokenEnv false (newTransform strongAb)
                   (mkDiff TextDiff 4 4 5 (Some (txt "abcd")) (Some (txt "abcXd")) 1)
                   (myersDiffChars "abcd" "abcXd") _ eq_refl eq_refl)).
Defined.

(** C4, counterexample: the text run starts with bold "ab" and goes on
    with plain "cd"; an "X" is inserted between "c" and "d".  The inserted
    text is bold -- the marks in force one past the start of the run --
    although no mark is in force at the insertion point or right after
    it. *)
Lemma inserted_text_marks_not_from_insertion_point :
  classifyDiff (stripMarks strongAb) (stripMarks strongAbX) 4 4 5
  = Ok (mkDiff TextDiff 4 4 5 (Some (txt "abcd")) (Some (txt "abcXd")) 1)
  /\ (rp <- resolve strongAb (1 + 1) ;; Ok (marksAt rp)) = Ok [strong]
  /\ textEdits [strong] (myersDiffChars "abcd" "abcXd") 1 = [EInsert 4 "X" [strong]]
  /\ (rp <- resolve strongAb 4 ;; Ok (marksAt rp)) = Ok []
  /\ (rp <- resolve strongAb (4 + 1) ;; Ok (marksAt rp)) = Ok []
  /\ (rp <- resolve strongAb (4 + 1) ;; Ok (marksAt rp)) <> Ok [strong]
  /\ option_map trSteps
       (match @applyTextDiff tokenEnv false (newTransform strongAb)
                (mkDiff TextDiff 4 4 5 (Some (txt "abcd")) (Some (txt "abcXd")) 1)
        with Ok tr => Some tr | Throw _ => None end)
     = Some [ReplaceStep 4 4 (mkSlice [Text "X" [strong]] 0 0)].
Proof.
  repeat (split; [reflexivity|]). split; [|reflexivity].
  intros H. vm_compute in H. discriminate H.
Qed.

Definition detailedChars : Options := mkOptions (Some true) (Some false) (Some false).

Definition stepsOf (r : Result Transform) : option (list Step) :=
  match r with
  | Ok tr => Some (trSteps tr)
  | Throw _ => None
  end.

(** The engine on the other examples of the specification: a change of
    markup is one step around the content of the node; a change of marks is
    a removal followed by an addition over the range of the text; two
    paragraphs joined into one is a single deletion across their border. *)
Example markup_only_example :
  stepsOf (@recreateTransform tokenEnv (doc [paragraph [txt "x"]]) (doc [heading [txt "x"]])
             detailedChars)
  = Some [ReplaceAroundStep 0 3 1 2
            (mkSlice [Elem headingT [("level", "1")] [] []] 0 0) 1]
  /\ @recreateTransform tokenEnv (doc [paragraph [txt "x"]]) (doc [heading [txt "x"]])
       detailedChars
     = Ok (mkTransform (doc [paragraph [txt "x"]]) (doc [heading [txt "x"]])
             [ReplaceAroundStep 0 3 1 2
                (mkSlice [Elem headingT [("level", "1")] [] []] 0 0) 1]).
Proof. split; reflexivity. Qed.

Example marks_only_example :
  @recreateTransform tokenEnv (doc [paragraph [Text "Hello" [em]]])
    (doc [paragraph [Text "Hello" [strong]]]) detailedChars
  = Ok (mkTransform (doc [paragraph [Text "Hello" [em]]])
          (doc [paragraph [Text "Hello" [strong]]])
          [RemoveMarkStep 1 6 em; AddMarkStep 1 6 strong]).
Proof. reflexivity. Qed.

Example join_paragraphs_example :
  @recreateTransform tokenEnv (doc [paragraph [txt "a"]; paragraph [txt "b"]])
    (doc [paragraph [txt "ab"]]) detailedChars
  = Ok (mkTransform (doc [paragraph [txt "a"]; paragraph [txt "b"]])
          (doc [paragraph [txt "ab"]])
          [ReplaceStep 2 4 emptySlice]).
Proof. reflexivity. Qed.

(** C8, as the code has it: a pair of an added and a removed segment that
    follow each other directly, in either order, becomes one [replaceWith];
    for "Hello world" against "Hello there" in character mode the string
    diff keeps the "r" the two words share, so the text run editor emits
    two replace-range edits: "wo" by "the" at the offset after "Hello ",
    and "ld" by "e" behind the kept "r". *)
Theorem text_pairs_become_one_replace :
  (forall marks x y rest offset,
     (added x = true -> removed y = true ->
      textEdits marks (x :: y :: rest) offset
      = EReplaceWith offset (offset + strlen (value y)) (value x) marks
        :: textEdits marks rest (offset + strlen (value x)))
     /\ (added x = false -> removed x = true -> added y = true ->
         textEdits marks (x :: y :: rest) offset
         = EReplaceWith offset (offset + strlen (value x)) (value y) marks
           :: textEdits marks rest (offset + strlen (value y))))
  /\ myersDiffChars "Hello world" "Hello there"
     = [mkChange "Hello " false false; mkChange "wo" false true;
        mkChange "the" true false; mkChange "r" false false;
        mkChange "ld" false true; mkChange "e" true false]
  /\ textEdits [] (myersDiffChars "Hello world" "Hello there") 1
     = [EReplaceWith 7 9 "the" []; EReplaceWith 11 13 "e" []]
  /\ stepsOf (@recreateTransform tokenEnv helloWorld helloThere detailedChars)
     = Some [ReplaceStep 7 9 (mkSlice [txt "the"] 0 0);
             ReplaceStep 11 13 (mkSlice [txt "e"] 0 0)].
Proof.
  split; [intros; apply textEdits_merges_pairs|].
  repeat split; reflexivity.
Qed.

Lemma text_pairs_become_one_replace_witness :
  textEdits [] [mkChange "wo" false true; mkChange "the" true false] 7
  = [EReplaceWith 7 9 "the" []].
Proof.
  exact (proj2 (proj1 text_pairs_become_one_replace []
                  (mkChange "wo" false true) (mkChange "the" true false) [] 7)
           eq_refl eq_refl eq_refl).
Defined.

(** C8, counterexample: the example of the claim does not yield the single
    edit that replaces "world" by "there". *)
Lemma hello_example_is_two_edits :
  textEdits [] (myersDiffChars "Hello world" "Hello there") 1
  <> [EReplaceWith 7 12 "there" []]
  /\ stepsOf (@recreateTransform tokenEnv helloWorld helloThere detailedChars)
     <> Some [ReplaceStep 7 12 (mkSlice [txt "there"] 0 0)].
Proof.
  split; intros H; vm_compute in H; discriminate H.
Qed.

(** A thousand paragraphs against a thousand headings: every iteration of
    the structural loop changes the markup of one node; after the 1000th
    the document is the target. *)
Lemma thousand_markup_changes :
  exists tr',
    @structuralLoop tokenEnv false (stripMarks (manyHeadings 1000)) MAX_ITERATIONS 0
      (newTransform (manyParagraphs 1000)) (stripMarks (manyParagraphs 1000))
    = Ok (1000%nat, tr')
    /\ trDoc tr' = manyHeadings 1000
    /\ List.length (trSteps tr') = 1000%nat.
Proof.
  assert (H : match @structuralLoop tokenEnv false (stripMarks (manyHeadings 1000))
                      MAX_ITERATIONS 0 (newTransform (manyParagraphs 1000))
                      (stripMarks (manyParagraphs 1000)) with
              | Ok (k, tr) =>
                  Nat.eqb k 1000 && node_eqb (trDoc tr) (manyHeadings 1000)
                  && Nat.eqb (List.length (trSteps tr)) 1000
              | Throw _ => false
              end = true).
  { vm_compute. reflexivity. }
  destruct (@structuralLoop tokenEnv false _ _ _ _ _) as [[k tr]|]; [|discriminate H].
  apply andb_true_iff in H as [H H3]. apply andb_true_iff in H as [H1 H2].
  apply Nat.eqb_eq in H1, H3. apply node_eqb_eq in H2. subst k. exists tr. auto.
Qed.

(* ================================================================== *)
(** * Documents without a divergence *)

(** A document is well formed when it has no empty text leaf. *)
Fixpoint wfNode (n : Node) : bool :=
  match n with
  | Text t _ => negb (strlen t =? 0)
  | Elem _ _ _ c => forallb wfNode c
  end.

Lemma sumZ_nonneg (l : list Z) : Forall (fun z => 0 <= z) l -> 0 <= sumZ l.
Proof. induction 1; simpl; lia. Qed.

Lemma nodeSize_nonneg (n : Node) : 0 <= nodeSize n.
Proof.
  induction n as [t m | ty a m c IH] using Node_ind'; cbn [nodeSize].
  - unfold strlen. lia.
  - destruct (isLeafType ty); [lia|].
    assert (0 <= sumZ (map nodeSize c)); [|lia].
    apply sumZ_nonneg. rewrite Forall_map. exact IH.
Qed.

Lemma fragSize_nonneg (f : Fragment) : 0 <= fragSize f.
Proof.
  apply sumZ_nonneg. rewrite Forall_map. apply Forall_forall.
  intros; apply nodeSize_nonneg.
Qed.

Lemma fragSize_cons (n : Node) (f : Fragment) :
  fragSize (n :: f) = nodeSize n + fragSize f.
Proof. reflexivity. Qed.

Lemma wfNode_size_pos (n : Node) : wfNode n = true -> 0 < nodeSize n.
Proof.
  destruct n as [t m | ty a m c]; cbn [nodeSize wfNode].
  - rewrite negb_true_iff, Z.eqb_neq. unfold strlen. lia.
  - intros _. destruct (isLeafType ty); [lia|].
    pose proof (fragSize_nonneg c). unfold fragSize in *. lia.
Qed.

Lemma wf_fragSize_zero (f : Fragment) :
  forallb wfNode f = true -> fragSize f = 0 -> f = [].
Proof.
  destruct f as [|n r]; [reflexivity|]. simpl. rewrite andb_true_iff.
  intros [Hn _] Hs. apply wfNode_size_pos in Hn.
  rewrite fragSize_cons in Hs. pose proof (fragSize_nonneg r). lia.
Qed.

Lemma alikeLoop_eq (a : Fragment) :
  Forall (fun x => forall b, forallb wfNode (nodeContent x) = true ->
                             forallb wfNode b = true ->
                             alikeIn x b = true -> nodeContent x = b) a ->
  forall b, forallb wfNode a = true -> forallb wfNode b = true ->
            alikeLoop alikeIn a b = true -> a = b.
Proof.
  induction 1 as [|x ra Hx _ IH]; intros [|y rb]; simpl; try discriminate; [reflexivity|].
  rewrite !andb_true_iff. intros [Hwx Hwa] [Hwy Hwb] [Hp Hl].
  f_equal; [|apply IH; assumption].
  unfold alikePair in Hp. rewrite !andb_true_iff in Hp. destruct Hp as [[Hm Ht] Hc].
  apply sameMarkup_iff in Hm. destruct Hm as (Hty & Hat & Hmk).
  apply negb_true_iff in Ht.
  destruct x as [tx mx | tyx ax mx cx], y as [ty' my | tyy ay my cy]; simpl in *;
    try contradiction.
  - unfold textDiffers in Ht. simpl in Ht. apply negb_false_iff, String.eqb_eq in Ht.
    congruence.
  - subst. f_equal. apply orb_true_iff in Hc as [Hc|Hc].
    + unfold hasContent in Hc. simpl in Hc.
      apply negb_true_iff, orb_false_iff in Hc as [H1 H2].
      apply negb_false_iff, Z.eqb_eq in H1, H2.
      rewrite (wf_fragSize_zero cx), (wf_fragSize_zero cy); auto.
    + apply (Hx cy); assumption.
Qed.

Lemma alikeIn_eq (a : Node) :
  forall b, forallb wfNode (nodeContent a) = true -> forallb wfNode b = true ->
            alikeIn a b = true -> nodeContent a = b.
Proof.
  induction a as [t m | ty at' m c IH] using Node_ind'; intros b Ha Hb Hl;
    rewrite alikeIn_unfold in Hl; simpl in *.
  - destruct b; [reflexivity | discriminate].
  - eapply alikeLoop_eq; eauto.
Qed.

Lemma wfNode_content (n : Node) : wfNode n = true -> forallb wfNode (nodeContent n) = true.
Proof. destruct n; simpl; auto. Qed.

(** Two well-formed documents between which [findDiffStart] finds no
    position have the same content. *)
Lemma no_divergence_eq (a b : Node) :
  wfNode a = true -> wfNode b = true ->
  findDiffStart a b = None -> nodeContent a = nodeContent b.
Proof.
  intros Ha Hb H. unfold findDiffStart in H. apply findDiffStartIn_None in H.
  apply alikeIn_eq; auto using wfNode_content.
Qed.

(** A document has no divergence from itself. *)
Lemma alikeIn_refl (a : Node) : alikeIn a (nodeContent a) = true.
Proof.
  induction a as [t m | ty at' m c IH] using Node_ind'; [reflexivity|].
  rewrite alikeIn_unfold. simpl. induction IH as [|x r Hx _ IHr]; [reflexivity|].
  simpl. rewrite IHr, andb_true_r. unfold alikePair.
  assert (Hm : sameMarkup x x = true) by (apply sameMarkup_iff; destruct x; repeat split).
  assert (Ht : textDiffers x x = false).
  { unfold textDiffers. rewrite String.eqb_refl. apply andb_false_r. }
  rewrite Hm, Ht, Hx. simpl. apply orb_true_r.
Qed.

Lemma findDiffStart_refl (a : Node) : findDiffStart a a = None.
Proof. unfold findDiffStart. apply findDiffStartIn_None, alikeIn_refl. Qed.

Lemma getReplaceStep_None_iff (fromDoc toDoc : Node) :
  getReplaceStep fromDoc toDoc = Ok None <-> findDiffStart toDoc fromDoc = None.
Proof.
  unfold getReplaceStep. destruct (findDiffStart toDoc fromDoc) as [start|].
  - split; [|discriminate].
    destruct (findDiffEnd toDoc fromDoc) as [[endA endB]|]; [|discriminate].
    destruct (chooseWindow _ _ _ _ _) as [[[s' a'] b']|]; cbn [bind]; [|discriminate].
    destruct (slice toDoc s' a'); cbn [bind]; discriminate.
  - tauto.
Qed.

(* ================================================================== *)
(** * Round trip *)

Definition isMarkStep (s : Step) : Prop :=
  match s with
  | AddMarkStep _ _ _ => True
  | RemoveMarkStep _ _ _ => True
  | _ => False
  end.

(** A property that every call of the callback keeps is kept by the
    traversal. *)
Section TraversalInvariant.
Context {S : Type}.
Variable f : Node -> Z -> S -> Result (bool * S).
Variable Inv : S -> Prop.
Hypothesis f_keeps : forall n pos s b s', Inv s -> f n pos s = Ok (b, s') -> Inv s'.

Lemma nodesBetweenLoop_keeps (inner : Node -> Z -> Z -> Z -> S -> Result S)
  (l : Fragment) :
  Forall (fun x => forall from to start s s',
            Inv s -> inner x from to start s = Ok s' -> Inv s') l ->
  forall from to nodeStart pos s s',
    Inv s -> nodesBetweenLoop f inner l from to nodeStart pos s = Ok s' -> Inv s'.
Proof.
  induction 1 as [|x r Hx _ IH]; intros from to nodeStart pos s s' Hs; simpl.
  - destruct (pos <? to); [discriminate|]. intros H; injection H as <-; assumption.
  - destruct (pos <? to); [|intros H; injection H as <-; assumption].
    destruct (from <? pos + nodeSize x).
    + destruct (f x (nodeStart + pos) s) as [[b s1]|] eqn:Hf; [|discriminate].
      cbn [bind]. pose proof (f_keeps _ _ _ _ _ Hs Hf) as Hs1.
      destruct (b && negb (fragSize (nodeContent x) =? 0)).
      * destruct (inner x _ _ _ s1) as [s2|] eqn:Hi; [|discriminate]. cbn [bind].
        apply IH. eapply Hx; eauto.
      * cbn [bind]. apply IH. assumption.
    + cbn [bind]. apply IH. assumption.
Qed.

Lemma nodesBetween_keeps (n : Node) :
  forall from to start s s',
    Inv s -> nodesBetween f n from to start s = Ok s' -> Inv s'.
Proof.
  induction n as [t m | ty a m c IH] using Node_ind'; intros from to start s s' Hs;
    cbn [nodesBetween]; apply nodesBetweenLoop_keeps; auto.
Qed.

End TraversalInvariant.

Section RoundTrip.
Context {E : Env}.

(** What the engine has to provide for [tr.addMark] and [tr.removeMark]:
    they build add/remove-annotation steps only. *)
Definition MarkStepsOnly : Prop :=
  forall d from to m,
    Forall isMarkStep (addMarkSteps d from to m)
    /\ Forall isMarkStep (removeMarkSteps d from to m).

(** Modelled from the spec: what [simplifyTransform]
    ([simplifyTransform.ts]) provides.  It maps a transform to a transform
    from the same document to the same resulting document, merging or
    cancelling steps, so it has no more steps than it was given. *)
Definition SimplifierContract : Prop :=
  forall tr, Valid tr ->
    exists r, simplifyTransform tr = Ok r
              /\ forall tr', r = Some tr' ->
                   trBefore tr' = trBefore tr /\ trDoc tr' = trDoc tr /\ Valid tr'
                   /\ (List.length (trSteps tr') <= List.length (trSteps tr))%nat.

Lemma structuralLoop_exit (w : bool) (target : Node) (remaining : nat) :
  forall iterations tr n tr',
    structuralLoop w target remaining iterations tr (removeMarks (trDoc tr)) = Ok (n, tr') ->
    Grows tr tr'
    /\ ((n < iterations + remaining)%nat ->
        findDiffStart target (removeMarks (trDoc tr')) = None).
Proof.
  induction remaining as [|r IH]; cbn [structuralLoop]; intros iterations tr n tr' H.
  - injection H as <- <-. split; [apply Grows_refl | lia].
  - destruct (structuralBody w tr _ target) as [[tr1|]|] eqn:Hb; cbn [bind] in H;
      [| |discriminate].
    + apply IH in H as [Hg Hn]. split.
      * eapply Grows_trans; [eapply structuralBody_Grows; eauto | exact Hg].
      * intros; apply Hn; lia.
    + injection H as <- <-. split; [apply Grows_refl|]. intros _.
      destruct (findDiffStart target (removeMarks (trDoc tr))) as [start|] eqn:Hs;
        [|reflexivity].
      exfalso. eapply structuralBody_no_silent_break; eauto.
Qed.

Lemma allBody_Grows (tr tr' : Transform) (cur toDoc : Node) :
  allBody tr cur toDoc = Ok (Some tr') -> Grows tr tr'.
Proof.
  unfold allBody. destruct (getReplaceStep cur toDoc) as [[s|]|]; cbn [bind];
    try discriminate.
  destruct (maybeStep_cases tr s) as [(d & Ha & ->)|(f & _ & ->)]; [|discriminate].
  intros H; injection H as <-. apply appended_Extends; [assumption | exact I].
Qed.

Lemma allLoop_exit (toDoc : Node) (remaining : nat) :
  forall iterations tr n tr',
    allLoop toDoc remaining iterations tr (trDoc tr) = Ok (n, tr') ->
    Grows tr tr'
    /\ ((n < iterations + remaining)%nat -> findDiffStart toDoc (trDoc tr') = None).
Proof.
  induction remaining as [|r IH]; cbn [allLoop]; intros iterations tr n tr' H.
  - injection H as <- <-. split; [apply Grows_refl | lia].
  - destruct (allBody tr (trDoc tr) toDoc) as [[tr1|]|] eqn:Hb; cbn [bind] in H;
      [| |discriminate].
    + apply IH in H as [Hg Hn]. split.
      * eapply Grows_trans; [eapply allBody_Grows; eauto | exact Hg].
      * intros; apply Hn; lia.
    + injection H as <- <-. split; [apply Grows_refl|]. intros _.
      apply getReplaceStep_None_iff. unfold allBody in Hb.
      destruct (getReplaceStep (trDoc tr) toDoc) as [[s|]|]; cbn [bind] in Hb;
        try discriminate; [|reflexivity].
      destruct (maybeStep tr s) as [[d|f] t]; discriminate.
Qed.

Section MarkPhase.
Hypothesis marks_only : MarkStepsOnly.

Lemma forEachMark_keeps (g : Mark -> Transform -> Result Transform) (base : Transform) :
  (forall m t t', g m t = Ok t' -> Extends isMarkStep t t') ->
  forall marks t t',
    Extends isMarkStep base t -> forEachMark g marks t = Ok t' ->
    Extends isMarkStep base t'.
Proof.
  intros Hg marks; induction marks as [|m r IH]; simpl; intros t t' Ht H.
  - injection H as <-. assumption.
  - destruct (g m t) as [t1|] eqn:Hm; [|discriminate]. cbn [bind] in H.
    eapply IH; [|exact H]. eapply Extends_trans; eauto.
Qed.

Lemma reconcileNode_keeps (base : Transform) (tNode : Node) (tPos : Z)
  (fNode : Node) (fPos : Z) (t : Transform) (b : bool) (t' : Transform) :
  Extends isMarkStep base t ->
  reconcileNode tNode tPos fNode fPos t = Ok (b, t') ->
  Extends isMarkStep base t'.
Proof.
  intros Ht. unfold reconcileNode.
  destruct (negb (isInline fNode)); [intros H; injection H as <- <-; assumption|].
  destruct (forEachMark _ (nodeMarks fNode) t) as [t1|] eqn:H1; [|discriminate].
  cbn [bind].
  destruct (forEachMark _ (nodeMarks tNode) t1) as [t2|] eqn:H2; [|discriminate].
  cbn [bind]. intros H; injection H as <- <-.
  eapply forEachMark_keeps; [| |exact H2].
  - intros m t0 t0'; cbv beta. destruct (negb (isInSet m _)).
    + apply steps_Extends, marks_only.
    + intros H; injection H as <-; apply Extends_refl.
  - eapply forEachMark_keeps; [| exact Ht | exact H1].
    intros m t0 t0'; cbv beta. destruct (negb (isInSet m _)).
    + apply steps_Extends, marks_only.
    + intros H; injection H as <-; apply Extends_refl.
Qed.

Lemma recreateChangeMarkSteps_Extends (toDoc : Node) (tr tr' : Transform) :
  recreateChangeMarkSteps toDoc tr = Ok tr' -> Extends isMarkStep tr tr'.
Proof.
  unfold recreateChangeMarkSteps, descendants.
  apply (nodesBetween_keeps reconcileTarget (Extends isMarkStep tr));
    [|apply Extends_refl].
  intros n pos s b s' Hs. unfold reconcileTarget.
  destruct (negb (isInline n)); [intros H; injection H as <- <-; assumption|].
  destruct (nodesBetween _ (trDoc s) pos _ 0 s) as [s1|] eqn:Hn; [|discriminate].
  cbn [bind]. intros H; injection H as <- <-.
  eapply (nodesBetween_keeps (reconcileNode n pos) (Extends isMarkStep tr));
    [|exact Hs|exact Hn].
  intros n' pos' t b' t'. apply reconcileNode_keeps.
Qed.

End MarkPhase.
End RoundTrip.

Section RoundTripClaim.
Context {E : Env}.


End RoundTripClaim.

(** The token engine and the step-keeping simplifier meet the two
    contracts. *)
Lemma tokenEnv_marks_only : @MarkStepsOnly tokenEnv.
Proof.
  intros d from to m. split; simpl.
  - unfold tokenAddMarkSteps.
    destruct (nodesBetween _ d from to 0 _) as [[removed' added']|]; [|constructor].
    apply Forall_app; split; apply Forall_map, Forall_forall;
      intros [[f t] mk] _; exact I.
  - unfold tokenRemoveMarkSteps.
    destruct (nodesBetween _ d from to 0 _) as [[matched n]|]; [|constructor].
    apply Forall_map, Forall_forall. intros [[[f t] mk] k] _. exact I.
Qed.

Lemma tokenEnv_simplifier : @SimplifierContract tokenEnv.
Proof.
  intros tr Hv. simpl. unfold keepSteps. destruct (trSteps tr) eqn:Hs.
  - exists None. split; [reflexivity | discriminate].
  - exists (Some tr). split; [reflexivity|].
    intros tr' H; injection H as <-.
    split; [reflexivity|]. split; [reflexivity|]. split; [assumption | rewrite Hs; apply Nat.le_refl].
Qed.

Definition simpleChars : Options := mkOptions (Some false) (Some false) (Some true).

(** The root node of a document with an attribute of its own. *)
Definition docIn (lang : string) (c : Fragment) : Node := Elem docT [("lang", lang)] [] c.



(* ================================================================== *)
(** * Reconstructing a document against itself *)

(** Inline nodes and leaves have no children. *)
Fixpoint flatNode (n : Node) : bool :=
  match n with
  | Text _ _ => true
  | Elem ty _ _ c =>
      (if isInlineType ty || isLeafType ty
       then match c with [] => true | _ :: _ => false end
       else true)
      && forallb flatNode c
  end.

(** [Located l off n]: the node [n] lies in the fragment [l], as a child or
    deeper, and starts [off] positions after the start of [l]. *)
Inductive Located : Fragment -> Z -> Node -> Prop :=
| loc_here (pre : Fragment) (n : Node) (post : Fragment) :
    Located (pre ++ n :: post) (fragSize pre) n
| loc_in (pre : Fragment) (c : Node) (post : Fragment) (off : Z) (n : Node) :
    isLeaf c = false ->
    Located (nodeContent c) off n ->
    Located (pre ++ c :: post) (fragSize pre + 1 + off) n.

Lemma fragSize_app (a b : Fragment) : fragSize (a ++ b) = fragSize a + fragSize b.
Proof.
  induction a as [|x a IH]; [reflexivity|].
  simpl app. rewrite !fragSize_cons, IH. lia.
Qed.

Lemma nodeSize_nonleaf (c : Node) :
  isLeaf c = false -> nodeSize c = 2 + fragSize (nodeContent c).
Proof.
  destruct c as [t m | ty a m cc]; cbn [isLeaf nodeSize nodeContent]; [discriminate|].
  intros ->. reflexivity.
Qed.

Lemma Located_bounds (l : Fragment) (off : Z) (n : Node) :
  Located l off n -> 0 <= off /\ off + nodeSize n <= fragSize l.
Proof.
  induction 1 as [pre n post | pre c post off n Hc _ IH].
  - rewrite fragSize_app, fragSize_cons.
    pose proof (fragSize_nonneg pre). pose proof (fragSize_nonneg post).
    pose proof (nodeSize_nonneg n). lia.
  - rewrite fragSize_app, fragSize_cons, (nodeSize_nonleaf c Hc).
    pose proof (fragSize_nonneg pre). pose proof (fragSize_nonneg post). lia.
Qed.

Lemma Located_nonempty (l : Fragment) (off : Z) (n : Node) : Located l off n -> l <> [].
Proof. destruct 1; destruct pre; discriminate. Qed.

Lemma flat_inline_content (n : Node) :
  flatNode n = true -> isInline n = true -> nodeContent n = [].
Proof.
  destruct n as [t m | ty a m c]; cbn [flatNode isInline nodeContent]; [reflexivity|].
  intros H Hi. rewrite Hi in H. cbn [orb] in H. destruct c; [reflexivity | discriminate].
Qed.

Lemma flat_parent (n : Node) :
  flatNode n = true -> nodeContent n <> [] -> isInline n = false /\ isLeaf n = false.
Proof.
  destruct n as [t m | ty a m c]; cbn [flatNode isInline isLeaf nodeContent];
    [intros _ H; contradiction H; reflexivity|].
  intros H Hc. destruct c; [contradiction Hc; reflexivity|].
  destruct (isInlineType ty), (isLeafType ty); cbn in H; try discriminate. auto.
Qed.

Lemma flat_content (n : Node) : flatNode n = true -> forallb flatNode (nodeContent n) = true.
Proof.
  destruct n as [t m | ty a m c]; cbn [flatNode nodeContent]; [reflexivity|].
  rewrite andb_true_iff. tauto.
Qed.

Section TraversalSteps.
Context {S : Type}.
Variable f : Node -> Z -> S -> Result (bool * S).
Variable inner : Node -> Z -> Z -> Z -> S -> Result S.

Lemma nodesBetweenLoop_cons (x : Node) (r : Fragment) (from to nodeStart pos : Z) (s : S) :
  nodesBetweenLoop f inner (x :: r) from to nodeStart pos s
  = if pos <? to then
      s' <-
        (if from <? pos + nodeSize x then
           '(descend, s1) <- f x (nodeStart + pos) s ;;
           if descend && negb (fragSize (nodeContent x) =? 0) then
             inner x (Z.max 0 (from - (pos + 1)))
               (Z.min (fragSize (nodeContent x)) (to - (pos + 1)))
               (nodeStart + (pos + 1)) s1
           else Ok s1
         else Ok s) ;;
      nodesBetweenLoop f inner r from to nodeStart (pos + nodeSize x) s'
    else Ok s.
Proof. reflexivity. Qed.

Lemma nodesBetweenLoop_done (l : Fragment) (from to nodeStart pos : Z) (s : S) :
  to <= pos -> nodesBetweenLoop f inner l from to nodeStart pos s = Ok s.
Proof.
  intros H. apply Z.ltb_ge in H. destruct l; cbn [nodesBetweenLoop]; rewrite H; reflexivity.
Qed.

(** Children that end at or before [from] are passed over. *)
Lemma nodesBetweenLoop_skip (pre rest : Fragment) (from to nodeStart : Z) :
  forall pos s,
    pos + fragSize pre <= from ->
    nodesBetweenLoop f inner rest from to nodeStart (pos + fragSize pre) s = Ok s ->
    nodesBetweenLoop f inner (pre ++ rest) from to nodeStart pos s = Ok s.
Proof.
  induction pre as [|x pre IH]; intros pos s Hle Hrest.
  - replace (pos + fragSize []) with pos in Hrest by (unfold fragSize; simpl; lia).
    exact Hrest.
  - simpl app. rewrite nodesBetweenLoop_cons. destruct (pos <? to); [|reflexivity].
    rewrite fragSize_cons in Hle, Hrest.
    pose proof (fragSize_nonneg pre).
    destruct (from <? pos + nodeSize x) eqn:Hlt; [apply Z.ltb_lt in Hlt; lia|].
    cbn [bind]. apply IH; [lia|].
    replace (pos + nodeSize x + fragSize pre) with (pos + (nodeSize x + fragSize pre))
      by lia.
    exact Hrest.
Qed.

End TraversalSteps.

Lemma nodesBetween_unfold {S : Type} (f : Node -> Z -> S -> Result (bool * S))
  (n : Node) (from to startPos : Z) (s : S) :
  nodesBetween f n from to startPos s
  = nodesBetweenLoop f (nodesBetween f) (nodeContent n) from to startPos 0 s.
Proof. destruct n; reflexivity. Qed.

Section SelfReconcile.
Context {E : Env}.

Lemma isInSet_self (m : Mark) (marks : list Mark) : In m marks -> isInSet m marks = true.
Proof.
  intros H. unfold isInSet. apply existsb_exists. exists m. split; [assumption|].
  apply mark_eqb_eq. reflexivity.
Qed.

Lemma forEachMark_skip (g : Mark -> Transform -> Result Transform) (marks : list Mark)
  (tr : Transform) :
  (forall m, In m marks -> g m tr = Ok tr) -> forEachMark g marks tr = Ok tr.
Proof.
  induction marks as [|m r IH]; intros H; [reflexivity|].
  cbn [forEachMark]. rewrite (H m (or_introl eq_refl)). cbn [bind].
  apply IH. intros m' Hm'. apply H. right. assumption.
Qed.

(** A node compared with itself needs no mark step. *)
Lemma reconcileNode_self (n : Node) (p : Z) (tr : Transform) :
  isInline n = true -> reconcileNode n p n p tr = Ok (true, tr).
Proof.
  intros Hi. unfold reconcileNode. rewrite Hi. cbn [negb].
  rewrite forEachMark_skip; [cbn [bind]; rewrite forEachMark_skip; [reflexivity|]|];
    intros m Hm; rewrite (isInSet_self m _ Hm); reflexivity.
Qed.

Lemma reconcileNode_block (tNode : Node) (tPos : Z) (n : Node) (p : Z) (tr : Transform) :
  isInline n = false -> reconcileNode tNode tPos n p tr = Ok (true, tr).
Proof. intros Hi. unfold reconcileNode. rewrite Hi. reflexivity. Qed.

(** The traversal of the range of an inline node [tNode] in the document
    that holds it calls the callback on its ancestors and on [tNode]
    itself; nothing changes. *)
Lemma inner_traversal (tNode : Node) (tPos : Z) (tr : Transform) :
  isInline tNode = true ->
  forall l off,
    Located l off tNode ->
    forall nodeStart,
      tPos = nodeStart + off ->
      forallb flatNode l = true ->
      nodesBetweenLoop (reconcileNode tNode tPos) (nodesBetween (reconcileNode tNode tPos))
        l off (off + nodeSize tNode) nodeStart 0 tr
      = Ok tr.
Proof.
  intros Hinline l off Hloc.
  induction Hloc as [pre n post | pre c post off n Hc Hloc IH]; intros nodeStart Hpos Hflat;
    rewrite forallb_app in Hflat; apply andb_true_iff in Hflat as [_ Hflat];
    cbn [forallb] in Hflat; apply andb_true_iff in Hflat as [Hfn _].
  - apply nodesBetweenLoop_skip; [lia|]. rewrite Z.add_0_l.
    rewrite nodesBetweenLoop_cons.
    destruct (fragSize pre <? fragSize pre + nodeSize n) eqn:Hlt; [|reflexivity].
    rewrite <- Hpos, (reconcileNode_self n tPos tr Hinline). cbn [bind].
    rewrite (flat_inline_content n Hfn Hinline). cbn [bind andb negb fragSize map sumZ fold_right Z.eqb].
    apply nodesBetweenLoop_done. lia.
  - pose proof (Located_bounds _ _ _ Hloc) as [Hoff Hend].
    pose proof (nodeSize_nonneg n) as Hn.
    pose proof (flat_parent c Hfn (Located_nonempty _ _ _ Hloc)) as [Hci _].
    apply nodesBetweenLoop_skip; [lia|]. rewrite Z.add_0_l.
    rewrite nodesBetweenLoop_cons.
    rewrite (nodeSize_nonleaf c Hc).
    replace (fragSize pre <? fragSize pre + 1 + off + nodeSize n) with true
      by (symmetry; apply Z.ltb_lt; lia).
    replace (fragSize pre + 1 + off <? fragSize pre + (2 + fragSize (nodeContent c)))
      with true by (symmetry; apply Z.ltb_lt; lia).
    rewrite (reconcileNode_block n tPos c _ tr Hci). cbn [bind andb].
    destruct (fragSize (nodeContent c) =? 0) eqn:Hz; cbn [negb bind].
    + apply nodesBetweenLoop_done. lia.
    + rewrite nodesBetween_unfold.
      replace (Z.max 0 (fragSize pre + 1 + off - (fragSize pre + 1))) with off by lia.
      replace (Z.min (fragSize (nodeContent c))
                 (fragSize pre + 1 + off + nodeSize n - (fragSize pre + 1)))
        with (off + nodeSize n) by lia.
      rewrite (IH Hinline (nodeStart + (fragSize pre + 1))); [|lia|apply flat_content, Hfn].
      cbn [bind]. apply nodesBetweenLoop_done. lia.
Qed.

End SelfReconcile.

Section SelfRecreate.
Context {E : Env}.
Variable A : Node.
Variable tr0 : Transform.
Hypothesis tr0_doc : trDoc tr0 = A.
Hypothesis A_flat : flatNode A = true.

(** The fragment [l], whose content starts at position [ns] of [A], is
    part of [A]. *)
Definition SubLocated (l : Fragment) (ns : Z) : Prop :=
  forall off n, Located l off n -> Located (nodeContent A) (ns + off) n.

Lemma reconcileTarget_self (x : Node) (p : Z) :
  Located (nodeContent A) p x -> reconcileTarget x p tr0 = Ok (true, tr0).
Proof.
  intros Hloc. unfold reconcileTarget.
  destruct (isInline x) eqn:Hi; cbn [negb]; [|reflexivity].
  rewrite tr0_doc, nodesBetween_unfold.
  rewrite (inner_traversal x p tr0 Hi (nodeContent A) p Hloc 0);
    [reflexivity | lia | apply flat_content, A_flat].
Qed.

Lemma outer_loop (l : Fragment) :
  Forall (fun x => flatNode x = true ->
                   forall ns to,
                     SubLocated (nodeContent x) ns ->
                     to <= fragSize (nodeContent x) ->
                     nodesBetween reconcileTarget x 0 to ns tr0 = Ok tr0) l ->
  forall pre ns to,
    SubLocated (pre ++ l) ns -> forallb flatNode l = true ->
    to <= fragSize (pre ++ l) ->
    nodesBetweenLoop reconcileTarget (nodesBetween reconcileTarget) l 0 to ns
      (fragSize pre) tr0
    = Ok tr0.
Proof.
  induction 1 as [|x r Hx _ IH]; intros pre ns to Hsub Hflat Hto.
  - rewrite app_nil_r in Hto. apply nodesBetweenLoop_done. exact Hto.
  - cbn [forallb] in Hflat. apply andb_true_iff in Hflat as [Hfx Hfr].
    rewrite nodesBetweenLoop_cons. destruct (fragSize pre <? to); [|reflexivity].
    assert (Hrest : nodesBetweenLoop reconcileTarget (nodesBetween reconcileTarget) r 0 to ns
                      (fragSize pre + nodeSize x) tr0 = Ok tr0).
    { replace (fragSize pre + nodeSize x) with (fragSize (pre ++ [x]))
        by (rewrite fragSize_app, fragSize_cons; change (fragSize []) with 0; lia).
      apply IH; [rewrite <- app_assoc; exact Hsub | exact Hfr
                | rewrite <- app_assoc; exact Hto]. }
    destruct (0 <? fragSize pre + nodeSize x); cbn [bind]; [|exact Hrest].
    rewrite (reconcileTarget_self x (ns + fragSize pre)); [|apply Hsub; constructor].
    cbn [bind andb].
    destruct (fragSize (nodeContent x) =? 0) eqn:Hz; cbn [negb bind]; [exact Hrest|].
    pose proof (fragSize_nonneg pre).
    replace (Z.max 0 (0 - (fragSize pre + 1))) with 0 by lia.
    rewrite Hx; [cbn [bind]; exact Hrest | exact Hfx | | lia].
    intros off n Hloc.
    assert (Hne : nodeContent x <> []) by (eapply Located_nonempty; eauto).
    destruct (flat_parent x Hfx Hne) as [_ Hleaf].
    replace (ns + (fragSize pre + 1) + off) with (ns + (fragSize pre + 1 + off)) by lia.
    apply Hsub. apply loc_in; assumption.
Qed.

Lemma outer_node (n : Node) :
  flatNode n = true ->
  forall ns to,
    SubLocated (nodeContent n) ns ->
    to <= fragSize (nodeContent n) ->
    nodesBetween reconcileTarget n 0 to ns tr0 = Ok tr0.
Proof.
  induction n as [t m | ty a m c IH] using Node_ind'; intros Hflat ns to Hsub Hto;
    rewrite nodesBetween_unfold.
  - apply nodesBetweenLoop_done. exact Hto.
  - exact (outer_loop c IH [] ns to Hsub (flat_content _ Hflat) Hto).
Qed.

(** The mark reconciler has nothing to do when the current document is
    the target. *)
Lemma recreateChangeMarkSteps_self : recreateChangeMarkSteps A tr0 = Ok tr0.
Proof.
  unfold recreateChangeMarkSteps, descendants.
  apply outer_node; [exact A_flat | | apply Z.le_refl].
  intros off n Hloc. exact Hloc.
Qed.

End SelfRecreate.

Section SelfClaim.
Context {E : Env}.

Lemma structuralLoop_break (w : bool) (target : Node) (remaining iterations : nat)
  (tr : Transform) (cur : Node) :
  findDiffStart target cur = None ->
  structuralLoop w target (S remaining) iterations tr cur = Ok (iterations, tr).
Proof.
  intros H. cbn [structuralLoop]. unfold structuralBody. rewrite H. reflexivity.
Qed.

Lemma allLoop_break (toDoc : Node) (remaining iterations : nat) (tr : Transform)
  (cur : Node) :
  findDiffStart toDoc cur = None ->
  allLoop toDoc (S remaining) iterations tr cur = Ok (iterations, tr).
Proof.
  intros H. cbn [allLoop]. unfold allBody.
  rewrite (proj2 (getReplaceStep_None_iff cur toDoc) H). reflexivity.
Qed.

(** C9, as the code has it: for every document whose inline nodes and
    leaves have no children, and for every combination of the options,
    recreating the document against itself yields a transform without
    steps. *)
Theorem recreate_self_is_empty (A : Node) (options : Options) :
  SimplifierContract ->
  flatNode A = true ->
  exists tr, recreateTransform A A options = Ok tr /\ trSteps tr = [].
Proof.
  intros Hsimp Hflat. unfold recreateTransform, init.
  set (sd := orDefault (optSimplifyDiff options) true).
  assert (Hv0 : Valid (newTransform A)) by reflexivity.
  assert (Hfinish : exists tr,
            (if sd then
               simplified <- simplifyTransform (newTransform A) ;;
               match simplified with
               | Some tr2 => Ok tr2
               | None => Ok (newTransform A)
               end
             else Ok (newTransform A)) = Ok tr
            /\ trSteps tr = []).
  { destruct sd; [|eexists; split; reflexivity].
    destruct (Hsimp _ Hv0) as (r & -> & Hr). cbn [bind]. destruct r as [tr2|].
    - exists tr2. split; [reflexivity|].
      destruct (Hr tr2 eq_refl) as (_ & _ & _ & Hlen). simpl in Hlen.
      destruct (trSteps tr2); [reflexivity | simpl in Hlen; lia].
    - eexists; split; reflexivity. }
  destruct (orDefault (optComplexSteps options) true).
  - unfold recreateStructuralSteps, MAX_ITERATIONS.
    rewrite structuralLoop_break by apply findDiffStart_refl. cbn [bind Nat.leb].
    rewrite (recreateChangeMarkSteps_self A (newTransform A) eq_refl Hflat). cbn [bind].
    exact Hfinish.
  - unfold recreateAllSteps, MAX_ITERATIONS.
    rewrite allLoop_break by apply findDiffStart_refl. cbn [bind Nat.leb].
    exact Hfinish.
Qed.

End SelfClaim.

Lemma recreate_self_is_empty_witness :
  flatNode strongAb = true
  /\ exists tr,
       @recreateTransform tokenEnv strongAb strongAb (mkOptions None None None) = Ok tr
       /\ trSteps tr = [].
Proof.
  split; [reflexivity|].
  exact (@recreate_self_is_empty tokenEnv strongAb (mkOptions None None None)
           tokenEnv_simplifier eq_refl).
Defined.

(** An inline node that has content of its own. *)
Definition footnoteT : NodeType := mkNodeType "footnote" true false.

Definition footnoteDoc : Node :=
  doc [paragraph [Elem footnoteT [] [strong] [txt "x"]]].

(** C9, counterexample: a bold inline node that holds plain text.  When
    the reconciler visits the inline node as the target, the traversal of
    the current document descends into it and meets the plain text, and the
    mark of the outer node is added to the text; it is removed again when
    the text itself is the target.  The transform is not empty. *)
Lemma recreate_self_with_nested_inline :
  stepsOf (@recreateTransform tokenEnv footnoteDoc footnoteDoc detailedChars)
  = Some [AddMarkStep 2 3 strong; RemoveMarkStep 2 3 strong; RemoveMarkStep 2 3 strong]
  /\ ~ (exists tr,
          @recreateTransform tokenEnv footnoteDoc footnoteDoc detailedChars = Ok tr
          /\ trSteps tr = []).
Proof.
  split; [reflexivity|].
  intros (tr & H & Hs).
  assert (Hc : stepsOf (@recreateTransform tokenEnv footnoteDoc footnoteDoc
                          detailedChars) = Some []).
  { rewrite H. simpl. rewrite Hs. reflexivity. }
  vm_compute in Hc. discriminate Hc.
Qed.

(* ================================================================== *)
(** * The text run editor, read on the text of the run *)

Definition chars (s : string) : list ascii := list_ascii_of_string s.

(** What a run of text becomes when its range [from, to) is replaced by
    [ins]; positions count from the start of the run. *)
Definition spliceChars (l : list ascii) (from to : Z) (ins : list ascii)
  : list ascii :=
  firstn (Z.to_nat from) l ++ ins ++ skipn (Z.to_nat to) l.

(** One call of the text run editor, on the text of a run that starts at
    document position [base]. *)
Definition editChars (base : Z) (l : list ascii) (e : TextEdit) : list ascii :=
  match e with
  | EReplaceWith from to text _ => spliceChars l (from - base) (to - base) (chars text)
  | EInsert pos text _ => spliceChars l (pos - base) (pos - base) (chars text)
  | EDelete from to => spliceChars l (from - base) (to - base) []
  end.

(** The two texts a list of diff segments stands for. *)
Definition oldChars (textDiffs : list Change) : list ascii :=
  flat_map (fun d => if added d then [] else chars (value d)) textDiffs.

Definition newChars (textDiffs : list Change) : list ascii :=
  flat_map (fun d => if removed d then [] else chars (value d)) textDiffs.

(** No segment is flagged both as added and as removed. *)
Definition oneFlag (d : Change) : Prop := added d && removed d = false.

Definition editFrom (e : TextEdit) : Z :=
  match e with
  | EReplaceWith from _ _ _ => from
  | EInsert pos _ _ => pos
  | EDelete from _ => from
  end.

Definition editTo (e : TextEdit) : Z :=
  match e with
  | EReplaceWith _ to _ _ => to
  | EInsert pos _ _ => pos
  | EDelete _ to => to
  end.

Definition editText (e : TextEdit) : string :=
  match e with
  | EReplaceWith _ _ text _ => text
  | EInsert _ text _ => text
  | EDelete _ _ => EmptyString
  end.

Lemma chars_length (s : string) : Z.of_nat (List.length (chars s)) = strlen s.
Proof.
  unfold strlen, chars. f_equal.
  induction s as [|c s IH]; simpl; [reflexivity | now rewrite IH].
Qed.

Lemma spliceChars_mid (pre mid post ins : list ascii) (from to : Z) :
  from = Z.of_nat (List.length pre) ->
  to = Z.of_nat (List.length pre) + Z.of_nat (List.length mid) ->
  spliceChars (pre ++ mid ++ post) from to ins = pre ++ ins ++ post.
Proof.
  intros -> ->. unfold spliceChars.
  rewrite Nat2Z.id, <- Nat2Z.inj_add, Nat2Z.id.
  rewrite firstn_app, Nat.sub_diag, firstn_all, firstn_O, app_nil_r.
  replace (pre ++ mid ++ post) with ((pre ++ mid) ++ post) by now rewrite app_assoc.
  rewrite <- length_app, skipn_app, Nat.sub_diag, skipn_all.
  reflexivity.
Qed.

Lemma textEdits_rewrite_from (marks : list Mark) (base : Z) :
  forall textDiffs pre,
    Forall oneFlag textDiffs ->
    fold_left (editChars base)
      (textEdits marks textDiffs (base + Z.of_nat (List.length pre)))
      (pre ++ oldChars textDiffs)
    = pre ++ newChars textDiffs.
Proof.
  assert (Hlen : forall n textDiffs, (List.length textDiffs <= n)%nat ->
            forall pre, Forall oneFlag textDiffs ->
              fold_left (editChars base)
                (textEdits marks textDiffs (base + Z.of_nat (List.length pre)))
                (pre ++ oldChars textDiffs)
              = pre ++ newChars textDiffs);
    [|intros textDiffs; apply (Hlen (List.length textDiffs)), Nat.le_refl].
  induction n as [|n IH]; intros textDiffs Hn pre Hone.
  { destruct textDiffs; [reflexivity | simpl in Hn; lia]. }
  destruct textDiffs as [|d rest]; [reflexivity|]. simpl in Hn.
  inversion Hone as [|? ? Hd Hrest]; subst.
  assert (Hnext : forall o, o = base + Z.of_nat (List.length pre) + strlen (value d) ->
            fold_left (editChars base) (textEdits marks rest o)
              ((pre ++ chars (value d)) ++ oldChars rest)
            = pre ++ chars (value d) ++ newChars rest).
  { intros o ->. rewrite <- chars_length, <- Z.add_assoc, <- Nat2Z.inj_add, <- length_app.
    rewrite IH by (assumption || lia). now rewrite <- app_assoc. }
  unfold oneFlag in Hd.
  cbn [textEdits oldChars newChars flat_map].
  fold (oldChars rest). fold (newChars rest).
  destruct (added d) eqn:Ha.
  - (* an added segment *)
    simpl in Hd. rewrite Hd.
    assert (Hins : fold_left (editChars base)
              (EInsert (base + Z.of_nat (List.length pre)) (value d) marks
               :: textEdits marks rest
                    (base + Z.of_nat (List.length pre) + strlen (value d)))
              (pre ++ [] ++ oldChars rest)
            = pre ++ chars (value d) ++ newChars rest).
    { cbn [fold_left editChars].
      rewrite (spliceChars_mid pre [] (oldChars rest)) by (simpl; lia).
      rewrite app_assoc. now apply Hnext. }
    destruct rest as [|nx rest']; [exact Hins|].
    destruct (removed nx) eqn:Hr; [|exact Hins].
    inversion Hrest as [|? ? Hnx Hrest']; subst. unfold oneFlag in Hnx.
    rewrite Hr, andb_true_r in Hnx.
    cbn [oldChars newChars flat_map]. rewrite Hnx, Hr.
    fold (oldChars rest'). fold (newChars rest').
    cbn [fold_left editChars app].
    rewrite (spliceChars_mid pre (chars (value nx)) (oldChars rest'))
      by (rewrite ?chars_length; lia).
    rewrite app_assoc.
    rewrite <- chars_length, <- Z.add_assoc, <- Nat2Z.inj_add, <- length_app.
    rewrite IH by (assumption || simpl in Hn; lia). now rewrite <- app_assoc.
  - destruct (removed d) eqn:Hr.
    + (* a removed segment *)
      assert (Hdel : fold_left (editChars base)
                (EDelete (base + Z.of_nat (List.length pre))
                   (base + Z.of_nat (List.length pre) + strlen (value d))
                 :: textEdits marks rest (base + Z.of_nat (List.length pre)))
                (pre ++ chars (value d) ++ oldChars rest)
              = pre ++ [] ++ newChars rest).
      { cbn [fold_left editChars].
        rewrite (spliceChars_mid pre (chars (value d)) (oldChars rest))
          by (rewrite ?chars_length; lia).
        apply IH; [lia | assumption]. }
      destruct rest as [|nx rest']; [exact Hdel|].
      destruct (added nx) eqn:Hax; [|exact Hdel].
      inversion Hrest as [|? ? Hnx Hrest']; subst. unfold oneFlag in Hnx.
      rewrite Hax in Hnx. simpl in Hnx.
      cbn [oldChars newChars flat_map]. rewrite Hnx, Hax.
      fold (oldChars rest'). fold (newChars rest').
      cbn [fold_left editChars app].
      rewrite (spliceChars_mid pre (chars (value d)) (oldChars rest'))
        by (rewrite ?chars_length; lia).
      rewrite app_assoc.
      rewrite <- chars_length, <- Z.add_assoc, <- Nat2Z.inj_add, <- length_app.
      rewrite IH by (assumption || simpl in Hn; lia). now rewrite <- app_assoc.
    + (* an unchanged segment *)
      rewrite app_assoc. now apply Hnext.
Qed.

(** The edits of a run, from left to right: each starts at or after
    [offset], has a range that is not inverted, and the next ones start
    after the text it has written. *)
Fixpoint leftToRight (offset : Z) (edits : list TextEdit) : Prop :=
  match edits with
  | [] => True
  | e :: r =>
      offset <= editFrom e /\ editFrom e <= editTo e
      /\ leftToRight (editFrom e + strlen (editText e)) r
  end.

Lemma leftToRight_weaken (edits : list TextEdit) (o o' : Z) :
  o' <= o -> leftToRight o edits -> leftToRight o' edits.
Proof.
  destruct edits as [|e r]; [trivial|]. cbn [leftToRight].
  intros Ho (H1 & H2 & H3). repeat split; [lia | assumption | assumption].
Qed.

Lemma strlen_nonneg (s : string) : 0 <= strlen s.
Proof. unfold strlen. lia. Qed.

(** X1: The text run editor rewrites the run: read as splices on the text of
    the run, the calls made for a list of diff segments turn the text the
    segments remove or keep into the text they add or keep. *)
Theorem text_edits_rewrite_run (marks : list Mark) (textDiffs : list Change)
  (base : Z) :
  Forall oneFlag textDiffs ->
  fold_left (editChars base) (textEdits marks textDiffs base) (oldChars textDiffs)
  = newChars textDiffs.
Proof.
  intros H.
  pose proof (textEdits_rewrite_from marks base textDiffs [] H) as Hr.
  cbn [List.length app] in Hr. rewrite Z.add_0_r in Hr. exact Hr.
Qed.

Lemma text_edits_rewrite_run_witness :
  let textDiffs := myersDiffChars "Hello world" "Help the world" in
  Forall oneFlag textDiffs
  /\ oldChars textDiffs = chars "Hello world"
  /\ fold_left (editChars 1) (textEdits [] textDiffs 1) (chars "Hello world")
     = chars "Help the world".
Proof.
  assert (H : Forall oneFlag (myersDiffChars "Hello world" "Help the world")).
  { vm_compute. repeat constructor. }
  split; [exact H|]. split; [reflexivity|].
  exact (text_edits_rewrite_run [] _ 1 H).
Defined.

(** X2: The calls of the text run editor go from left to right: no call has an
    inverted range, and no call starts before the end of the text an
    earlier call has written. *)
Theorem text_edits_left_to_right (marks : list Mark) (textDiffs : list Change) :
  forall offset, leftToRight offset (textEdits marks textDiffs offset).
Proof.
  assert (Hlen : forall n textDiffs, (List.length textDiffs <= n)%nat ->
            forall offset, leftToRight offset (textEdits marks textDiffs offset));
    [|intros offset; apply (Hlen (List.length textDiffs)), Nat.le_refl].
  clear textDiffs.
  induction n as [|n IH]; intros textDiffs Hn offset.
  { destruct textDiffs; [exact I | simpl in Hn; lia]. }
  destruct textDiffs as [|d rest]; [exact I|]. simpl in Hn.
  pose proof (strlen_nonneg (value d)) as Hd.
  cbn [textEdits].
  destruct (added d).
  - destruct rest as [|nx rest'].
    + cbn [textEdits leftToRight editFrom editTo editText]. repeat split; lia.
    + pose proof (strlen_nonneg (value nx)) as Hx.
      destruct (removed nx); cbn [leftToRight editFrom editTo editText];
        (repeat split; [lia | lia | apply IH; simpl in Hn |- *; lia]).
  - destruct (removed d).
    + destruct rest as [|nx rest'].
      * cbn [textEdits leftToRight editFrom editTo editText]. repeat split; lia.
      * pose proof (strlen_nonneg (value nx)) as Hx.
        destruct (added nx); cbn [leftToRight editFrom editTo editText];
          (repeat split; [lia | lia |]).
        -- apply IH; simpl in Hn |- *; lia.
        -- change (strlen "") with 0. rewrite Z.add_0_r. apply IH. simpl in Hn |- *; lia.
    + apply leftToRight_weaken with (o := offset + strlen (value d)); [lia|].
      apply IH. lia.
Qed.

(* ================================================================== *)
(** * Positions inside a document *)

(** Where [findIndex] followed by [maybeChild] lands for a position inside
    the fragment: strictly inside a child, or on a boundary between
    children. *)
Definition landsInside (f : Fragment) (pos : Z) : Prop :=
  exists pre cur post,
    f = pre ++ cur :: post /\ In cur f
    /\ fragSize pre < pos < fragSize pre + nodeSize cur
    /\ forall (R : Type) (none : Z -> Z -> R) (some : Node -> Z -> Z -> R)
         (err : Exn -> R),
         withChild none some err f pos
         = some cur (Z.of_nat (List.length pre)) (fragSize pre).

Definition landsBetween (f : Fragment) (pos : Z) : Prop :=
  exists pre post,
    f = pre ++ post /\ fragSize pre = pos
    /\ forall (R : Type) (none : Z -> Z -> R) (some : Node -> Z -> Z -> R)
         (err : Exn -> R),
         withChild none some err f pos
         = match post with
           | [] => none (Z.of_nat (List.length pre)) pos
           | nx :: _ => some nx (Z.of_nat (List.length pre)) pos
           end.

Lemma scanChild_cases (l : Fragment) :
  forall (seen : Fragment) (pos : Z),
    fragSize seen < pos -> pos <= fragSize seen + fragSize l ->
    (exists pre cur post,
        seen ++ l = pre ++ cur :: post /\ In cur l
        /\ fragSize pre < pos < fragSize pre + nodeSize cur
        /\ forall (R : Type) (none : Z -> Z -> R) (some : Node -> Z -> Z -> R)
             (err : Exn -> R),
             scanChild none some err l pos (Z.of_nat (List.length seen)) (fragSize seen)
             = some cur (Z.of_nat (List.length pre)) (fragSize pre))
    \/ (exists pre post,
          seen ++ l = pre ++ post /\ fragSize pre = pos
          /\ forall (R : Type) (none : Z -> Z -> R) (some : Node -> Z -> Z -> R)
               (err : Exn -> R),
               scanChild none some err l pos (Z.of_nat (List.length seen)) (fragSize seen)
               = match post with
                 | [] => none (Z.of_nat (List.length pre)) pos
                 | nx :: _ => some nx (Z.of_nat (List.length pre)) pos
                 end).
Proof.
  induction l as [|cur r IH]; intros seen pos Hlo Hhi.
  { change (fragSize []) with 0 in Hhi. lia. }
  rewrite fragSize_cons in Hhi.
  destruct (pos <=? fragSize seen + nodeSize cur) eqn:Hle.
  - apply Z.leb_le in Hle.
    destruct (fragSize seen + nodeSize cur =? pos) eqn:He.
    + apply Z.eqb_eq in He. right. exists (seen ++ [cur]), r.
      rewrite <- app_assoc, fragSize_app, fragSize_cons, length_app, Nat2Z.inj_add.
      change (fragSize []) with 0. cbn [List.length app].
      rewrite Z.add_0_r. repeat split; try assumption.
      intros R none some err. cbn [scanChild].
      apply Z.leb_le in Hle. rewrite Hle. rewrite He, Z.eqb_refl. reflexivity.
    + left. exists seen, cur, r.
      split; [reflexivity|]. split; [now left|].
      split; [apply Z.eqb_neq in He; lia|].
      intros R none some err. cbn [scanChild].
      apply Z.leb_le in Hle. rewrite Hle, He. reflexivity.
  - specialize (IH (seen ++ [cur]) pos).
    rewrite fragSize_app, fragSize_cons, length_app, Nat2Z.inj_add, <- app_assoc in IH.
    change (fragSize []) with 0 in IH. cbn [List.length app] in IH.
    rewrite Z.add_0_r in IH.
    pose proof Hle as Hgt. apply Z.leb_gt in Hgt.
    destruct IH as [(pre & c & post & Hl & Hin & Hb & Hs)|(pre & post & Hl & Hb & Hs)];
      [lia | lia | left | right].
    + exists pre, c, post. repeat split; try assumption; try lia; [now right|].
      intros R none some err. cbn [scanChild]. rewrite Hle. apply Hs.
    + exists pre, post. repeat split; try assumption.
      intros R none some err. cbn [scanChild]. rewrite Hle. apply Hs.
Qed.

Lemma withChild_cases (f : Fragment) (pos : Z) :
  0 <= pos <= fragSize f -> landsInside f pos \/ landsBetween f pos.
Proof.
  intros Hr.
  destruct (pos =? 0) eqn:H0.
  { right. exists [], f. apply Z.eqb_eq in H0. subst pos.
    split; [reflexivity|]. split; [reflexivity|].
    intros R none some err. destruct f; reflexivity. }
  destruct (pos =? fragSize f) eqn:Hs.
  { right. exists f, []. rewrite app_nil_r. apply Z.eqb_eq in Hs.
    split; [reflexivity|]. split; [auto|].
    intros R none some err. unfold withChild. rewrite H0.
    rewrite Hs at 1. rewrite Z.eqb_refl. reflexivity. }
  assert (Ho : (fragSize f <? pos) || (pos <? 0) = false).
  { apply orb_false_iff; split; apply Z.ltb_ge; lia. }
  pose proof H0 as H0'. pose proof Hs as Hs'.
  apply Z.eqb_neq in H0'. apply Z.eqb_neq in Hs'.
  destruct (scanChild_cases f [] pos)
    as [(pre & c & post & Hl & Hin & Hb & Hw)|(pre & post & Hl & Hb & Hw)];
    try (change (fragSize []) with 0; lia); [left | right].
  - exists pre, c, post. repeat split; try assumption; try lia.
    intros R none some err. unfold withChild. rewrite H0, Hs, Ho. apply Hw.
  - exists pre, post. repeat split; try assumption.
    intros R none some err. unfold withChild. rewrite H0, Hs, Ho. apply Hw.
Qed.

Lemma withChild_out_of_range {R : Type} (none : Z -> Z -> R) (some : Node -> Z -> Z -> R)
  (err : Exn -> R) (f : Fragment) (pos : Z) :
  pos < 0 \/ fragSize f < pos ->
  withChild none some err f pos = err (RangeError "Position out of range").
Proof.
  intros Hr. pose proof (fragSize_nonneg f). unfold withChild.
  destruct (pos =? 0) eqn:H0; [apply Z.eqb_eq in H0; lia|].
  destruct (pos =? fragSize f) eqn:Hs; [apply Z.eqb_eq in Hs; lia|].
  destruct ((fragSize f <? pos) || (pos <? 0)) eqn:Ho; [reflexivity|].
  apply orb_false_iff in Ho as [H1 H2]. apply Z.ltb_ge in H1, H2. lia.
Qed.

(** A position strictly inside a child that is not text is a position of
    the content of that child. *)
Lemma inside_child_range (cur : Node) (off pos : Z) :
  isText cur = false -> off < pos < off + nodeSize cur ->
  0 <= pos - (off + 1) <= fragSize (nodeContent cur).
Proof.
  destruct cur as [t m | ty a m c]; [discriminate|]. intros _.
  cbn [nodeSize nodeContent]. unfold fragSize.
  destruct (isLeafType ty); lia.
Qed.

(** [nodeAt] returns for every position of the node, and throws a
    [RangeError] for every other. *)
Lemma nodeAt_in_range (node : Node) :
  forall pos, 0 <= pos <= fragSize (nodeContent node) ->
    exists r, nodeAt node pos = Ok r.
Proof.
  induction node as [t m | ty a m c IH] using Node_ind'; intros pos Hr;
    cbn [nodeAt nodeContent] in *.
  - change (fragSize []) with 0 in Hr. assert (pos = 0) as -> by lia. eexists; reflexivity.
  - destruct (withChild_cases c pos Hr)
      as [(pre & cur & post & Hc & Hin & Hb & Hw)|(pre & post & Hc & Hb & Hw)];
      rewrite Hw.
    + destruct ((fragSize pre =? pos) || isText cur) eqn:Hd; [eexists; reflexivity|].
      rewrite Forall_forall in IH. apply (IH cur Hin).
      apply orb_false_iff in Hd as [_ Ht]. now apply inside_child_range.
    + destruct post; [eexists; reflexivity|].
      rewrite Z.eqb_refl. eexists; reflexivity.
Qed.

Lemma nodeAt_out_of_range (node : Node) (pos : Z) :
  pos < 0 \/ fragSize (nodeContent node) < pos ->
  nodeAt node pos = Throw (RangeError "Position out of range").
Proof.
  intros Hr. destruct node as [t m | ty a m c]; cbn [nodeAt nodeContent] in *;
    now apply withChild_out_of_range.
Qed.

Lemma resolveLoop_in_range (node : Node) :
  forall pos start, 0 <= pos <= fragSize (nodeContent node) ->
    exists path po, resolveLoop node pos start = Ok (path, po) /\ path <> [].
Proof.
  induction node as [t m | ty a m c IH] using Node_ind'; intros pos start Hr;
    cbn [resolveLoop nodeContent] in *.
  - change (fragSize []) with 0 in Hr. assert (pos = 0) as -> by lia.
    do 2 eexists; split; [reflexivity | discriminate].
  - destruct (withChild_cases c pos Hr)
      as [(pre & cur & post & Hc & Hin & Hb & Hw)|(pre & post & Hc & Hb & Hw)];
      rewrite Hw.
    + cbv zeta. destruct (pos - fragSize pre =? 0);
        [do 2 eexists; split; [reflexivity | discriminate]|].
      destruct (isText cur) eqn:Ht; [do 2 eexists; split; [reflexivity | discriminate]|].
      rewrite Forall_forall in IH.
      destruct (IH cur Hin (pos - fragSize pre - 1) (start + fragSize pre + 1))
        as (rest & po & -> & _).
      { pose proof (inside_child_range cur (fragSize pre) pos Ht Hb). lia. }
      cbn [bind]. do 2 eexists; split; [reflexivity | discriminate].
    + destruct post; cbv zeta; rewrite Z.sub_diag, Z.eqb_refl;
        do 2 eexists; split; try reflexivity; discriminate.
Qed.

Lemma resolve_in_range (doc : Node) (pos : Z) :
  0 <= pos <= fragSize (nodeContent doc) ->
  exists rp, resolve doc pos = Ok rp /\ rpPos rp = pos.
Proof.
  intros Hr. unfold resolve.
  destruct (resolveLoop_in_range doc pos 0 Hr) as (path & po & -> & _).
  assert ((0 <=? pos) && (pos <=? fragSize (nodeContent doc)) = true) as ->.
  { apply andb_true_iff; split; apply Z.leb_le; lia. }
  cbn [negb bind]. eexists; split; reflexivity.
Qed.

(* ================================================================== *)
(** * More about the diff classifier *)

Lemma isTextChange_in_range (fromDoc toDoc : Node) (start : Z) (fn tn : option Node) :
  0 <= start <= fragSize (nodeContent fromDoc) ->
  0 <= start <= fragSize (nodeContent toDoc) ->
  exists b, isTextChange fromDoc toDoc start fn tn = Ok b.
Proof.
  intros Hf Ht. unfold isTextChange.
  destruct fn as [f|]; [|eexists; reflexivity].
  destruct tn as [t|]; [|eexists; reflexivity].
  destruct (isText f && isText t && sameMarkup f t); [|eexists; reflexivity].
  destruct (resolve_in_range fromDoc start Hf) as (rf & -> & _).
  destruct (resolve_in_range toDoc start Ht) as (rt & -> & _).
  cbn [bind]. destruct (_ && _); eexists; reflexivity.
Qed.

Lemma classifyDiff_in_range_Ok (fromDoc toDoc : Node) (start endFrom endTo : Z) :
  0 <= start <= fragSize (nodeContent fromDoc) ->
  0 <= start <= fragSize (nodeContent toDoc) ->
  exists r, classifyDiff fromDoc toDoc start endFrom endTo = Ok r.
Proof.
  intros Hf Ht. unfold classifyDiff.
  destruct (nodeAt_in_range fromDoc start Hf) as (fn & ->).
  destruct (nodeAt_in_range toDoc start Ht) as (tn & ->).
  destruct (resolve_in_range fromDoc start Hf) as (rf & Hrf & _).
  destruct (isTextChange_in_range fromDoc toDoc start fn tn Hf Ht) as (b & Hb).
  cbn [bind]. rewrite Hrf.
  destruct (optIsText fn); cbn [bind]; rewrite Hb; cbn [bind];
    (destruct b; [|destruct (isMarkupChange fn tn)]); eexists; reflexivity.
Qed.

(** X3: [classifyDiff] returns a record exactly when [start] is a position of
    both documents; the record carries the positions it was given and the
    nodes that follow [start] in the two documents. *)
Theorem classifyDiff_returns_in_range (fromDoc toDoc : Node)
  (start endFrom endTo : Z) :
  ((exists r, classifyDiff fromDoc toDoc start endFrom endTo = Ok r)
   <-> 0 <= start <= fragSize (nodeContent fromDoc)
       /\ 0 <= start <= fragSize (nodeContent toDoc))
  /\ (forall r, classifyDiff fromDoc toDoc start endFrom endTo = Ok r ->
        dStart r = start /\ dEndFrom r = endFrom /\ dEndTo r = endTo
        /\ nodeAt fromDoc start = Ok (dFromNode r)
        /\ nodeAt toDoc start = Ok (dToNode r)).
Proof.
  split; [split|].
  - intros (r & Hr). unfold classifyDiff in Hr.
    assert (Hin : forall d, (exists x, nodeAt d start = Ok x) ->
              0 <= start <= fragSize (nodeContent d)).
    { intros d (x & Hx).
      destruct (Z_lt_dec start 0) as [Hl|Hl];
        [rewrite nodeAt_out_of_range in Hx by lia; discriminate|].
      destruct (Z_lt_dec (fragSize (nodeContent d)) start) as [Hg|Hg];
        [rewrite nodeAt_out_of_range in Hx by lia; discriminate|].
      lia. }
    destruct (nodeAt fromDoc start) as [fn|] eqn:Hfn; [|discriminate].
    destruct (nodeAt toDoc start) as [tn|] eqn:Htn; [|discriminate].
    split; apply Hin; eauto.
  - intros [Hf Ht]. now apply classifyDiff_in_range_Ok.
  - intros r Hr.
    apply classifyDiff_Ok in Hr
      as (fn & tn & b & Hfn & Htn & _ & <- & <- & Hs & Hef & Het & _).
    auto.
Qed.

Lemma classifyDiff_returns_in_range_witness :
  (exists r, classifyDiff helloWorld helloThere 7 12 12 = Ok r)
  /\ classifyDiff helloWorld helloThere 14 12 12
     = Throw (RangeError "Position out of range").
Proof.
  split; [|reflexivity].
  apply (proj1 (classifyDiff_returns_in_range helloWorld helloThere 7 12 12)).
  vm_compute. repeat split; discriminate.
Defined.

(** X4: The text conditions and the markup conditions exclude each other, so
    the order of the two tests of [classifyDiff] decides nothing: the label
    is 'markup' exactly when both nodes after [start] are not text, have
    equal content and differ in type, attributes or marks.  The record then
    has [textNodeStart = start]. *)
Theorem classifyDiff_markup_iff (fromDoc toDoc : Node) (start endFrom endTo : Z) :
  (forall r, classifyDiff fromDoc toDoc start endFrom endTo = Ok r ->
     dType r = MarkupDiff ->
     SpecMarkupChange fromDoc toDoc start /\ dTextNodeStart r = start)
  /\ (SpecMarkupChange fromDoc toDoc start ->
      exists f t,
        classifyDiff fromDoc toDoc start endFrom endTo
        = Ok (mkDiff MarkupDiff start endFrom endTo (Some f) (Some t) start)).
Proof.
  split.
  - intros r Hr Hty. unfold classifyDiff in Hr.
    destruct (nodeAt fromDoc start) as [fn|] eqn:Hfn; [|discriminate].
    destruct (nodeAt toDoc start) as [tn|] eqn:Htn; [|discriminate].
    cbn [bind] in Hr.
    destruct (isMarkupChange fn tn) eqn:Hm.
    + apply isMarkupChange_true_iff in Hm as (f & t & -> & -> & Hf & Ht & H).
      split; [exists f, t; tauto|].
      cbn [optIsText isTextChange] in Hr.
      rewrite Hf in Hr. cbn [andb bind] in Hr.
      injection Hr as <-. reflexivity.
    + destruct (if optIsText fn then _ else _) as [tns|]; [|discriminate].
      cbn [bind] in Hr.
      destruct (isTextChange fromDoc toDoc start fn tn) as [[|]|];
        cbn [bind] in Hr; try discriminate; injection Hr as <-; discriminate.
  - intros (f & t & Hfn & Htn & Hf & Ht & Hc & Hm).
    assert (Hmk : isMarkupChange (Some f) (Some t) = true).
    { apply isMarkupChange_true_iff. exists f, t. tauto. }
    unfold classifyDiff. rewrite Hfn, Htn. cbn [bind optIsText isTextChange].
    rewrite Hf. cbn [andb bind]. rewrite Hmk.
    exists f, t. reflexivity.
Qed.

Lemma classifyDiff_markup_iff_witness :
  SpecMarkupChange (doc [paragraph [txt "x"]]) (doc [heading [txt "x"]]) 0
  /\ classifyDiff (doc [paragraph [txt "x"]]) (doc [heading [txt "x"]]) 0 3 3
     = Ok (mkDiff MarkupDiff 0 3 3 (Some (paragraph [txt "x"])) (Some (heading [txt "x"])) 0).
Proof.
  split; [|reflexivity].
  apply (proj1 (classifyDiff_markup_iff (doc [paragraph [txt "x"]]) (doc [heading [txt "x"]])
                  0 3 3) _ eq_refl eq_refl).
Defined.

(* ================================================================== *)
(** * The start of the text run *)

Lemma scanChild_inside {R : Type} (none : Z -> Z -> R) (some : Node -> Z -> Z -> R)
  (err : Exn -> R) (cur : Node) (post : Fragment) (q : Z) :
  forall (pre : Fragment) (i curPos : Z),
    curPos + fragSize pre < q < curPos + fragSize pre + nodeSize cur ->
    scanChild none some err (pre ++ cur :: post) q i curPos
    = some cur (i + Z.of_nat (List.length pre)) (curPos + fragSize pre).
Proof.
  induction pre as [|x pre IH]; intros i curPos Hq.
  - change (fragSize []) with 0 in *. cbn [app scanChild List.length].
    rewrite !Z.add_0_r in *.
    destruct (q <=? curPos + nodeSize cur) eqn:Hle; [|apply Z.leb_gt in Hle; lia].
    destruct (curPos + nodeSize cur =? q) eqn:He; [apply Z.eqb_eq in He; lia|].
    reflexivity.
  - rewrite fragSize_cons in Hq. cbn [app scanChild].
    pose proof (fragSize_nonneg pre) as Hp.
    destruct (q <=? curPos + nodeSize x) eqn:Hle; [apply Z.leb_le in Hle; lia|].
    rewrite IH by lia. rewrite fragSize_cons. cbn [List.length].
    f_equal; lia.
Qed.

Lemma withChild_inside {R : Type} (none : Z -> Z -> R) (some : Node -> Z -> Z -> R)
  (err : Exn -> R) (pre : Fragment) (cur : Node) (post : Fragment) (q : Z) :
  fragSize pre < q < fragSize pre + nodeSize cur ->
  withChild none some err (pre ++ cur :: post) q
  = some cur (Z.of_nat (List.length pre)) (fragSize pre).
Proof.
  intros Hq. unfold withChild.
  pose proof (fragSize_nonneg pre) as Hp. pose proof (fragSize_nonneg post) as Hpost.
  assert (Hs : fragSize (pre ++ cur :: post) = fragSize pre + nodeSize cur + fragSize post).
  { rewrite fragSize_app, fragSize_cons. lia. }
  destruct (q =? 0) eqn:H0; [apply Z.eqb_eq in H0; lia|].
  destruct (q =? fragSize (pre ++ cur :: post)) eqn:H1; [apply Z.eqb_eq in H1; lia|].
  destruct (_ || _) eqn:H2.
  { apply orb_true_iff in H2 as [H2|H2]; apply Z.ltb_lt in H2; lia. }
  rewrite (scanChild_inside none some err cur post q pre 0 0) by lia. reflexivity.
Qed.

Lemma scanChild_boundary {R : Type} (none : Z -> Z -> R) (some : Node -> Z -> Z -> R)
  (err : Exn -> R) (cur : Node) (post : Fragment) :
  forall (pre : Fragment) (i curPos : Z),
    pre <> [] -> forallb wfNode pre = true ->
    scanChild none some err (pre ++ cur :: post) (curPos + fragSize pre) i curPos
    = some cur (i + Z.of_nat (List.length pre)) (curPos + fragSize pre).
Proof.
  induction pre as [|x pre IH]; intros i curPos Hne Hwf; [congruence|].
  cbn [forallb] in Hwf. apply andb_true_iff in Hwf as [Hx Hwf].
  apply wfNode_size_pos in Hx.
  rewrite fragSize_cons. cbn [app scanChild].
  destruct pre as [|y pre].
  - change (fragSize []) with 0. cbn [app List.length]. rewrite Z.add_0_r.
    rewrite Z.leb_refl, Z.eqb_refl. reflexivity.
  - assert (Hy : 0 < fragSize (y :: pre)).
    { rewrite fragSize_cons. cbn [forallb] in Hwf. apply andb_true_iff in Hwf as [Hy _].
      apply wfNode_size_pos in Hy. pose proof (fragSize_nonneg pre). lia. }
    destruct (_ <=? _) eqn:Hle; [apply Z.leb_le in Hle; lia|].
    replace (curPos + (nodeSize x + fragSize (y :: pre)))
      with (curPos + nodeSize x + fragSize (y :: pre)) by lia.
    rewrite IH by (assumption || discriminate).
    f_equal. cbn [List.length]. lia.
Qed.

Lemma withChild_boundary {R : Type} (none : Z -> Z -> R) (some : Node -> Z -> Z -> R)
  (err : Exn -> R) (pre : Fragment) (cur : Node) (post : Fragment) :
  forallb wfNode pre = true -> wfNode cur = true ->
  withChild none some err (pre ++ cur :: post) (fragSize pre)
  = some cur (Z.of_nat (List.length pre)) (fragSize pre).
Proof.
  intros Hpre Hcur. unfold withChild.
  pose proof (fragSize_nonneg pre) as Hp. pose proof (fragSize_nonneg post) as Hpost.
  apply wfNode_size_pos in Hcur.
  assert (Hs : fragSize (pre ++ cur :: post) = fragSize pre + nodeSize cur + fragSize post).
  { rewrite fragSize_app, fragSize_cons. lia. }
  destruct (fragSize pre =? 0) eqn:H0.
  { apply Z.eqb_eq in H0. rewrite (wf_fragSize_zero pre Hpre H0). reflexivity. }
  apply Z.eqb_neq in H0.
  destruct (fragSize pre =? fragSize (pre ++ cur :: post)) eqn:H1;
    [apply Z.eqb_eq in H1; lia|].
  destruct (_ || _) eqn:H2.
  { apply orb_true_iff in H2 as [H2|H2]; apply Z.ltb_lt in H2; lia. }
  assert (Hne : pre <> []) by (intros ->; apply H0; reflexivity).
  pose proof (scanChild_boundary none some err cur post pre 0 0 Hne Hpre) as Hb.
  rewrite !Z.add_0_l in Hb. exact Hb.
Qed.

Definition noEntry : PathEntry := mkEntry (Text "" []) 0 0.

(** When [nodeAt] finds a text leaf after a position, the offset of the last
    path entry of the resolved position is the start of that leaf. *)
Lemma text_leaf_located (node : Node) :
  forall pos start t m path po,
    wfNode node = true ->
    0 <= pos <= fragSize (nodeContent node) ->
    nodeAt node pos = Ok (Some (Text t m)) ->
    resolveLoop node pos start = Ok (path, po) ->
    let off := peOffset (last path noEntry) - start in
    0 <= off /\ off <= pos < off + strlen t
    /\ nodeAt node off = Ok (Some (Text t m)).
Proof.
  induction node as [t0 m0 | ty a m0 c IH] using Node_ind';
    intros pos start t m path po Hwf Hr Hn Hp.
  { cbn [nodeContent] in Hr. change (fragSize []) with 0 in Hr.
    assert (pos = 0) as -> by lia. discriminate Hn. }
  cbn [nodeContent wfNode] in Hr, Hwf. cbn [nodeAt] in Hn. cbn [resolveLoop] in Hp.
  destruct (withChild_cases c pos Hr)
    as [(pre & cur & post & Hc & Hin & Hb & Hw)|(pre & post & Hc & Hb & Hw)];
    rewrite Hw in Hn, Hp.
  - (* strictly inside the child [cur] *)
    assert (Hwfc : forallb wfNode pre = true /\ wfNode cur = true).
    { rewrite Hc, forallb_app in Hwf. cbn [forallb] in Hwf.
      apply andb_true_iff in Hwf as [H1 H2]. apply andb_true_iff in H2 as [H2 _]. auto. }
    destruct Hwfc as [Hwpre Hwcur].
    pose proof (fragSize_nonneg pre) as Hpre.
    cbv zeta in Hp.
    destruct (fragSize pre =? pos) eqn:He; [apply Z.eqb_eq in He; lia|].
    destruct (pos - fragSize pre =? 0) eqn:Hrem; [apply Z.eqb_eq in Hrem; lia|].
    cbn [orb] in Hn.
    destruct (isText cur) eqn:Ht.
    + injection Hn as ->. injection Hp as <- <-.
      cbn [last peOffset]. cbv zeta. replace (start + fragSize pre - start) with (fragSize pre) by lia.
      cbn [nodeSize] in Hb.
      split; [lia|]. split; [lia|].
      cbn [nodeAt]. rewrite Hc, withChild_boundary by assumption.
      rewrite Z.eqb_refl. reflexivity.
    + destruct (resolveLoop cur (pos - fragSize pre - 1) (start + fragSize pre + 1))
        as [[rest po']|] eqn:Hrest; [|discriminate Hp].
      cbn [bind] in Hp. injection Hp as <- <-.
      rewrite Forall_forall in IH.
      pose proof (inside_child_range cur (fragSize pre) pos Ht Hb) as Hrange.
      replace (pos - (fragSize pre + 1)) with (pos - fragSize pre - 1) in Hn, Hrange by lia.
      destruct (IH cur Hin _ _ t m rest po' Hwcur Hrange Hn Hrest) as (H0 & Hlt & Hat).
      assert (Hne : rest <> []).
      { destruct (resolveLoop_in_range cur _ (start + fragSize pre + 1) Hrange)
          as (p' & po'' & Hp' & Hne). rewrite Hrest in Hp'. injection Hp' as -> _. exact Hne. }
      assert (Hlast : forall e, last (e :: rest) noEntry = last rest noEntry).
      { intros e. destruct rest; [congruence | reflexivity]. }
      rewrite Hlast. cbv zeta.
      set (off' := peOffset (last rest noEntry) - (start + fragSize pre + 1)) in *.
      replace (peOffset (last rest noEntry) - start) with (fragSize pre + 1 + off')
        by (unfold off'; lia).
      split; [lia|]. split; [lia|].
      cbn [nodeAt]. rewrite Hc, withChild_inside by lia.
      destruct (fragSize pre =? fragSize pre + 1 + off') eqn:He';
        [apply Z.eqb_eq in He'; lia|].
      rewrite Ht. cbn [orb].
      replace (fragSize pre + 1 + off' - (fragSize pre + 1)) with off' by lia.
      exact Hat.
  - (* on a boundary *)
    destruct post as [|nx post]; [discriminate Hn|].
    rewrite Z.eqb_refl in Hn. cbn [orb] in Hn. injection Hn as ->.
    cbv zeta in Hp. rewrite Z.sub_diag, Z.eqb_refl in Hp. injection Hp as <- <-.
    cbn [last peOffset]. cbv zeta. replace (start + pos - start) with pos by lia.
    assert (Hwt : wfNode (Text t m) = true).
    { rewrite Hc, forallb_app in Hwf. cbn [forallb] in Hwf.
      apply andb_true_iff in Hwf as [_ H2]. apply andb_true_iff in H2 as [H2 _]. exact H2. }
    apply wfNode_size_pos in Hwt. cbn [nodeSize] in Hwt.
    split; [lia|]. split; [lia|].
    cbn [nodeAt]. rewrite Hw, Z.eqb_refl. reflexivity.
Qed.

(** X5: For a well-formed source document, the [textNodeStart] of a divergence
    inside or before a text leaf is the position at which that leaf starts:
    the leaf is the node after it, and [start] lies inside the leaf. *)
Theorem text_node_start_is_leaf_start (fromDoc toDoc : Node)
  (start endFrom endTo : Z) (r : DiffResult) (t : string) (m : list Mark) :
  wfNode fromDoc = true ->
  classifyDiff fromDoc toDoc start endFrom endTo = Ok r ->
  dFromNode r = Some (Text t m) ->
  nodeAt fromDoc (dTextNodeStart r) = Ok (Some (Text t m))
  /\ dTextNodeStart r <= start < dTextNodeStart r + strlen t.
Proof.
  intros Hwf Hr Hf. unfold classifyDiff in Hr.
  destruct (nodeAt fromDoc start) as [fn|] eqn:Hfn; [|discriminate].
  destruct (nodeAt toDoc start) as [tn|] eqn:Htn; [|discriminate].
  cbn [bind] in Hr.
  assert (Hfn' : fn = Some (Text t m)).
  { destruct (if optIsText fn then _ else _) as [tns|]; [|discriminate].
    cbn [bind] in Hr.
    destruct (isTextChange fromDoc toDoc start fn tn) as [[|]|];
      cbn [bind] in Hr; try discriminate;
      [|destruct (isMarkupChange fn tn)]; injection Hr as <-; exact Hf. }
  subst fn. cbn [optIsText isText] in Hr.
  assert (Hrange : 0 <= start <= fragSize (nodeContent fromDoc)).
  { destruct (Z_lt_dec start 0) as [Hl|Hl];
      [rewrite nodeAt_out_of_range in Hfn by lia; discriminate|].
    destruct (Z_lt_dec (fragSize (nodeContent fromDoc)) start) as [Hg|Hg];
      [rewrite nodeAt_out_of_range in Hfn by lia; discriminate|].
    lia. }
  unfold resolve in Hr.
  destruct (negb _); [discriminate|].
  destruct (resolveLoop fromDoc start 0) as [[path po]|] eqn:Hp; [|discriminate].
  cbn [bind] in Hr.
  destruct (text_leaf_located fromDoc start 0 t m path po Hwf Hrange Hfn Hp)
    as (H0 & Hlt & Hat).
  rewrite Z.sub_0_r in H0, Hlt, Hat.
  assert (Hts : dTextNodeStart r = peOffset (last path noEntry)).
  { unfold textOffset, lastEntry in Hr. cbn [rpPos rpPath] in Hr.
    fold noEntry in Hr.
    destruct (isTextChange fromDoc toDoc start (Some (Text t m)) tn) as [[|]|];
      cbn [bind] in Hr; try discriminate;
      [|destruct (isMarkupChange (Some (Text t m)) tn)]; injection Hr as <-;
      cbn [dTextNodeStart]; lia. }
  rewrite Hts. auto.
Qed.

Lemma text_node_start_is_leaf_start_witness :
  exists r,
    classifyDiff strongAb strongAbX 4 5 6 = Ok r
    /\ dTextNodeStart r = 3
    /\ nodeAt strongAb (dTextNodeStart r) = Ok (Some (txt "cd"))
    /\ dTextNodeStart r <= 4 < dTextNodeStart r + strlen "cd".
Proof.
  eexists. split; [reflexivity|]. split; [reflexivity|].
  exact (text_node_start_is_leaf_start strongAb strongAbX 4 5 6 _ "cd" []
           eq_refl eq_refl eq_refl).
Defined.

(* ================================================================== *)
(** * More about the boundary resolver *)

(** The walk from the end moves both positions by the same amounts. *)
Lemma endFold_balance (inner : Node -> Fragment -> Z -> Z -> option (Z * Z))
  (ra : Fragment) :
  Forall (fun x => forall b pa pb r, inner x b pa pb = Some r ->
                                     fst r - snd r = pa - pb) ra ->
  forall rb pa pb r,
    endResult (fold_left (fun st x => endStep inner x st) ra (Cont rb pa pb)) = Some r ->
    fst r - snd r = pa - pb.
Proof.
  induction 1 as [|x l Hx _ IH]; intros rb pa pb r.
  { destruct rb; cbn [fold_left endResult]; [discriminate|].
    intros [= <-]. reflexivity. }
  cbn [fold_left endStep]. destruct rb as [|y rb].
  { rewrite endFold_Done. cbn [endResult]. intros [= <-]. reflexivity. }
  cbv zeta.
  destruct (negb (sameMarkup x y)).
  { rewrite endFold_Done. cbn [endResult]. intros [= <-]. reflexivity. }
  destruct (textDiffers x y).
  { rewrite endFold_Done. cbn [endResult]. intros [= <-]. cbn [fst snd]. lia. }
  destruct (hasContent x y).
  - destruct (inner x (nodeContent y) (pa - 1) (pb - 1)) as [res|] eqn:Hi.
    + rewrite endFold_Done. cbn [endResult]. intros [= <-].
      rewrite (Hx _ _ _ _ Hi). lia.
    + intros H. apply IH in H. lia.
  - intros H. apply IH in H. lia.
Qed.

Lemma findDiffEndIn_balance (a : Node) :
  forall b pa pb r, findDiffEndIn a b pa pb = Some r -> fst r - snd r = pa - pb.
Proof.
  induction a as [t m | ty at' m c IH] using Node_ind'; intros b pa pb r;
    rewrite findDiffEndIn_unfold; unfold findDiffEndLoop, rev'; rewrite <- rev_alt;
    cbn [nodeContent].
  - cbn [fold_right]. destruct (rev b); cbn [endResult]; [discriminate|].
    intros [= <-]. reflexivity.
  - rewrite <- (rev_involutive c) at 1. rewrite fold_left_rev_right.
    apply endFold_balance, Forall_rev, IH.
Qed.

(** The two ends found by [findDiffEnd] differ by the difference of the
    sizes of the two documents. *)
Lemma findDiffEnd_balance (a b : Node) (endA endB : Z) :
  findDiffEnd a b = Some (endA, endB) ->
  endA - endB = fragSize (nodeContent a) - fragSize (nodeContent b).
Proof. intros H. apply findDiffEndIn_balance in H. exact H. Qed.

(** The window taken keeps the difference of the ends, and its start is
    not after either end. *)
Lemma chooseWindow_shape (fromDoc toDoc : Node) (start endA endB s a b : Z) :
  chooseWindow fromDoc toDoc start endA endB = Ok (s, a, b) ->
  s <= a /\ s <= b /\ a - b = endA - endB
  /\ (Z.min endA endB < start -> s = a \/ s = b).
Proof.
  unfold chooseWindow. cbv zeta.
  destruct (0 <? start - Z.min endA endB) eqn:Ho.
  - apply Z.ltb_lt in Ho.
    destruct (calculateBoundaryScore _ _ (start - _) _ _) as [sS|]; [|discriminate].
    destruct (calculateBoundaryScore _ _ start _ _) as [sE|]; [|discriminate].
    cbn [bind]. destruct (sE <? sS); intros [= <- <- <-]; lia.
  - apply Z.ltb_ge in Ho. intros [= <- <- <-]. lia.
Qed.

(** A replace step whose range is not inverted. *)
Definition isPlainReplace (s : Step) : Prop :=
  match s with
  | ReplaceStep from to _ => from <= to
  | _ => False
  end.

Lemma getReplaceStep_plain (fromDoc toDoc : Node) (st : Step) :
  getReplaceStep fromDoc toDoc = Ok (Some st) -> isPlainReplace st.
Proof.
  unfold getReplaceStep.
  destruct (findDiffStart toDoc fromDoc) as [start|]; [|discriminate].
  destruct (findDiffEnd toDoc fromDoc) as [[endA endB]|]; [|discriminate].
  destruct (chooseWindow fromDoc toDoc start endA endB) as [[[s a] b]|] eqn:Hw;
    [|discriminate].
  cbn [bind]. destruct (slice toDoc s a) as [sl|]; [|discriminate].
  cbn [bind]. intros [= <-].
  apply chooseWindow_shape in Hw as (_ & H & _). exact H.
Qed.

(** X6: [getReplaceStep] only ever builds a [ReplaceStep]; its range is not
    inverted, the slice it inserts is the slice of the target from the same
    start, and the end of the slice and the end of the range differ by the
    difference of the sizes of the two documents. *)
Theorem replace_step_window (fromDoc toDoc : Node) (st : Step) :
  getReplaceStep fromDoc toDoc = Ok (Some st) ->
  exists from to endA sl,
    st = ReplaceStep from to sl
    /\ slice toDoc from endA = Ok sl
    /\ from <= to /\ from <= endA
    /\ endA - to = fragSize (nodeContent toDoc) - fragSize (nodeContent fromDoc).
Proof.
  unfold getReplaceStep.
  destruct (findDiffStart toDoc fromDoc) as [start|]; [|discriminate].
  destruct (findDiffEnd toDoc fromDoc) as [[endA endB]|] eqn:He; [|discriminate].
  destruct (chooseWindow fromDoc toDoc start endA endB) as [[[s a] b]|] eqn:Hw;
    [|discriminate].
  cbn [bind]. destruct (slice toDoc s a) as [sl|] eqn:Hs; [|discriminate].
  cbn [bind]. intros [= <-].
  apply chooseWindow_shape in Hw as (H1 & H2 & H3 & _).
  apply findDiffEnd_balance in He.
  exists s, b, a, sl. repeat split; try assumption. lia.
Qed.

Lemma replace_step_window_witness :
  exists from to endA sl,
    getReplaceStep helloWorld helloThere = Ok (Some (ReplaceStep from to sl))
    /\ slice helloThere from endA = Ok sl
    /\ from <= to /\ from <= endA
    /\ endA - to = fragSize (nodeContent helloThere) - fragSize (nodeContent helloWorld).
Proof.
  destruct (replace_step_window helloWorld helloThere
              (ReplaceStep 7 12 (mkSlice [txt "there"] 0 0)) eq_refl)
    as (from & to & endA & sl & Hst & H).
  injection Hst as <- <- <-. exists 7, 12, endA, (mkSlice [txt "there"] 0 0).
  split; [reflexivity | exact H].
Defined.

(** X7: For an ambiguous window the step is a pure insertion or a pure
    deletion: when the target is not smaller than the source the range of
    the step is empty, and when it is not larger the slice is. *)
Theorem ambiguous_step_is_pure (fromDoc toDoc : Node)
  (start endA endB from to : Z) (sl : Slice) :
  findDiffStart toDoc fromDoc = Some start ->
  findDiffEnd toDoc fromDoc = Some (endA, endB) ->
  Z.min endA endB < start ->
  getReplaceStep fromDoc toDoc = Ok (Some (ReplaceStep from to sl)) ->
  (fragSize (nodeContent fromDoc) <= fragSize (nodeContent toDoc) -> from = to)
  /\ (fragSize (nodeContent toDoc) <= fragSize (nodeContent fromDoc) -> sl = emptySlice).
Proof.
  intros Hs He Ho. unfold getReplaceStep. rewrite Hs, He.
  destruct (chooseWindow fromDoc toDoc start endA endB) as [[[s a] b]|] eqn:Hw;
    [|discriminate].
  cbn [bind]. destruct (slice toDoc s a) as [sl'|] eqn:Hsl; [|discriminate].
  cbn [bind]. intros [= <- <- <-].
  apply chooseWindow_shape in Hw as (Ha & Hb & Hd & Hp).
  apply findDiffEnd_balance in He. specialize (Hp Ho).
  split; intros Hsize; [lia|].
  assert (s = a) as <- by lia.
  unfold slice in Hsl. rewrite Z.eqb_refl in Hsl. now injection Hsl as <-.
Qed.

Lemma ambiguous_step_is_pure_witness :
  getReplaceStep twoAs threeAs = Ok (Some (ReplaceStep 1 1 (mkSlice [txt "a"] 0 0)))
  /\ getReplaceStep threeAs twoAs = Ok (Some (ReplaceStep 1 2 emptySlice)).
Proof.
  split; [reflexivity|].
  assert (H : exists to sl, getReplaceStep threeAs twoAs = Ok (Some (ReplaceStep 1 to sl))
                            /\ to = 2).
  { do 2 eexists. split; reflexivity. }
  destruct H as (to & sl & H & ->).
  rewrite H. do 3 f_equal.
  apply (ambiguous_step_is_pure threeAs twoAs 3 1 2 1 2 sl); try reflexivity.
  - exact H.
  - vm_compute. discriminate.
Defined.

(** X8: [getReplaceStep] returns [false] exactly when the two documents have
    the same content; the root nodes themselves are not compared. *)
Theorem getReplaceStep_false_iff_same_content (fromDoc toDoc : Node) :
  wfNode fromDoc = true -> wfNode toDoc = true ->
  (getReplaceStep fromDoc toDoc = Ok None <-> nodeContent fromDoc = nodeContent toDoc).
Proof.
  intros Hf Ht. rewrite getReplaceStep_None_iff. split.
  - intros H. symmetry. now apply no_divergence_eq.
  - intros H. unfold findDiffStart. rewrite H.
    apply findDiffStartIn_None, alikeIn_refl.
Qed.

Lemma getReplaceStep_false_iff_same_content_witness :
  getReplaceStep (docIn "en" [paragraph [txt "a"]]) (docIn "fr" [paragraph [txt "a"]])
  = Ok None.
Proof.
  apply (proj2 (getReplaceStep_false_iff_same_content
                  (docIn "en" [paragraph [txt "a"]]) (docIn "fr" [paragraph [txt "a"]])
                  eq_refl eq_refl)).
  reflexivity.
Defined.

(* ================================================================== *)
(** * What decides between the two windows *)

(** Factors 1 to 4 of [calculateBoundaryScore], in tenths: the depths, the
    nodes after [start] and the nodes before it.  The end of the source
    range takes no part in them. *)
Definition boundaryFactors (fromDoc toDoc : Node) (start endA : Z) : Result Z :=
  rf <- resolve fromDoc start ;;
  rt <- resolve toDoc endA ;;
  let score := 0 - (depth rf + depth rt) * 2 * 10 in
  fromNode <- nodeAt fromDoc start ;;
  toNode <- nodeAt toDoc start ;;
  let score :=
    match fromNode, toNode with
    | Some f, Some t =>
        if node_eqb f t then score + 20 * 10
        else if sameMarkup f t then score + 5 * 10
        else score
    | _, _ => score
    end in
  if 0 <? start then
    rf' <- resolve fromDoc start ;;
    fromBefore <- nodeBefore rf' ;;
    rt' <- resolve toDoc start ;;
    toBefore <- nodeBefore rt' ;;
    match fromBefore, toBefore with
    | Some fb, Some tb => if sameType fb tb then Ok (score + 3 * 10) else Ok score
    | _, _ => Ok score
    end
  else Ok score.

Lemma calculateBoundaryScore_factors (fromDoc toDoc : Node) (start endA endB : Z) :
  calculateBoundaryScore fromDoc toDoc start endA endB
  = (score <- boundaryFactors fromDoc toDoc start endA ;;
     Ok (score - replacementSize start endA endB)).
Proof.
  unfold calculateBoundaryScore, boundaryFactors.
  destruct (resolve fromDoc start) as [rf|]; [|reflexivity].
  destruct (resolve toDoc endA) as [rt|]; [|reflexivity].
  destruct (nodeAt fromDoc start) as [fn|]; [|reflexivity].
  destruct (nodeAt toDoc start) as [tn|]; reflexivity.
Qed.

(** X9: The size penalty (factor 5) never decides between the two windows of
    an ambiguous divergence: both windows replace ranges of the same total
    size, so the choice is the comparison of factors 1 to 4 alone, and the
    end of the source range plays no part in it. *)
Theorem size_penalty_never_decides (fromDoc toDoc : Node) (start endA endB : Z) :
  let overlap := start - Z.min endA endB in
  0 < overlap ->
  chooseWindow fromDoc toDoc start endA endB
  = (factorsStart <- boundaryFactors fromDoc toDoc (start - overlap) endA ;;
     factorsEnd <- boundaryFactors fromDoc toDoc start (endA + overlap) ;;
     if factorsEnd <? factorsStart then Ok (start - overlap, endA, endB)
     else Ok (start, endA + overlap, endB + overlap)).
Proof.
  intros overlap Ho. unfold chooseWindow. fold overlap.
  apply Z.ltb_lt in Ho. rewrite Ho.
  rewrite !calculateBoundaryScore_factors.
  destruct (boundaryFactors fromDoc toDoc (start - overlap) endA) as [fS|]; [|reflexivity].
  destruct (boundaryFactors fromDoc toDoc start (endA + overlap)) as [fE|]; [|reflexivity].
  cbn [bind].
  assert (Hsz : replacementSize (start - overlap) endA endB
                = replacementSize start (endA + overlap) (endB + overlap)).
  { apply Z.ltb_lt in Ho. subst overlap. unfold replacementSize. lia. }
  rewrite Hsz.
  destruct (fE <? fS) eqn:Hc.
  - apply Z.ltb_lt in Hc.
    destruct (fE - _ <? fS - _) eqn:Hc'; [reflexivity | apply Z.ltb_ge in Hc'; lia].
  - apply Z.ltb_ge in Hc.
    destruct (fE - _ <? fS - _) eqn:Hc'; [apply Z.ltb_lt in Hc'; lia | reflexivity].
Qed.

Lemma size_penalty_never_decides_witness :
  boundaryFactors twoAs threeAs 1 2 = Ok 10
  /\ boundaryFactors twoAs threeAs 3 4 = Ok (-10)
  /\ chooseWindow twoAs threeAs 3 2 1 = Ok (1, 2, 1).
Proof.
  split; [reflexivity|]. split; [reflexivity|].
  rewrite (size_penalty_never_decides twoAs threeAs 3 2 1 eq_refl).
  reflexivity.
Defined.

(* ================================================================== *)
(** * What each mode can emit *)

(** No node of the subtree is inline. *)
Fixpoint noInline (n : Node) : bool :=
  match n with
  | Text _ _ => false
  | Elem ty _ _ c => negb (isInlineType ty) && forallb noInline c
  end.

Section ModeFacts.
Context {E : Env}.

Lemma allBody_replaces (tr tr' : Transform) (cur toDoc : Node) :
  allBody tr cur toDoc = Ok (Some tr') -> Extends isPlainReplace tr tr'.
Proof.
  unfold allBody. destruct (getReplaceStep cur toDoc) as [[s|]|] eqn:Hg; cbn [bind];
    try discriminate.
  destruct (maybeStep_cases tr s) as [(d & Ha & ->)|(f & _ & ->)]; [|discriminate].
  intros H; injection H as <-. apply appended_Extends; [assumption|].
  eapply getReplaceStep_plain; eauto.
Qed.

Lemma allLoop_replaces (toDoc : Node) (remaining : nat) :
  forall iterations tr cur n tr',
    allLoop toDoc remaining iterations tr cur = Ok (n, tr') ->
    Extends isPlainReplace tr tr'.
Proof.
  induction remaining as [|r IH]; cbn [allLoop]; intros iterations tr cur n tr' H.
  - injection H as <- <-. apply Extends_refl.
  - destruct (allBody tr cur toDoc) as [[tr1|]|] eqn:Hb; cbn [bind] in H;
      [| |discriminate].
    + eapply Extends_trans; [eapply allBody_replaces; eauto | eapply IH; eauto].
    + injection H as <- <-. apply Extends_refl.
Qed.

Lemma nodesBetweenLoop_no_inline (inner : Node -> Z -> Z -> Z -> Transform -> Result Transform)
  (l : Fragment) (from to nodeStart : Z) (tr : Transform) :
  Forall (fun x => forall from' to' start',
            to' <= fragSize (nodeContent x) ->
            inner x from' to' start' tr = Ok tr) l ->
  forallb noInline l = true ->
  forall pos, to <= pos + fragSize l ->
    nodesBetweenLoop reconcileTarget inner l from to nodeStart pos tr = Ok tr.
Proof.
  induction 1 as [|x r Hx _ IH]; intros Hn pos Hto.
  - apply nodesBetweenLoop_done. change (fragSize []) with 0 in Hto. lia.
  - cbn [forallb] in Hn. apply andb_true_iff in Hn as [Hnx Hnr].
    rewrite fragSize_cons in Hto. rewrite nodesBetweenLoop_cons.
    destruct (pos <? to); [|reflexivity].
    assert (Hrest : nodesBetweenLoop reconcileTarget inner r from to nodeStart
                      (pos + nodeSize x) tr = Ok tr) by (apply IH; [assumption | lia]).
    destruct (from <? pos + nodeSize x); [|cbn [bind]; exact Hrest].
    assert (Hcb : reconcileTarget x (nodeStart + pos) tr = Ok (true, tr)).
    { unfold reconcileTarget. destruct x as [t m | ty a m c]; [discriminate|].
      cbn [noInline] in Hnx. apply andb_true_iff in Hnx as [Hi _].
      cbn [isInline]. rewrite Hi. reflexivity. }
    rewrite Hcb. cbn [bind andb].
    destruct (negb (fragSize (nodeContent x) =? 0)); cbn [bind]; [|exact Hrest].
    rewrite Hx by lia. cbn [bind]. exact Hrest.
Qed.

Lemma nodesBetween_no_inline (n : Node) (tr : Transform) :
  forallb noInline (nodeContent n) = true ->
  forall from to start, to <= fragSize (nodeContent n) ->
    nodesBetween reconcileTarget n from to start tr = Ok tr.
Proof.
  induction n as [t m | ty a m c IH] using Node_ind'; intros Hn from to start Hto;
    rewrite nodesBetween_unfold; cbn [nodeContent] in *.
  - apply nodesBetweenLoop_done. change (fragSize []) with 0 in Hto. lia.
  - apply nodesBetweenLoop_no_inline; [|assumption|lia].
    rewrite Forall_forall in IH |- *. intros x Hin from' to' start' Hto'.
    apply IH; [assumption| |assumption].
    rewrite forallb_forall in Hn. specialize (Hn x Hin).
    destruct x as [t' m' | ty' a' m' c']; [discriminate|].
    cbn [noInline] in Hn. apply andb_true_iff in Hn as [_ Hn]. exact Hn.
Qed.

Lemma no_divergence_after_stripping (A B : Node) (w : bool) (tr : Transform) :
  nodeContent (removeMarks A) = nodeContent (removeMarks B) ->
  recreateStructuralSteps w A B tr = Ok tr.
Proof.
  intros Hc. unfold recreateStructuralSteps. cbv zeta.
  change MAX_ITERATIONS with (S 999).
  rewrite structuralLoop_break; [reflexivity|].
  unfold findDiffStart. rewrite Hc. apply findDiffStartIn_None, alikeIn_refl.
Qed.

(** X10: In simple mode every step of the reconstruction is a replace step
    whose range is not inverted: no mark step and no wrapping step is ever
    built. *)
Theorem simple_mode_only_replaces (A B : Node) (wordDiffs : option bool)
  (tr : Transform) :
  recreateTransform A B (mkOptions (Some false) wordDiffs (Some false)) = Ok tr ->
  Forall isPlainReplace (trSteps tr).
Proof.
  unfold recreateTransform, init.
  cbn [orDefault optComplexSteps optWordDiffs optSimplifyDiff].
  unfold recreateAllSteps.
  destruct (allLoop B MAX_ITERATIONS 0 (newTransform A) A) as [[n tr1]|] eqn:Hl;
    [|discriminate].
  cbn [bind]. destruct (MAX_ITERATIONS <=? n)%nat; [discriminate|].
  cbn [bind]. intros [= <-].
  apply allLoop_replaces in Hl as (l & Hs & _ & _ & Hf).
  rewrite Hs. exact Hf.
Qed.

(** X11: Two documents that differ in marks only: the detailed mode takes no
    structural step, so the reconstruction is the mark reconciler run on
    the untouched source, and every step of it adds or removes a mark. *)
Theorem marks_only_difference (A B : Node) (wordDiffs : option bool) :
  nodeContent (removeMarks A) = nodeContent (removeMarks B) ->
  recreateTransform A B (mkOptions (Some true) wordDiffs (Some false))
  = recreateChangeMarkSteps B (newTransform A)
  /\ (MarkStepsOnly ->
      forall tr,
        recreateTransform A B (mkOptions (Some true) wordDiffs (Some false)) = Ok tr ->
        Forall isMarkStep (trSteps tr)).
Proof.
  intros Hc.
  assert (Heq : recreateTransform A B (mkOptions (Some true) wordDiffs (Some false))
                = recreateChangeMarkSteps B (newTransform A)).
  { unfold recreateTransform, init.
    cbn [orDefault optComplexSteps optWordDiffs optSimplifyDiff].
    rewrite no_divergence_after_stripping by assumption. cbn [bind].
    destruct (recreateChangeMarkSteps B (newTransform A)); reflexivity. }
  split; [exact Heq|].
  intros Hm tr Hr. rewrite Heq in Hr.
  apply (recreateChangeMarkSteps_Extends Hm) in Hr as (l & Hs & _ & _ & Hf).
  rewrite Hs. exact Hf.
Qed.

(** X12: The mark reconciler looks at inline nodes only: for a target
    without inline nodes it leaves the transform as it is, whatever marks
    the nodes of the target and of the current document carry.  Marks in
    which the block nodes of two documents differ are not its business. *)
Theorem block_marks_are_not_reconciled (B : Node) (tr : Transform) :
  forallb noInline (nodeContent B) = true ->
  recreateChangeMarkSteps B tr = Ok tr.
Proof.
  intros Hn. unfold recreateChangeMarkSteps, descendants.
  apply nodesBetween_no_inline; [assumption | apply Z.le_refl].
Qed.

End ModeFacts.

Lemma simple_mode_only_replaces_witness :
  exists tr,
    @recreateTransform tokenEnv twoAs threeAs (mkOptions (Some false) None (Some false))
    = Ok tr
    /\ trSteps tr = [ReplaceStep 1 1 (mkSlice [txt "a"] 0 0)]
    /\ Forall isPlainReplace (trSteps tr).
Proof.
  eexists. split; [reflexivity|]. split; [reflexivity|].
  apply (@simple_mode_only_replaces tokenEnv twoAs threeAs None). reflexivity.
Defined.

Lemma marks_only_difference_witness :
  @recreateTransform tokenEnv (doc [paragraph [Text "Hello" [em]]])
    (doc [paragraph [Text "Hello" [strong]]]) detailedChars
  = Ok (mkTransform (doc [paragraph [Text "Hello" [em]]])
          (doc [paragraph [Text "Hello" [strong]]])
          [RemoveMarkStep 1 6 em; AddMarkStep 1 6 strong])
  /\ Forall isMarkStep [RemoveMarkStep 1 6 em; AddMarkStep 1 6 strong].
Proof.
  split; [reflexivity|].
  exact (proj2 (@marks_only_difference tokenEnv (doc [paragraph [Text "Hello" [em]]])
                  (doc [paragraph [Text "Hello" [strong]]]) (Some false) eq_refl)
           tokenEnv_marks_only _ eq_refl).
Defined.

Lemma block_marks_are_not_reconciled_witness :
  @recreateChangeMarkSteps tokenEnv (doc [Elem paragraphT [] [strong] []])
    (newTransform (doc [Elem paragraphT [] [em] []]))
  = Ok (newTransform (doc [Elem paragraphT [] [em] []])).
Proof.
  exact (@block_marks_are_not_reconciled tokenEnv (doc [Elem paragraphT [] [strong] []])
           (newTransform (doc [Elem paragraphT [] [em] []])) eq_refl).
Defined.

(* ================================================================== *)
(** * The positions found by the content diff *)

(** Leaves have no children. *)
Fixpoint properNode (n : Node) : bool :=
  match n with
  | Text _ _ => true
  | Elem ty _ _ c =>
      (if isLeafType ty then match c with [] => true | _ :: _ => false end else true)
      && forallb properNode c
  end.

Lemma properNode_content (n : Node) :
  properNode n = true -> forallb properNode (nodeContent n) = true.
Proof.
  destruct n as [t m | ty a m c]; cbn [properNode nodeContent]; [reflexivity|].
  intros H. apply andb_true_iff in H as [_ H]. exact H.
Qed.

(** The size of a proper node that is not text, in terms of its content. *)
Lemma properNode_size (n : Node) :
  properNode n = true -> isText n = false ->
  (isLeaf n = true /\ nodeSize n = 1 /\ fragSize (nodeContent n) = 0)
  \/ (isLeaf n = false /\ nodeSize n = 2 + fragSize (nodeContent n)).
Proof.
  destruct n as [t m | ty a m c]; [discriminate|].
  cbn [properNode isLeaf nodeSize nodeContent]. intros H _.
  apply andb_true_iff in H as [H _].
  destruct (isLeafType ty); [left | right; auto].
  destruct c; [auto | discriminate].
Qed.

Lemma commonPrefixLen_le (a b : string) :
  commonPrefixLen a b <= strlen a /\ commonPrefixLen a b <= strlen b.
Proof.
  revert b; induction a as [|c r IH]; intros [|c' r']; cbn [commonPrefixLen];
    unfold strlen in *; cbn [String.length]; try lia.
  destruct (Ascii.eqb c c'); [specialize (IH r')|]; lia.
Qed.

Lemma strlen_revString (s : string) : strlen (revString s) = strlen s.
Proof.
  unfold revString. rewrite <- !chars_length. unfold chars.
  rewrite list_ascii_of_string_of_list_ascii, length_rev. reflexivity.
Qed.

Lemma commonSuffixLen_bounds (a b : string) :
  0 <= commonSuffixLen a b
  /\ commonSuffixLen a b <= strlen a /\ commonSuffixLen a b <= strlen b.
Proof.
  unfold commonSuffixLen.
  pose proof (commonPrefixLen_nonneg (revString a) (revString b)).
  pose proof (commonPrefixLen_le (revString a) (revString b)) as [H1 H2].
  rewrite strlen_revString in H1, H2. lia.
Qed.

(** Nodes between which the scans find nothing have the same size. *)
Lemma alikePair_size (x y : Node) :
  (forall b, alikeIn x b = true -> fragSize (nodeContent x) = fragSize b) ->
  alikePair alikeIn x y = true -> nodeSize x = nodeSize y.
Proof.
  intros Hx. unfold alikePair. rewrite !andb_true_iff, negb_true_iff.
  intros [[Hm Ht] Hc]. apply sameMarkup_iff in Hm as (Hty & _ & _).
  destruct x as [tx mx | tyx ax mx cx], y as [ty' my | tyy ay my cy];
    cbn [SameType] in Hty; try contradiction.
  - unfold textDiffers in Ht. cbn [isText nodeText andb] in Ht.
    apply negb_false_iff, String.eqb_eq in Ht. now subst.
  - subst tyy. cbn [nodeSize]. destruct (isLeafType tyx); [reflexivity|].
    change (2 + fragSize cx = 2 + fragSize cy). f_equal.
    apply orb_true_iff in Hc as [Hc|Hc].
    + unfold hasContent in Hc. cbn [nodeContent] in Hc.
      apply negb_true_iff, orb_false_iff in Hc as [H1 H2].
      apply negb_false_iff, Z.eqb_eq in H1, H2. lia.
    + apply (Hx cy Hc).
Qed.

Lemma alikeLoop_size (a : Fragment) :
  Forall (fun x => forall b, alikeIn x b = true -> fragSize (nodeContent x) = fragSize b) a ->
  forall b, alikeLoop alikeIn a b = true -> fragSize a = fragSize b.
Proof.
  induction 1 as [|x ra Hx _ IH]; intros [|y rb]; cbn [alikeLoop]; try discriminate;
    [reflexivity|].
  intros H. apply andb_true_iff in H as [Hp Hl].
  rewrite !fragSize_cons, (alikePair_size x y Hx Hp), (IH rb Hl). reflexivity.
Qed.

Lemma alikeIn_size (a : Node) :
  forall b, alikeIn a b = true -> fragSize (nodeContent a) = fragSize b.
Proof.
  induction a as [t m | ty at' m c IH] using Node_ind'; intros b;
    rewrite alikeIn_unfold; cbn [nodeContent].
  - destruct b; [reflexivity | discriminate].
  - now apply alikeLoop_size.
Qed.

(** When the scan from the start goes on past a pair of children, the two
    have the same size. *)
Lemma passed_pair_size (x y : Node) :
  sameMarkup x y = true -> textDiffers x y = false ->
  (hasContent x y = true -> alikeIn x (nodeContent y) = true) ->
  nodeSize x = nodeSize y.
Proof.
  intros Hm Ht Hc. apply alikePair_size; [apply alikeIn_size|].
  unfold alikePair. rewrite Hm, Ht. cbn [andb negb].
  destruct (hasContent x y); [now rewrite Hc | reflexivity].
Qed.

(** A pair of proper nodes with the same markup, one of which has content:
    both are nodes with an opening and a closing position. *)
Lemma content_pair_size (x y : Node) :
  properNode x = true -> properNode y = true ->
  sameMarkup x y = true -> hasContent x y = true ->
  nodeSize x = 2 + fragSize (nodeContent x)
  /\ nodeSize y = 2 + fragSize (nodeContent y).
Proof.
  intros Hpx Hpy Hm Hc. apply sameMarkup_iff in Hm as (Hty & _ & _).
  destruct x as [tx mx | tyx ax mx cx], y as [ty' my | tyy ay my cy];
    cbn [SameType] in Hty; try contradiction; [discriminate Hc|].
  subst tyy. cbn [properNode] in Hpx, Hpy.
  apply andb_true_iff in Hpx as [Hpx _]. apply andb_true_iff in Hpy as [Hpy _].
  cbn [nodeSize nodeContent]. unfold hasContent in Hc. cbn [nodeContent] in Hc.
  destruct (isLeafType tyx); [|split; reflexivity].
  destruct cx; [|discriminate]. destruct cy; [|discriminate]. discriminate Hc.
Qed.

Lemma text_pair (x y : Node) :
  sameMarkup x y = true -> textDiffers x y = true ->
  nodeSize x = strlen (nodeText x) /\ nodeSize y = strlen (nodeText y).
Proof.
  intros Hm Ht. unfold textDiffers in Ht. apply andb_true_iff in Ht as [Ht _].
  destruct x as [tx mx | tyx ax mx cx]; [|discriminate].
  destruct y as [ty' my | tyy ay my cy]; [|discriminate]. split; reflexivity.
Qed.

Lemma findDiffStartLoop_bounds (a : Fragment) :
  Forall (fun x => forall b pos r,
            properNode x = true -> forallb properNode b = true ->
            findDiffStartIn x b pos = Some r ->
            pos <= r <= pos + fragSize (nodeContent x) /\ r <= pos + fragSize b) a ->
  forall b pos r,
    forallb properNode a = true -> forallb properNode b = true ->
    findDiffStartLoop findDiffStartIn a b pos = Some r ->
    pos <= r <= pos + fragSize a /\ r <= pos + fragSize b.
Proof.
  induction 1 as [|x ra Hx _ IH]; intros [|y rb] pos r Hpa Hpb; cbn [findDiffStartLoop].
  - discriminate.
  - intros [= <-]. pose proof (fragSize_nonneg (y :: rb)). change (fragSize []) with 0. lia.
  - intros [= <-]. pose proof (fragSize_nonneg (x :: ra)). change (fragSize []) with 0. lia.
  - cbn [forallb] in Hpa, Hpb.
    apply andb_true_iff in Hpa as [Hpx Hpa]. apply andb_true_iff in Hpb as [Hpy Hpb].
    rewrite !fragSize_cons.
    pose proof (fragSize_nonneg ra). pose proof (fragSize_nonneg rb).
    pose proof (nodeSize_nonneg x). pose proof (nodeSize_nonneg y).
    destruct (sameMarkup x y) eqn:Hm; cbn [negb]; [|intros [= <-]; lia].
    destruct (textDiffers x y) eqn:Ht.
    { intros [= <-].
      destruct (text_pair x y Hm Ht) as [-> ->].
      pose proof (commonPrefixLen_nonneg (nodeText x) (nodeText y)).
      pose proof (commonPrefixLen_le (nodeText x) (nodeText y)). lia. }
    assert (Hnext : (hasContent x y = true -> alikeIn x (nodeContent y) = true) ->
              findDiffStartLoop findDiffStartIn ra rb (pos + nodeSize x) = Some r ->
              pos <= r <= pos + (nodeSize x + fragSize ra)
              /\ r <= pos + (nodeSize y + fragSize rb)).
    { intros Hc Hr. rewrite <- (passed_pair_size x y Hm Ht Hc).
      apply IH in Hr; [lia | assumption | assumption]. }
    destruct (hasContent x y) eqn:Hc; [|apply Hnext; discriminate].
    destruct (findDiffStartIn x (nodeContent y) (pos + 1)) as [r'|] eqn:Hi.
    + intros [= <-].
      destruct (content_pair_size x y Hpx Hpy Hm Hc) as [-> ->].
      apply Hx in Hi; [lia | assumption | now apply properNode_content].
    + apply Hnext. intros _. now apply (findDiffStartIn_None x (nodeContent y) (pos + 1)).
Qed.

Lemma findDiffStartIn_bounds (a : Node) :
  forall b pos r,
    properNode a = true -> forallb properNode b = true ->
    findDiffStartIn a b pos = Some r ->
    pos <= r <= pos + fragSize (nodeContent a) /\ r <= pos + fragSize b.
Proof.
  induction a as [t m | ty at' m c IH] using Node_ind'; intros b pos r Hpa Hpb;
    rewrite findDiffStartIn_unfold; cbn [nodeContent].
  - apply findDiffStartLoop_bounds; [constructor | reflexivity | assumption].
  - apply findDiffStartLoop_bounds; [exact IH | now apply (properNode_content (Elem ty at' m c)) | assumption].
Qed.

Lemma fragSize_rev (l : Fragment) : fragSize (rev l) = fragSize l.
Proof.
  induction l as [|x l IH]; [reflexivity|].
  cbn [rev]. rewrite fragSize_app, !fragSize_cons, IH. change (fragSize []) with 0. lia.
Qed.

Lemma forallb_rev {A : Type} (p : A -> bool) (l : list A) :
  forallb p (rev l) = forallb p l.
Proof.
  induction l as [|x l IH]; [reflexivity|].
  cbn [rev forallb]. rewrite forallb_app, IH. cbn [forallb].
  rewrite andb_true_r. apply andb_comm.
Qed.

Lemma endFold_bounds (ra : Fragment) :
  Forall (fun x => forall b pa pb r,
            properNode x = true -> forallb properNode b = true ->
            findDiffEndIn x b pa pb = Some r ->
            pa - fragSize (nodeContent x) <= fst r <= pa
            /\ pb - fragSize b <= snd r <= pb) ra ->
  forall rb pa pb r,
    forallb properNode ra = true -> forallb properNode rb = true ->
    endResult (fold_left (fun st x => endStep findDiffEndIn x st) ra (Cont rb pa pb))
    = Some r ->
    pa - fragSize ra <= fst r <= pa /\ pb - fragSize rb <= snd r <= pb.
Proof.
  induction 1 as [|x l Hx _ IH]; intros rb pa pb r Hpa Hpb.
  { destruct rb as [|y rb]; cbn [fold_left endResult]; [discriminate|].
    intros [= <-]. pose proof (fragSize_nonneg (y :: rb)).
    change (fragSize []) with 0. cbn [fst snd]. lia. }
  cbn [fold_left endStep].
  pose proof (fragSize_nonneg (x :: l)) as Hnx.
  destruct rb as [|y rb].
  { rewrite endFold_Done. cbn [endResult]. intros [= <-].
    change (fragSize []) with 0. cbn [fst snd]. lia. }
  cbn [forallb] in Hpa, Hpb.
  apply andb_true_iff in Hpa as [Hpx Hpa]. apply andb_true_iff in Hpb as [Hpy Hpb].
  rewrite !fragSize_cons in *.
  pose proof (fragSize_nonneg l). pose proof (fragSize_nonneg rb).
  pose proof (nodeSize_nonneg x). pose proof (nodeSize_nonneg y).
  cbv zeta.
  destruct (sameMarkup x y) eqn:Hm; cbn [negb];
    [|rewrite endFold_Done; cbn [endResult]; intros [= <-]; cbn [fst snd]; lia].
  destruct (textDiffers x y) eqn:Ht.
  { rewrite endFold_Done. cbn [endResult]. intros [= <-]. cbn [fst snd].
    destruct (text_pair x y Hm Ht) as [-> ->].
    pose proof (commonSuffixLen_bounds (nodeText x) (nodeText y)). lia. }
  assert (Hnext : (hasContent x y = true -> alikeIn x (nodeContent y) = true) ->
            endResult (fold_left (fun st x0 => endStep findDiffEndIn x0 st) l
                         (Cont rb (pa - nodeSize x) (pb - nodeSize x))) = Some r ->
            pa - (nodeSize x + fragSize l) <= fst r <= pa
            /\ pb - (nodeSize y + fragSize rb) <= snd r <= pb).
  { intros Hc Hr. rewrite <- (passed_pair_size x y Hm Ht Hc).
    apply IH in Hr; [lia | assumption | assumption]. }
  destruct (hasContent x y) eqn:Hc; [|apply Hnext; discriminate].
  destruct (findDiffEndIn x (nodeContent y) (pa - 1) (pb - 1)) as [r'|] eqn:Hi.
  - rewrite endFold_Done. cbn [endResult]. intros [= <-].
    destruct (content_pair_size x y Hpx Hpy Hm Hc) as [-> ->].
    apply Hx in Hi; [lia | assumption | now apply properNode_content].
  - apply Hnext. intros _. now apply (findDiffEndIn_None x (nodeContent y) (pa - 1) (pb - 1)).
Qed.

Lemma findDiffEndIn_bounds (a : Node) :
  forall b pa pb r,
    properNode a = true -> forallb properNode b = true ->
    findDiffEndIn a b pa pb = Some r ->
    pa - fragSize (nodeContent a) <= fst r <= pa /\ pb - fragSize b <= snd r <= pb.
Proof.
  induction a as [t m | ty at' m c IH] using Node_ind'; intros b pa pb r Hpa Hpb;
    rewrite findDiffEndIn_unfold; unfold findDiffEndLoop, rev'; rewrite <- rev_alt;
    cbn [nodeContent].
  - cbn [fold_right]. destruct (rev b) as [|y rb] eqn:Hb; cbn [endResult]; [discriminate|].
    intros [= <-]. pose proof (fragSize_nonneg b). change (fragSize []) with 0.
    cbn [fst snd]. lia.
  - rewrite <- (rev_involutive c) at 1. rewrite fold_left_rev_right.
    intros H. apply endFold_bounds in H.
    + rewrite !fragSize_rev in H. exact H.
    + apply Forall_rev, IH.
    + rewrite forallb_rev. now apply (properNode_content (Elem ty at' m c)).
    + now rewrite forallb_rev.
Qed.

(** The positions found by the two scans are positions of both documents. *)
Lemma diff_positions_in_range (a b : Node) (start endA endB : Z) :
  properNode a = true -> properNode b = true ->
  findDiffStart a b = Some start -> findDiffEnd a b = Some (endA, endB) ->
  0 <= start <= fragSize (nodeContent a) /\ start <= fragSize (nodeContent b)
  /\ 0 <= endA <= fragSize (nodeContent a) /\ 0 <= endB <= fragSize (nodeContent b).
Proof.
  intros Ha Hb Hs He.
  apply findDiffStartIn_bounds in Hs; [|assumption | now apply properNode_content].
  apply findDiffEndIn_bounds in He; [|assumption | now apply properNode_content].
  cbn [fst snd] in He. lia.
Qed.

(* ================================================================== *)
(** * The boundary resolver never throws on proper documents *)

Lemma maybeChild_at (pre : Fragment) (cur : Node) (post : Fragment) :
  maybeChild (pre ++ cur :: post) (Z.of_nat (List.length pre)) = Some cur.
Proof.
  unfold maybeChild.
  destruct (Z.of_nat (List.length pre) <? 0) eqn:H; [apply Z.ltb_lt in H; lia|].
  rewrite Nat2Z.id, nth_error_app2, Nat.sub_diag by apply Nat.le_refl. reflexivity.
Qed.

Lemma maybeChild_before (pre post : Fragment) :
  pre <> [] ->
  exists ch, maybeChild (pre ++ post) (Z.of_nat (List.length pre) - 1) = Some ch.
Proof.
  intros Hne. destruct (exists_last Hne) as (pre' & x & ->).
  exists x. rewrite <- app_assoc. cbn [app].
  rewrite length_app. cbn [List.length].
  replace (Z.of_nat (List.length pre' + 1) - 1) with (Z.of_nat (List.length pre')) by lia.
  apply maybeChild_at.
Qed.

Lemma nodeBefore_last (p : Z) (e : PathEntry) (rest : list PathEntry) (po po' : Z) :
  rest <> [] ->
  nodeBefore (mkResolved p (e :: rest) po) = nodeBefore (mkResolved p rest po').
Proof.
  intros Hne. unfold nodeBefore, parent, lastEntry. cbn [rpPos rpPath].
  destruct rest; [congruence | reflexivity].
Qed.

Lemma resolveLoop_nodeBefore (node : Node) :
  forall pos start path po,
    0 <= pos <= fragSize (nodeContent node) ->
    resolveLoop node pos start = Ok (path, po) ->
    exists r, nodeBefore (mkResolved (start + pos) path po) = Ok r.
Proof.
  induction node as [t m | ty a m c IH] using Node_ind'; intros pos start path po Hr;
    cbn [resolveLoop nodeContent] in *.
  - change (fragSize []) with 0 in Hr. assert (pos = 0) as -> by lia.
    intros [= <- <-]. unfold nodeBefore, parent, lastEntry.
    cbn [rpPos rpPath last peOffset peIndex].
    rewrite Z.sub_diag. cbn [Z.eqb negb]. eexists; reflexivity.
  - destruct (withChild_cases c pos Hr)
      as [(pre & cur & post & Hc & Hin & Hb & Hw)|(pre & post & Hc & Hb & Hw)];
      rewrite Hw; cbv zeta.
    + destruct (pos - fragSize pre =? 0) eqn:Hrem; [apply Z.eqb_eq in Hrem; lia|].
      destruct (isText cur) eqn:Ht.
      * intros [= <- <-]. unfold nodeBefore, parent, lastEntry.
        cbn [rpPos rpPath last peOffset peIndex peNode nodeContent].
        replace (start + pos - (start + fragSize pre)) with (pos - fragSize pre) by lia.
        rewrite Hrem. cbn [negb]. rewrite Hc, maybeChild_at. eexists; reflexivity.
      * destruct (resolveLoop cur (pos - fragSize pre - 1) (start + fragSize pre + 1))
          as [[rest po']|] eqn:Hrest; [|discriminate].
        cbn [bind]. intros [= <- <-].
        pose proof (inside_child_range cur (fragSize pre) pos Ht Hb) as Hrange.
        replace (pos - (fragSize pre + 1)) with (pos - fragSize pre - 1) in Hrange by lia.
        destruct (resolveLoop_in_range cur _ (start + fragSize pre + 1) Hrange)
          as (p' & po'' & Hp' & Hne).
        rewrite Hrest in Hp'. injection Hp' as <- <-.
        rewrite (nodeBefore_last _ _ rest po' po') by assumption.
        rewrite Forall_forall in IH.
        destruct (IH cur Hin _ _ _ _ Hrange Hrest) as (r & Hr').
        replace (start + fragSize pre + 1 + (pos - fragSize pre - 1)) with (start + pos)
          in Hr' by lia.
        eauto.
    + assert (Hgo : exists r,
                nodeBefore
                  (mkResolved (start + pos)
                     [mkEntry (Elem ty a m c) (Z.of_nat (List.length pre)) (start + pos)] pos)
                = Ok r).
      { unfold nodeBefore, parent, lastEntry.
        cbn [rpPos rpPath last peOffset peIndex peNode nodeContent].
        rewrite Z.sub_diag. cbn [Z.eqb negb].
        destruct (Z.of_nat (List.length pre) =? 0) eqn:H0; [eexists; reflexivity|].
        assert (Hne : pre <> []) by (intros ->; discriminate H0).
        rewrite Hc. destruct (maybeChild_before pre post Hne) as (ch & ->).
        eexists; reflexivity. }
      rewrite Z.sub_diag. cbn [Z.eqb].
      destruct post; intros [= <- <-]; exact Hgo.
Qed.

Lemma nodeBefore_total (doc : Node) (pos : Z) (rp : ResolvedPos) :
  resolve doc pos = Ok rp -> exists r, nodeBefore rp = Ok r.
Proof.
  unfold resolve.
  destruct ((0 <=? pos) && (pos <=? fragSize (nodeContent doc))) eqn:Hr;
    cbn [negb]; [|discriminate].
  apply andb_true_iff in Hr as [H1 H2]. apply Z.leb_le in H1, H2.
  destruct (resolveLoop doc pos 0) as [[path po]|] eqn:Hp; [|discriminate].
  cbn [bind]. intros [= <-].
  apply resolveLoop_nodeBefore in Hp; [|lia]. exact Hp.
Qed.

Lemma calculateBoundaryScore_total (fromDoc toDoc : Node) (start endA endB : Z) :
  0 <= start <= fragSize (nodeContent fromDoc) ->
  start <= fragSize (nodeContent toDoc) ->
  0 <= endA <= fragSize (nodeContent toDoc) ->
  exists score, calculateBoundaryScore fromDoc toDoc start endA endB = Ok score.
Proof.
  intros Hf Ht Ha. rewrite calculateBoundaryScore_factors. unfold boundaryFactors.
  destruct (resolve_in_range fromDoc start Hf) as (rf & Hrf & _).
  destruct (resolve_in_range toDoc endA Ha) as (rt & Hrt & _).
  destruct (resolve_in_range toDoc start) as (rt' & Hrt' & _); [lia|].
  destruct (nodeAt_in_range fromDoc start Hf) as (fn & Hfn).
  destruct (nodeAt_in_range toDoc start) as (tn & Htn); [lia|].
  destruct (nodeBefore_total _ _ _ Hrf) as (fb & Hfb).
  destruct (nodeBefore_total _ _ _ Hrt') as (tb & Htb).
  rewrite Hrf, Hrt, Hfn, Htn. cbn [bind]. rewrite Hrt'. cbn [bind].
  rewrite Hfb, Htb. cbn [bind].
  destruct (0 <? start); [|eexists; reflexivity].
  destruct fb as [fb|], tb as [tb|]; try (eexists; reflexivity).
  destruct (sameType fb tb); eexists; reflexivity.
Qed.

Lemma slice_total (doc : Node) (from to : Z) :
  0 <= from <= fragSize (nodeContent doc) -> 0 <= to <= fragSize (nodeContent doc) ->
  exists sl, slice doc from to = Ok sl.
Proof.
  intros Hf Ht. unfold slice. destruct (from =? to); [eexists; reflexivity|].
  destruct (resolve_in_range doc from Hf) as (rf & -> & _).
  destruct (resolve_in_range doc to Ht) as (rt & -> & _).
  cbn [bind]. eexists; reflexivity.
Qed.

(** The window taken lies inside both documents. *)
Lemma chooseWindow_total (fromDoc toDoc : Node) (start endA endB : Z) :
  properNode fromDoc = true -> properNode toDoc = true ->
  findDiffStart toDoc fromDoc = Some start ->
  findDiffEnd toDoc fromDoc = Some (endA, endB) ->
  exists s a b,
    chooseWindow fromDoc toDoc start endA endB = Ok (s, a, b)
    /\ 0 <= s <= a /\ a <= fragSize (nodeContent toDoc)
    /\ s <= b /\ b <= fragSize (nodeContent fromDoc).
Proof.
  intros Hpf Hpt Hs He.
  destruct (diff_positions_in_range toDoc fromDoc start endA endB Hpt Hpf Hs He)
    as (Hs1 & Hs2 & Ha & Hb).
  pose proof (findDiffEnd_balance _ _ _ _ He) as Hbal.
  unfold chooseWindow. cbv zeta.
  destruct (0 <? start - Z.min endA endB) eqn:Ho.
  - apply Z.ltb_lt in Ho.
    destruct (calculateBoundaryScore_total fromDoc toDoc
                (start - (start - Z.min endA endB)) endA endB) as (sS & ->); try lia.
    destruct (calculateBoundaryScore_total fromDoc toDoc start
                (endA + (start - Z.min endA endB)) (endB + (start - Z.min endA endB)))
      as (sE & ->); try lia.
    cbn [bind]. destruct (sE <? sS); do 3 eexists; (split; [reflexivity|]); lia.
  - apply Z.ltb_ge in Ho. do 3 eexists. split; [reflexivity|]. lia.
Qed.

Lemma getReplaceStep_Ok (fromDoc toDoc : Node) :
  properNode fromDoc = true -> properNode toDoc = true ->
  exists r, getReplaceStep fromDoc toDoc = Ok r.
Proof.
  intros Hpf Hpt. unfold getReplaceStep.
  destruct (findDiffStart toDoc fromDoc) as [start|] eqn:Hs; [|eexists; reflexivity].
  destruct (findDiffEnd_of_start _ _ _ Hs) as ([endA endB] & He). rewrite He.
  destruct (chooseWindow_total fromDoc toDoc start endA endB Hpf Hpt Hs He)
    as (s & a & b & -> & Hsa & Hat & _).
  cbn [bind]. destruct (slice_total toDoc s a) as (sl & ->); try lia.
  eexists; reflexivity.
Qed.

(** X13: on documents whose leaves have no children [getReplaceStep] never
    throws: every position it resolves, looks up or slices at lies inside
    the document it is used on, and a divergence found from the start is
    always found from the end as well.  The step it returns addresses a
    range of the source document. *)
Theorem getReplaceStep_never_throws (fromDoc toDoc : Node) :
  properNode fromDoc = true -> properNode toDoc = true ->
  exists r,
    getReplaceStep fromDoc toDoc = Ok r
    /\ forall from to sl,
         r = Some (ReplaceStep from to sl) ->
         0 <= from <= to /\ to <= fragSize (nodeContent fromDoc).
Proof.
  intros Hpf Hpt. unfold getReplaceStep.
  destruct (findDiffStart toDoc fromDoc) as [start|] eqn:Hs;
    [|eexists; split; [reflexivity | discriminate]].
  destruct (findDiffEnd_of_start _ _ _ Hs) as ([endA endB] & He). rewrite He.
  destruct (chooseWindow_total fromDoc toDoc start endA endB Hpf Hpt Hs He)
    as (s & a & b & -> & Hsa & Hat & Hsb & Hbf).
  cbn [bind].
  destruct (slice_total toDoc s a) as (sl & ->); try lia.
  cbn [bind]. eexists. split; [reflexivity|].
  intros from to sl' [= <- <- <-]. lia.
Qed.

Lemma getReplaceStep_never_throws_witness :
  exists r,
    getReplaceStep twoAs threeAs = Ok r
    /\ forall from to sl,
         r = Some (ReplaceStep from to sl) ->
         0 <= from <= to /\ to <= fragSize (nodeContent twoAs).
Proof.
  exact (getReplaceStep_never_throws twoAs threeAs eq_refl eq_refl).
Defined.

(* ================================================================== *)
(** * The errors of the two loops *)

(** What the step application engine promises about the documents it
    builds: their leaves have no children, and the root stays a node with
    content. *)
Definition EngineKeepsProper {E : Env} : Prop :=
  forall s d d',
    properNode d = true -> isLeaf d = false -> applyStep s d = StepOk d' ->
    properNode d' = true /\ isLeaf d' = false.

Section ErrorFacts.
Context {E : Env}.

(** X14: in an iteration of the detailed mode on documents whose leaves
    have no children the classifier never throws: a divergence found from
    the start has an end, both lie inside both documents, and the iteration
    is [applyDiff] on the record of [classifyDiff]. *)
Theorem structural_iteration_classifies (wordDiffs : bool) (tr : Transform)
  (currentDoc toDocNoMarks : Node) (start : Z) :
  properNode currentDoc = true -> properNode toDocNoMarks = true ->
  findDiffStart toDocNoMarks currentDoc = Some start ->
  exists endTo endFrom diff,
    findDiffEnd toDocNoMarks currentDoc = Some (endTo, endFrom)
    /\ classifyDiff currentDoc toDocNoMarks start endFrom endTo = Ok diff
    /\ structuralBody wordDiffs tr currentDoc toDocNoMarks
       = (tr' <- applyDiff wordDiffs tr diff currentDoc toDocNoMarks ;; Ok (Some tr')).
Proof.
  intros Hpc Hpt Hs.
  destruct (findDiffEnd_of_start _ _ _ Hs) as ([endTo endFrom] & He).
  destruct (diff_positions_in_range toDocNoMarks currentDoc start endTo endFrom
              Hpt Hpc Hs He) as (Hs1 & Hs2 & _).
  destruct (classifyDiff_in_range_Ok currentDoc toDocNoMarks start endFrom endTo)
    as (diff & Hd); try lia.
  exists endTo, endFrom, diff. repeat split; try assumption.
  unfold structuralBody. rewrite Hs, He, Hd. reflexivity.
Qed.

Lemma allLoop_errors (toDoc : Node) (remaining : nat) :
  EngineKeepsProper -> properNode toDoc = true ->
  forall iterations tr,
    properNode (trDoc tr) = true -> isLeaf (trDoc tr) = false ->
    (exists n tr', allLoop toDoc remaining iterations tr (trDoc tr) = Ok (n, tr'))
    \/ (exists failed,
          allLoop toDoc remaining iterations tr (trDoc tr)
          = Throw (replaceStepFailed failed)).
Proof.
  intros Hk Hpt. induction remaining as [|r IH]; intros iterations tr Hp Hl;
    cbn [allLoop]; [left; eauto|].
  unfold allBody.
  destruct (getReplaceStep_Ok (trDoc tr) toDoc Hp Hpt) as ([s|] & ->); cbn [bind];
    [|left; eauto].
  destruct (maybeStep_cases tr s) as [(d & Ha & ->)|(f & _ & ->)]; cbn [bind];
    [|right; eauto].
  destruct (Hk s (trDoc tr) d Hp Hl Ha) as [Hp' Hl'].
  apply (IH (S iterations) (mkTransform (trBefore tr) d (trSteps tr ++ [s])) Hp' Hl').
Qed.

(** X15: with an engine that builds proper documents and a simplifier that
    keeps its contract, the simple mode can fail in two ways only: with the
    error for a rejected replace step or with the error of the iteration
    cap.  No position lookup of [getReplaceStep] ever throws. *)
Theorem simple_mode_errors (A B : Node) (options : Options) :
  EngineKeepsProper -> SimplifierContract ->
  properNode A = true -> isLeaf A = false -> properNode B = true ->
  optComplexSteps options = Some false ->
  (exists tr, recreateTransform A B options = Ok tr)
  \/ recreateTransform A B options = Throw maxIterationsAll
  \/ (exists failed, recreateTransform A B options = Throw (replaceStepFailed failed)).
Proof.
  intros Hk Hsc HpA HlA HpB Hopt. unfold recreateTransform, init. rewrite Hopt.
  cbn [orDefault]. unfold recreateAllSteps.
  destruct (allLoop_errors B MAX_ITERATIONS Hk HpB 0 (newTransform A) HpA HlA)
    as [(n & tr' & Hl)|(failed & Hl)]; cbn [newTransform trDoc] in Hl; rewrite Hl;
    cbn [bind]; [|right; right; eauto].
  destruct (MAX_ITERATIONS <=? n)%nat; cbn [bind]; [right; left; reflexivity|].
  left. destruct (orDefault (optSimplifyDiff options) true); [|eauto].
  assert (Hv : Valid tr').
  { apply (allLoop_exit B MAX_ITERATIONS 0 (newTransform A)) in Hl as [Hg _].
    eapply Extends_Valid; [|exact Hg]. reflexivity. }
  destruct (Hsc tr' Hv) as (r & -> & _). cbn [bind]. destruct r; eauto.
Qed.

End ErrorFacts.

Lemma structural_iteration_classifies_witness :
  exists endTo endFrom diff,
    findDiffEnd helloThere helloWorld = Some (endTo, endFrom)
    /\ classifyDiff helloWorld helloThere 7 endFrom endTo = Ok diff
    /\ @structuralBody tokenEnv false (newTransform helloWorld) helloWorld helloThere
       = (tr' <- @applyDiff tokenEnv false (newTransform helloWorld) diff
                   helloWorld helloThere ;; Ok (Some tr')).
Proof.
  exact (@structural_iteration_classifies tokenEnv false (newTransform helloWorld)
           helloWorld helloThere 7 eq_refl eq_refl eq_refl).
Defined.

(** ** The token engine builds proper documents *)

Definition okToken (t : Token) : bool :=
  match t with
  | TOpen ty _ _ => negb (isLeafType ty)
  | _ => true
  end.

Definition okFrame (f : Frame) : bool :=
  let '(ty, _, _, up) := f in negb (isLeafType ty) && forallb properNode up.

Lemma tokensOf_ok (n : Node) : forallb okToken (tokensOf n) = true.
Proof.
  induction n as [t m | ty a m c IH] using Node_ind'; cbn [tokensOf].
  - induction (list_ascii_of_string t); [reflexivity | assumption].
  - destruct (isLeafType ty) eqn:Hl; [reflexivity|].
    cbn [forallb okToken]. rewrite Hl. cbn [negb andb].
    rewrite forallb_app. cbn [forallb okToken]. rewrite andb_true_r.
    induction IH as [|x r Hx _ IHr]; [reflexivity|].
    cbn [flat_map]. rewrite forallb_app, Hx, IHr. reflexivity.
Qed.

Lemma tokensOfFrag_ok (f : Fragment) : forallb okToken (tokensOfFrag f) = true.
Proof.
  unfold tokensOfFrag. induction f as [|x r IH]; [reflexivity|].
  cbn [flat_map]. rewrite forallb_app, tokensOf_ok, IH. reflexivity.
Qed.

Lemma forallb_firstn_skipn {A : Type} (p : A -> bool) (n : nat) (l : list A) :
  forallb p l = true ->
  forallb p (firstn n l) = true /\ forallb p (skipn n l) = true.
Proof.
  intros H. rewrite <- (firstn_skipn n l), forallb_app in H.
  now apply andb_true_iff in H.
Qed.

Lemma forallb_firstn {A : Type} (p : A -> bool) (n : nat) (l : list A) :
  forallb p l = true -> forallb p (firstn n l) = true.
Proof. intros H. now apply forallb_firstn_skipn. Qed.

Lemma forallb_skipn {A : Type} (p : A -> bool) (n : nat) (l : list A) :
  forallb p l = true -> forallb p (skipn n l) = true.
Proof. intros H. now apply forallb_firstn_skipn. Qed.

Lemma sliceRange_ok (ts : list Token) (from to : Z) :
  forallb okToken ts = true -> forallb okToken (sliceRange ts from to) = true.
Proof. intros H. unfold sliceRange. now apply forallb_firstn, forallb_skipn. Qed.

Lemma sliceTokens_ok (sl : Slice) : forallb okToken (sliceTokens sl) = true.
Proof. unfold sliceTokens. apply sliceRange_ok, tokensOfFrag_ok. Qed.

Lemma mapRange_ok (g : list Mark -> list Mark) (ts : list Token) (from to : Z) :
  forallb okToken ts = true ->
  forallb okToken (mapRange (mapTokenMarks g) ts from to) = true.
Proof.
  intros H. unfold mapRange. rewrite !forallb_app.
  rewrite forallb_firstn, forallb_skipn by assumption. rewrite andb_true_r. cbn [andb].
  pose proof (sliceRange_ok ts from to H) as Hs.
  induction (sliceRange ts from to) as [|t r IH]; [reflexivity|].
  cbn [forallb map] in *. apply andb_true_iff in Hs as [Ht Hr].
  rewrite (IH Hr), andb_true_r.
  destruct t as [ty a m| |ty a m|c m]; cbn [mapTokenMarks]; try assumption.
  destruct (isInlineType ty); reflexivity.
Qed.

Lemma pushChar_proper (c : ascii) (m : list Mark) (cur : Fragment) :
  forallb properNode cur = true -> forallb properNode (pushChar c m cur) = true.
Proof.
  intros H. unfold pushChar. destruct cur as [|[t m'|ty a m' cc] r]; [reflexivity| |].
  - destruct (sameSet m m'); cbn [forallb properNode] in *; assumption.
  - cbn [forallb properNode] in *. assumption.
Qed.

Lemma parseTokens_proper (ts : list Token) :
  forallb okToken ts = true ->
  forall stack cur c,
    forallb okFrame stack = true -> forallb properNode cur = true ->
    parseTokens ts stack cur = Some c -> forallb properNode c = true.
Proof.
  induction ts as [|t ts IH]; intros Hok stack cur c Hst Hcur; cbn [parseTokens].
  - destruct stack; [|discriminate]. intros [= <-].
    unfold rev'. rewrite <- rev_alt, forallb_rev. exact Hcur.
  - cbn [forallb] in Hok. apply andb_true_iff in Hok as [Ht Hok].
    destruct t as [ty a m| |ty a m|ch m].
    + apply IH; [assumption| |reflexivity].
      cbn [forallb okFrame]. cbn [okToken] in Ht. now rewrite Ht, Hcur, Hst.
    + destruct stack as [|[[[ty a] m] up] stack']; [discriminate|].
      cbn [forallb okFrame] in Hst.
      apply andb_true_iff in Hst as [Hf Hst]. apply andb_true_iff in Hf as [Hty Hup].
      apply IH; [assumption | assumption|].
      cbn [forallb properNode]. apply negb_true_iff in Hty. rewrite Hty, Hup.
      unfold rev'. rewrite <- rev_alt, forallb_rev, Hcur. reflexivity.
    + apply IH; [assumption | assumption|].
      cbn [forallb properNode]. rewrite Hcur.
      destruct (isLeafType ty); reflexivity.
    + apply IH; [assumption | assumption|]. now apply pushChar_proper.
Qed.

Lemma reparse_proper (d d' : Node) (ts : list Token) :
  isLeaf d = false -> forallb okToken ts = true ->
  reparse d ts = StepOk d' -> properNode d' = true /\ isLeaf d' = false.
Proof.
  intros Hl Hok. unfold reparse.
  destruct (parseTokens ts [] []) as [c|] eqn:Hp; [|discriminate].
  intros [= <-]. apply parseTokens_proper in Hp; try reflexivity; [|assumption].
  destruct d as [t m | ty a m c0]; [discriminate|].
  cbn [withContent properNode isLeaf] in *. rewrite Hl, Hp. auto.
Qed.

Lemma tokenEnv_keeps_proper : @EngineKeepsProper tokenEnv.
Proof.
  intros s d d' _ Hl. cbn [applyStep tokenEnv]. unfold tokenApplyStep. cbv zeta.
  pose proof (tokensOfFrag_ok (nodeContent d)) as Hts.
  destruct s as [from to sl | from to gf gt sl ins | from to m | from to m].
  - destruct (inRange d from to); [|discriminate].
    destruct (resolve d from) as [rfrom|]; [|discriminate].
    destruct (resolve d to) as [rto|]; [|discriminate].
    destruct (depth rfrom <? openStart sl); [discriminate|].
    destruct (negb (depth rfrom - openStart sl =? depth rto - openEnd sl)); [discriminate|].
    apply reparse_proper; [assumption|].
    rewrite !forallb_app, forallb_firstn, forallb_skipn, sliceTokens_ok by assumption.
    reflexivity.
  - destruct (_ && _); [|discriminate].
    apply reparse_proper; [assumption|].
    rewrite !forallb_app.
    rewrite !forallb_firstn, !forallb_skipn, sliceRange_ok
      by (assumption || apply sliceTokens_ok).
    reflexivity.
  - destruct (inRange d from to); [|discriminate].
    apply reparse_proper; [assumption | now apply mapRange_ok].
  - destruct (inRange d from to); [|discriminate].
    apply reparse_proper; [assumption | now apply mapRange_ok].
Qed.

Lemma simple_mode_errors_witness :
  (exists tr, @recreateTransform tokenEnv helloWorld helloThere simpleChars = Ok tr)
  \/ @recreateTransform tokenEnv helloWorld helloThere simpleChars = Throw maxIterationsAll
  \/ (exists failed,
        @recreateTransform tokenEnv helloWorld helloThere simpleChars
        = Throw (replaceStepFailed failed)).
Proof.
  exact (@simple_mode_errors tokenEnv helloWorld helloThere simpleChars
           tokenEnv_keeps_proper tokenEnv_simplifier eq_refl eq_refl eq_refl eq_refl).
Defined.

(* ================================================================== *)
(** * The window of the replace step is right *)

(** The positions of a document as a flat sequence: [tokensOfFrag] has one
    token per position. *)
Lemma tokensOf_length (n : Node) : Z.of_nat (List.length (tokensOf n)) = nodeSize n.
Proof.
  induction n as [t m | ty a m c IH] using Node_ind'; cbn [tokensOf nodeSize].
  - rewrite length_map. apply chars_length.
  - destruct (isLeafType ty); [reflexivity|].
    cbn [List.length]. rewrite length_app. cbn [List.length].
    assert (Hc : Z.of_nat (List.length (flat_map tokensOf c)) = sumZ (map nodeSize c)).
    { induction IH as [|x r Hx _ IHr]; [reflexivity|].
      cbn [flat_map map sumZ fold_right]. rewrite length_app, Nat2Z.inj_add, Hx.
      fold (sumZ (map nodeSize r)). lia. }
    lia.
Qed.

Lemma tokensOfFrag_cons (x : Node) (r : Fragment) :
  tokensOfFrag (x :: r) = tokensOf x ++ tokensOfFrag r.
Proof. reflexivity. Qed.

Lemma tokensOfFrag_app (a b : Fragment) :
  tokensOfFrag (a ++ b) = tokensOfFrag a ++ tokensOfFrag b.
Proof. unfold tokensOfFrag. apply flat_map_app. Qed.

Lemma tokensOfFrag_length (f : Fragment) :
  Z.of_nat (List.length (tokensOfFrag f)) = fragSize f.
Proof.
  induction f as [|x r IH]; [reflexivity|].
  rewrite tokensOfFrag_cons, length_app, Nat2Z.inj_add, tokensOf_length, IH, fragSize_cons.
  reflexivity.
Qed.

Lemma tokensOfFrag_empty (f : Fragment) : fragSize f = 0 -> tokensOfFrag f = [].
Proof.
  intros H. rewrite <- tokensOfFrag_length in H.
  destruct (tokensOfFrag f); [reflexivity | cbn [List.length] in H; lia].
Qed.

(** Nodes between which the scans find nothing cover the same positions. *)
Lemma alikePair_tokens (x y : Node) :
  (forall b, alikeIn x b = true -> tokensOfFrag (nodeContent x) = tokensOfFrag b) ->
  alikePair alikeIn x y = true -> tokensOf x = tokensOf y.
Proof.
  intros Hx. unfold alikePair. rewrite !andb_true_iff, negb_true_iff.
  intros [[Hm Ht] Hc]. apply sameMarkup_iff in Hm as (Hty & Hat & Hmk).
  destruct x as [tx mx | tyx ax mx cx], y as [ty' my | tyy ay my cy];
    cbn [SameType nodeAttrs nodeMarks] in Hty, Hat, Hmk; try contradiction.
  - unfold textDiffers in Ht. cbn [isText nodeText andb] in Ht.
    apply negb_false_iff, String.eqb_eq in Ht. now subst.
  - subst tyy ay my. cbn [tokensOf]. destruct (isLeafType tyx); [reflexivity|].
    do 2 f_equal. change (tokensOfFrag cx = tokensOfFrag cy).
    apply orb_true_iff in Hc as [Hc|Hc].
    + unfold hasContent in Hc. cbn [nodeContent] in Hc.
      apply negb_true_iff, orb_false_iff in Hc as [H1 H2].
      apply negb_false_iff, Z.eqb_eq in H1, H2.
      now rewrite !tokensOfFrag_empty.
    + apply (Hx cy Hc).
Qed.

Lemma alikeIn_tokens (a : Node) :
  forall b, alikeIn a b = true -> tokensOfFrag (nodeContent a) = tokensOfFrag b.
Proof.
  induction a as [t m | ty at' m c IH] using Node_ind'; intros b;
    rewrite alikeIn_unfold; cbn [nodeContent].
  - destruct b; [reflexivity | discriminate].
  - revert b. induction IH as [|x ra Hx _ IHr]; intros [|y rb]; cbn [alikeLoop];
      try discriminate; [reflexivity|].
    intros H. apply andb_true_iff in H as [Hp Hl].
    rewrite !tokensOfFrag_cons, (alikePair_tokens x y Hx Hp), (IHr rb Hl). reflexivity.
Qed.

Lemma passed_pair_tokens (x y : Node) :
  sameMarkup x y = true -> textDiffers x y = false ->
  (hasContent x y = true -> alikeIn x (nodeContent y) = true) ->
  tokensOf x = tokensOf y.
Proof.
  intros Hm Ht Hc. apply alikePair_tokens; [apply alikeIn_tokens|].
  unfold alikePair. rewrite Hm, Ht. cbn [andb negb].
  destruct (hasContent x y); [now rewrite Hc | reflexivity].
Qed.

(** The tokens of a pair of proper nodes with the same markup, one of
    which has content. *)
Lemma content_pair_tokens (x y : Node) :
  properNode x = true -> properNode y = true ->
  sameMarkup x y = true -> hasContent x y = true ->
  exists open,
    tokensOf x = open :: tokensOfFrag (nodeContent x) ++ [TClose]
    /\ tokensOf y = open :: tokensOfFrag (nodeContent y) ++ [TClose].
Proof.
  intros Hpx Hpy Hm Hc. apply sameMarkup_iff in Hm as (Hty & Hat & Hmk).
  destruct x as [tx mx | tyx ax mx cx], y as [ty' my | tyy ay my cy];
    cbn [SameType nodeAttrs nodeMarks] in Hty, Hat, Hmk; try contradiction;
    [discriminate Hc|].
  subst tyy ay my. cbn [properNode] in Hpx, Hpy.
  apply andb_true_iff in Hpx as [Hpx _]. apply andb_true_iff in Hpy as [Hpy _].
  cbn [tokensOf nodeContent]. unfold hasContent in Hc. cbn [nodeContent] in Hc.
  destruct (isLeafType tyx); [|eexists; split; reflexivity].
  destruct cx; [|discriminate]. destruct cy; [|discriminate]. discriminate Hc.
Qed.

(** The tokens of a pair of text leaves with the same marks. *)
Lemma text_pair_tokens (x y : Node) :
  sameMarkup x y = true -> textDiffers x y = true ->
  exists m,
    tokensOf x = map (fun c => TChar c m) (chars (nodeText x))
    /\ tokensOf y = map (fun c => TChar c m) (chars (nodeText y)).
Proof.
  intros Hm Ht. unfold textDiffers in Ht. apply andb_true_iff in Ht as [Ht _].
  destruct x as [tx mx | tyx ax mx cx]; [|discriminate].
  destruct y as [ty' my | tyy ay my cy]; [|discriminate].
  cbn [sameMarkup] in Hm. apply sameSet_eq in Hm. subst my.
  exists mx. split; reflexivity.
Qed.

Lemma commonPrefix_chars (a b : string) :
  firstn (Z.to_nat (commonPrefixLen a b)) (chars a)
  = firstn (Z.to_nat (commonPrefixLen a b)) (chars b).
Proof.
  revert b; induction a as [|c r IH]; intros [|c' r']; cbn [commonPrefixLen];
    try reflexivity.
  destruct (Ascii.eqb c c') eqn:Hc; [|reflexivity].
  apply Ascii.eqb_eq in Hc. subst c'.
  pose proof (commonPrefixLen_nonneg r r').
  replace (Z.to_nat (1 + commonPrefixLen r r')) with (S (Z.to_nat (commonPrefixLen r r')))
    by lia.
  unfold chars in *. cbn [list_ascii_of_string firstn]. now rewrite IH.
Qed.

Lemma firstn_app_le {A : Type} (k : nat) (l1 l2 : list A) :
  (k <= List.length l1)%nat -> firstn k (l1 ++ l2) = firstn k l1.
Proof.
  intros H. rewrite firstn_app.
  replace (k - List.length l1)%nat with O by lia. cbn [firstn]. apply app_nil_r.
Qed.

Lemma firstn_app_ge {A : Type} (k : nat) (l1 l2 : list A) :
  (List.length l1 <= k)%nat ->
  firstn k (l1 ++ l2) = l1 ++ firstn (k - List.length l1) l2.
Proof. intros H. rewrite firstn_app, firstn_all2 by assumption. reflexivity. Qed.

Lemma skipn_app_le {A : Type} (k : nat) (l1 l2 : list A) :
  (k <= List.length l1)%nat -> skipn k (l1 ++ l2) = skipn k l1 ++ l2.
Proof.
  intros H. rewrite skipn_app.
  replace (k - List.length l1)%nat with O by lia. reflexivity.
Qed.

Lemma skipn_app_ge {A : Type} (k : nat) (l1 l2 : list A) :
  (List.length l1 <= k)%nat ->
  skipn k (l1 ++ l2) = skipn (k - List.length l1) l2.
Proof. intros H. rewrite skipn_app, skipn_all2 by assumption. reflexivity. Qed.

(** Up to the position found from the start, the two fragments cover the
    same positions. *)
Lemma findDiffStartLoop_prefix (a : Fragment) :
  Forall (fun x => forall b pos r,
            properNode x = true -> forallb properNode b = true ->
            findDiffStartIn x b pos = Some r ->
            firstn (Z.to_nat (r - pos)) (tokensOfFrag (nodeContent x))
            = firstn (Z.to_nat (r - pos)) (tokensOfFrag b)) a ->
  forall b pos r,
    forallb properNode a = true -> forallb properNode b = true ->
    findDiffStartLoop findDiffStartIn a b pos = Some r ->
    firstn (Z.to_nat (r - pos)) (tokensOfFrag a)
    = firstn (Z.to_nat (r - pos)) (tokensOfFrag b).
Proof.
  induction 1 as [|x ra Hx _ IH]; intros [|y rb] pos r Hpa Hpb; cbn [findDiffStartLoop].
  - discriminate.
  - intros [= <-]. now rewrite Z.sub_diag.
  - intros [= <-]. now rewrite Z.sub_diag.
  - cbn [forallb] in Hpa, Hpb.
    apply andb_true_iff in Hpa as [Hpx Hpa]. apply andb_true_iff in Hpb as [Hpy Hpb].
    rewrite !tokensOfFrag_cons.
    pose proof (tokensOf_length x) as Hlx. pose proof (tokensOf_length y) as Hly.
    destruct (sameMarkup x y) eqn:Hm; cbn [negb];
      [|intros [= <-]; now rewrite Z.sub_diag].
    destruct (textDiffers x y) eqn:Ht.
    { intros [= <-].
      replace (pos + commonPrefixLen (nodeText x) (nodeText y) - pos)
        with (commonPrefixLen (nodeText x) (nodeText y)) by lia.
      destruct (text_pair_tokens x y Hm Ht) as (m & Hx' & Hy').
      destruct (text_pair x y Hm Ht) as [Hsx Hsy].
      pose proof (commonPrefixLen_nonneg (nodeText x) (nodeText y)).
      pose proof (commonPrefixLen_le (nodeText x) (nodeText y)).
      rewrite !firstn_app_le by lia.
      rewrite Hx', Hy', !firstn_map, commonPrefix_chars. reflexivity. }
    assert (Hnext : (hasContent x y = true -> alikeIn x (nodeContent y) = true) ->
              findDiffStartLoop findDiffStartIn ra rb (pos + nodeSize x) = Some r ->
              firstn (Z.to_nat (r - pos)) (tokensOf x ++ tokensOfFrag ra)
              = firstn (Z.to_nat (r - pos)) (tokensOf y ++ tokensOfFrag rb)).
    { intros Hc Hr.
      pose proof (passed_pair_size x y Hm Ht Hc) as Hsz.
      rewrite <- (passed_pair_tokens x y Hm Ht Hc).
      pose proof (findDiffStartLoop_bounds ra
                    (proj2 (Forall_forall _ _)
                       (fun z _ => findDiffStartIn_bounds z)) rb _ r Hpa Hpb Hr) as Hb.
      rewrite !firstn_app_ge by lia. f_equal.
      apply IH in Hr; [|assumption|assumption].
      replace (Z.to_nat (r - pos) - List.length (tokensOf x))%nat
        with (Z.to_nat (r - (pos + nodeSize x))) by lia.
      exact Hr. }
    destruct (hasContent x y) eqn:Hc; [|apply Hnext; discriminate].
    destruct (findDiffStartIn x (nodeContent y) (pos + 1)) as [r'|] eqn:Hi.
    + intros [= <-].
      destruct (content_pair_tokens x y Hpx Hpy Hm Hc) as (open & Hx' & Hy').
      pose proof (findDiffStartIn_bounds x _ _ _ Hpx (properNode_content y Hpy) Hi) as Hb.
      pose proof (tokensOfFrag_length (nodeContent x)) as Hcx.
      pose proof (tokensOfFrag_length (nodeContent y)) as Hcy.
      apply Hx in Hi; [|assumption | now apply properNode_content].
      rewrite Hx', Hy'.
      replace (Z.to_nat (r' - pos)) with (S (Z.to_nat (r' - (pos + 1)))) by lia.
      cbn [app firstn]. f_equal.
      rewrite <- !app_assoc, !firstn_app_le by lia. exact Hi.
    + apply Hnext. intros _. now apply (findDiffStartIn_None x (nodeContent y) (pos + 1)).
Qed.

Lemma findDiffStartIn_prefix (a : Node) :
  forall b pos r,
    properNode a = true -> forallb properNode b = true ->
    findDiffStartIn a b pos = Some r ->
    firstn (Z.to_nat (r - pos)) (tokensOfFrag (nodeContent a))
    = firstn (Z.to_nat (r - pos)) (tokensOfFrag b).
Proof.
  induction a as [t m | ty at' m c IH] using Node_ind'; intros b pos r Hpa Hpb;
    rewrite findDiffStartIn_unfold; cbn [nodeContent].
  - apply findDiffStartLoop_prefix; [constructor | reflexivity | assumption].
  - apply findDiffStartLoop_prefix;
      [exact IH | now apply (properNode_content (Elem ty at' m c)) | assumption].
Qed.

Lemma commonSuffix_chars (a b : string) :
  skipn (Z.to_nat (strlen a - commonSuffixLen a b)) (chars a)
  = skipn (Z.to_nat (strlen b - commonSuffixLen a b)) (chars b).
Proof.
  pose proof (commonSuffixLen_bounds a b) as (H0 & Ha & Hb).
  pose proof (commonPrefix_chars (revString a) (revString b)) as H.
  fold (commonSuffixLen a b) in H.
  unfold revString, chars in H. rewrite !list_ascii_of_string_of_list_ascii in H.
  fold (chars a) in H. fold (chars b) in H.
  rewrite !firstn_rev in H. apply (f_equal (@rev ascii)) in H.
  rewrite !rev_involutive in H.
  pose proof (chars_length a). pose proof (chars_length b).
  replace (Z.to_nat (strlen a - commonSuffixLen a b))
    with (List.length (chars a) - Z.to_nat (commonSuffixLen a b))%nat by lia.
  replace (Z.to_nat (strlen b - commonSuffixLen a b))
    with (List.length (chars b) - Z.to_nat (commonSuffixLen a b))%nat by lia.
  exact H.
Qed.

(** From the position found from the end on, the two fragments cover the
    same positions.  The lists are the reversed child lists of the fold;
    [pa] and [pb] are the positions after their last children. *)
Lemma endFold_suffix (ra : Fragment) :
  Forall (fun x => forall b pa pb r,
            properNode x = true -> forallb properNode b = true ->
            findDiffEndIn x b pa pb = Some r ->
            skipn (Z.to_nat (fst r - (pa - fragSize (nodeContent x))))
              (tokensOfFrag (nodeContent x))
            = skipn (Z.to_nat (snd r - (pb - fragSize b))) (tokensOfFrag b)) ra ->
  forall rb pa pb r,
    forallb properNode ra = true -> forallb properNode rb = true ->
    endResult (fold_left (fun st x => endStep findDiffEndIn x st) ra (Cont rb pa pb))
    = Some r ->
    skipn (Z.to_nat (fst r - (pa - fragSize ra))) (tokensOfFrag (rev ra))
    = skipn (Z.to_nat (snd r - (pb - fragSize rb))) (tokensOfFrag (rev rb)).
Proof.
  assert (Hall : forall l : Fragment,
            skipn (Z.to_nat (fragSize l)) (tokensOfFrag (rev l)) = []).
  { intros l. apply skipn_all2.
    pose proof (tokensOfFrag_length (rev l)). rewrite fragSize_rev in *. lia. }
  induction 1 as [|x l Hx _ IH]; intros rb pa pb r Hpa Hpb.
  { destruct rb as [|y rb]; cbn [fold_left endResult]; [discriminate|].
    intros [= <-]. cbn [fst snd].
    replace (pb - (pb - fragSize (y :: rb))) with (fragSize (y :: rb)) by lia.
    rewrite Hall. destruct (Z.to_nat _); reflexivity. }
  cbn [fold_left endStep].
  destruct rb as [|y rb].
  { rewrite endFold_Done. cbn [endResult]. intros [= <-]. cbn [fst snd].
    replace (pa - (pa - fragSize (x :: l))) with (fragSize (x :: l)) by lia.
    rewrite Hall. destruct (Z.to_nat _); reflexivity. }
  cbn [forallb] in Hpa, Hpb.
  apply andb_true_iff in Hpa as [Hpx Hpa]. apply andb_true_iff in Hpb as [Hpy Hpb].
  pose proof (fragSize_nonneg l) as Hnl. pose proof (fragSize_nonneg rb) as Hnb.
  pose proof (nodeSize_nonneg x) as Hnx. pose proof (nodeSize_nonneg y) as Hny.
  pose proof (tokensOf_length x) as Hlx. pose proof (tokensOf_length y) as Hly.
  pose proof (tokensOfFrag_length (rev l)) as Hll. rewrite fragSize_rev in Hll.
  pose proof (tokensOfFrag_length (rev rb)) as Hlb. rewrite fragSize_rev in Hlb.
  cbn [rev]. rewrite !tokensOfFrag_app, !tokensOfFrag_cons.
  change (tokensOfFrag []) with (@nil Token). rewrite !app_nil_r.
  rewrite !fragSize_cons. cbv zeta.
  destruct (sameMarkup x y) eqn:Hm; cbn [negb].
  2:{ rewrite endFold_Done. cbn [endResult]. intros [= <-]. cbn [fst snd].
      rewrite !skipn_all2; [reflexivity | rewrite length_app; lia | rewrite length_app; lia]. }
  destruct (textDiffers x y) eqn:Ht.
  { rewrite endFold_Done. cbn [endResult]. intros [= <-]. cbn [fst snd].
    destruct (text_pair_tokens x y Hm Ht) as (m & Hx' & Hy').
    destruct (text_pair x y Hm Ht) as [Hsx Hsy].
    pose proof (commonSuffixLen_bounds (nodeText x) (nodeText y)) as (H0 & H1 & H2).
    rewrite !skipn_app_ge by lia.
    rewrite Hx', Hy', !skipn_map.
    replace (Z.to_nat (pa - commonSuffixLen (nodeText x) (nodeText y)
                       - (pa - (nodeSize x + fragSize l)))
             - List.length (tokensOfFrag (rev l)))%nat
      with (Z.to_nat (strlen (nodeText x) - commonSuffixLen (nodeText x) (nodeText y)))
      by lia.
    replace (Z.to_nat (pb - commonSuffixLen (nodeText x) (nodeText y)
                       - (pb - (nodeSize y + fragSize rb)))
             - List.length (tokensOfFrag (rev rb)))%nat
      with (Z.to_nat (strlen (nodeText y) - commonSuffixLen (nodeText x) (nodeText y)))
      by lia.
    now rewrite commonSuffix_chars. }
  assert (Hnext : (hasContent x y = true -> alikeIn x (nodeContent y) = true) ->
            endResult (fold_left (fun st x0 => endStep findDiffEndIn x0 st) l
                         (Cont rb (pa - nodeSize x) (pb - nodeSize x))) = Some r ->
            skipn (Z.to_nat (fst r - (pa - (nodeSize x + fragSize l))))
              (tokensOfFrag (rev l) ++ tokensOf x)
            = skipn (Z.to_nat (snd r - (pb - (nodeSize y + fragSize rb))))
                (tokensOfFrag (rev rb) ++ tokensOf y)).
  { intros Hc Hr.
    pose proof (passed_pair_size x y Hm Ht Hc) as Hsz.
    rewrite <- (passed_pair_tokens x y Hm Ht Hc).
    pose proof (endFold_bounds l
                  (proj2 (Forall_forall _ _) (fun z _ => findDiffEndIn_bounds z))
                  rb _ _ r Hpa Hpb Hr) as Hb.
    rewrite !skipn_app_le by lia. f_equal.
    apply IH in Hr; [|assumption|assumption].
    replace (pa - (nodeSize x + fragSize l)) with (pa - nodeSize x - fragSize l) by lia.
    replace (pb - (nodeSize y + fragSize rb)) with (pb - nodeSize x - fragSize rb) by lia.
    exact Hr. }
  destruct (hasContent x y) eqn:Hc; [|apply Hnext; discriminate].
  destruct (findDiffEndIn x (nodeContent y) (pa - 1) (pb - 1)) as [r'|] eqn:Hi.
  - rewrite endFold_Done. cbn [endResult]. intros [= <-].
    destruct (content_pair_tokens x y Hpx Hpy Hm Hc) as (open & Hx' & Hy').
    destruct (content_pair_size x y Hpx Hpy Hm Hc) as [Hsx Hsy].
    pose proof (findDiffEndIn_bounds x _ _ _ _ Hpx (properNode_content y Hpy) Hi) as Hb.
    pose proof (tokensOfFrag_length (nodeContent x)) as Hcx.
    pose proof (tokensOfFrag_length (nodeContent y)) as Hcy.
    apply Hx in Hi; [|assumption | now apply properNode_content].
    rewrite !skipn_app_ge by lia.
    rewrite Hx', Hy'.
    replace (Z.to_nat (fst r' - (pa - (nodeSize x + fragSize l)))
             - List.length (tokensOfFrag (rev l)))%nat
      with (S (Z.to_nat (fst r' - (pa - 1 - fragSize (nodeContent x))))) by lia.
    replace (Z.to_nat (snd r' - (pb - (nodeSize y + fragSize rb)))
             - List.length (tokensOfFrag (rev rb)))%nat
      with (S (Z.to_nat (snd r' - (pb - 1 - fragSize (nodeContent y))))) by lia.
    cbn [skipn]. rewrite !skipn_app_le by lia. now rewrite Hi.
  - apply Hnext. intros _. now apply (findDiffEndIn_None x (nodeContent y) (pa - 1) (pb - 1)).
Qed.

Lemma findDiffEndIn_suffix (a : Node) :
  forall b pa pb r,
    properNode a = true -> forallb properNode b = true ->
    findDiffEndIn a b pa pb = Some r ->
    skipn (Z.to_nat (fst r - (pa - fragSize (nodeContent a))))
      (tokensOfFrag (nodeContent a))
    = skipn (Z.to_nat (snd r - (pb - fragSize b))) (tokensOfFrag b).
Proof.
  induction a as [t m | ty at' m c IH] using Node_ind'; intros b pa pb r Hpa Hpb;
    rewrite findDiffEndIn_unfold; unfold findDiffEndLoop, rev'; rewrite <- rev_alt;
    cbn [nodeContent].
  - cbn [fold_right]. destruct (rev b) as [|y rb] eqn:Hb; cbn [endResult]; [discriminate|].
    intros [= <-]. cbn [fst snd]. change (fragSize []) with 0.
    replace (pb - (pb - fragSize b)) with (fragSize b) by lia.
    rewrite (skipn_all2 (tokensOfFrag b)) by (pose proof (tokensOfFrag_length b); lia).
    destruct (Z.to_nat _); reflexivity.
  - rewrite <- (rev_involutive c) at 1. rewrite fold_left_rev_right.
    intros H. apply endFold_suffix in H.
    + rewrite !fragSize_rev, !rev_involutive in H. exact H.
    + apply Forall_rev, IH.
    + rewrite forallb_rev. now apply (properNode_content (Elem ty at' m c)).
    + now rewrite forallb_rev.
Qed.

(** The positions of a document, as a flat sequence. *)
Definition positionsOf (doc : Node) : list Token := tokensOfFrag (nodeContent doc).

Lemma splice_back {A : Type} (s a : nat) (l : list A) :
  (s <= a)%nat ->
  firstn s l ++ firstn (a - s) (skipn s l) ++ skipn a l = l.
Proof.
  intros H. rewrite <- (firstn_skipn s l) at 4. f_equal.
  rewrite <- (firstn_skipn (a - s) (skipn s l)) at 2. f_equal.
  rewrite skipn_skipn. f_equal. lia.
Qed.

(** The window taken starts no later and ends no earlier than the
    positions found by the two scans. *)
Lemma chooseWindow_moves (fromDoc toDoc : Node) (start endA endB s a b : Z) :
  chooseWindow fromDoc toDoc start endA endB = Ok (s, a, b) ->
  s <= start /\ endB <= b /\ a - b = endA - endB.
Proof.
  unfold chooseWindow. cbv zeta.
  destruct (0 <? start - Z.min endA endB) eqn:Ho.
  - apply Z.ltb_lt in Ho.
    destruct (calculateBoundaryScore _ _ (start - _) _ _) as [sS|]; [|discriminate].
    destruct (calculateBoundaryScore _ _ start _ _) as [sE|]; [|discriminate].
    cbn [bind]. destruct (sE <? sS); intros [= <- <- <-]; lia.
  - intros [= <- <- <-]. lia.
Qed.

(** X16: the window of [getReplaceStep] is right.  On documents whose
    leaves have no children, the positions of the source before the start
    of the step, followed by the positions of the target that the slice
    covers, followed by the positions of the source after the end of the
    step, are the positions of the target. *)
Theorem replace_window_rebuilds_target (fromDoc toDoc : Node)
  (from to : Z) (sl : Slice) :
  properNode fromDoc = true -> properNode toDoc = true ->
  getReplaceStep fromDoc toDoc = Ok (Some (ReplaceStep from to sl)) ->
  exists endA,
    slice toDoc from endA = Ok sl
    /\ 0 <= from <= endA
    /\ firstn (Z.to_nat from) (positionsOf fromDoc)
       ++ sliceRange (positionsOf toDoc) from endA
       ++ skipn (Z.to_nat to) (positionsOf fromDoc)
       = positionsOf toDoc.
Proof.
  intros Hpf Hpt. unfold getReplaceStep.
  destruct (findDiffStart toDoc fromDoc) as [start|] eqn:Hs; [|discriminate].
  destruct (findDiffEnd toDoc fromDoc) as [[endA endB]|] eqn:He; [|discriminate].
  destruct (chooseWindow_total fromDoc toDoc start endA endB Hpf Hpt Hs He)
    as (s & a & b & Hw & Hsa & Hat & Hsb & Hbf).
  rewrite Hw. cbn [bind].
  destruct (slice toDoc s a) as [sl'|] eqn:Hsl; [|discriminate].
  cbn [bind]. intros [= <- <- <-]. exists a. split; [exact Hsl|]. split; [lia|].
  destruct (diff_positions_in_range toDoc fromDoc start endA endB Hpt Hpf Hs He)
    as (Hs1 & Hs2 & Ha & Hb).
  pose proof (findDiffEnd_balance _ _ _ _ He) as Hbal.
  pose proof (findDiffStartIn_prefix toDoc (nodeContent fromDoc) 0 start Hpt
                (properNode_content fromDoc Hpf) Hs) as Hpre.
  pose proof (findDiffEndIn_suffix toDoc (nodeContent fromDoc) _ _ _ Hpt
                (properNode_content fromDoc Hpf) He) as Hsuf.
  cbn [fst snd] in Hsuf. rewrite !Z.sub_diag, !Z.sub_0_r in Hsuf. rewrite Z.sub_0_r in Hpre.
  fold (positionsOf toDoc) in Hpre, Hsuf. fold (positionsOf fromDoc) in Hpre, Hsuf.
  pose proof (chooseWindow_moves _ _ _ _ _ _ _ _ Hw) as Hshape.
  destruct Hshape as (Hss & Hbb & Hd).
  assert (Hpre' : firstn (Z.to_nat s) (positionsOf fromDoc)
                  = firstn (Z.to_nat s) (positionsOf toDoc)).
  { replace (Z.to_nat s) with (Nat.min (Z.to_nat s) (Z.to_nat start)) by lia.
    rewrite <- !firstn_firstn. now rewrite Hpre. }
  assert (Hsuf' : skipn (Z.to_nat b) (positionsOf fromDoc)
                  = skipn (Z.to_nat a) (positionsOf toDoc)).
  { replace (Z.to_nat b) with (Z.to_nat (b - endB) + Z.to_nat endB)%nat by lia.
    replace (Z.to_nat a) with (Z.to_nat (b - endB) + Z.to_nat endA)%nat by lia.
    rewrite <- !skipn_skipn. now rewrite Hsuf. }
  rewrite Hpre', Hsuf'. unfold sliceRange.
  replace (Z.to_nat (a - s)) with (Z.to_nat a - Z.to_nat s)%nat by lia.
  apply splice_back. lia.
Qed.

Lemma replace_window_rebuilds_target_witness :
  exists endA,
    slice threeAs 1 endA = Ok (mkSlice [txt "a"] 0 0)
    /\ 0 <= 1 <= endA
    /\ firstn (Z.to_nat 1) (positionsOf twoAs)
       ++ sliceRange (positionsOf threeAs) 1 endA
       ++ skipn (Z.to_nat 1) (positionsOf twoAs)
       = positionsOf threeAs.
Proof.
  exact (replace_window_rebuilds_target twoAs threeAs 1 1 (mkSlice [txt "a"] 0 0)
           eq_refl eq_refl eq_refl).
Defined.

(* ================================================================== *)
(** * The runs of the two loops *)

Section LoopRuns.
Context {E : Env}.

(** The states the simple-mode loop passes through when started on [tr0]:
    the iterations left, the iterations done and the transform.  The
    current document of a state is the document of its transform. *)
Inductive ReachesAll (toDoc : Node) (tr0 : Transform)
  : nat -> nat -> Transform -> Prop :=
| reachesAll_start : ReachesAll toDoc tr0 MAX_ITERATIONS 0 tr0
| reachesAll_next (remaining iterations : nat) (tr tr' : Transform) :
    ReachesAll toDoc tr0 (S remaining) iterations tr ->
    allBody tr (trDoc tr) toDoc = Ok (Some tr') ->
    ReachesAll toDoc tr0 remaining (S iterations) tr'.

Lemma reachesAll_result (toDoc : Node) (tr0 : Transform)
  (remaining iterations : nat) (tr : Transform) :
  ReachesAll toDoc tr0 remaining iterations tr ->
  allLoop toDoc MAX_ITERATIONS 0 tr0 (trDoc tr0)
  = allLoop toDoc remaining iterations tr (trDoc tr).
Proof.
  induction 1 as [|remaining iterations tr tr' _ IH Hb]; [reflexivity|].
  rewrite IH. cbn [allLoop]. rewrite Hb. reflexivity.
Qed.

Lemma reachesAll_count (toDoc : Node) (tr0 : Transform)
  (remaining iterations : nat) (tr : Transform) :
  ReachesAll toDoc tr0 remaining iterations tr ->
  (remaining + iterations = MAX_ITERATIONS)%nat.
Proof. induction 1; lia. Qed.

(** The simple-mode body, when it goes on, has applied the step of
    [getReplaceStep] to the document of the transform. *)
Lemma allBody_step (tr tr' : Transform) (cur toDoc : Node) :
  allBody tr cur toDoc = Ok (Some tr') ->
  exists s, getReplaceStep cur toDoc = Ok (Some s)
            /\ applyStep s (trDoc tr) = StepOk (trDoc tr')
            /\ tr' = mkTransform (trBefore tr) (trDoc tr') (trSteps tr ++ [s]).
Proof.
  unfold allBody. destruct (getReplaceStep cur toDoc) as [[s|]|]; cbn [bind];
    try discriminate.
  destruct (maybeStep_cases tr s) as [(d & Ha & ->)|(f & _ & ->)]; [|discriminate].
  intros H; injection H as <-. exists s. cbn [trDoc]. auto.
Qed.

Lemma reachesAll_steps (toDoc : Node) (tr0 : Transform)
  (remaining iterations : nat) (tr : Transform) :
  ReachesAll toDoc tr0 remaining iterations tr ->
  List.length (trSteps tr) = (List.length (trSteps tr0) + iterations)%nat.
Proof.
  induction 1 as [|remaining iterations tr tr' _ IH Hb]; [lia|].
  apply allBody_step in Hb as (s & _ & _ & ->). cbn [trSteps].
  rewrite length_app. cbn [List.length]. lia.
Qed.

(** A detected divergence never ends the simple-mode loop silently. *)
Lemma allBody_no_silent_break (tr : Transform) (cur toDoc : Node) (start : Z) :
  findDiffStart toDoc cur = Some start ->
  allBody tr cur toDoc <> Ok None.
Proof.
  intros Hs H. unfold allBody in H.
  destruct (getReplaceStep cur toDoc) as [[s|]|] eqn:Hg; cbn [bind] in H.
  - destruct (maybeStep tr s) as [[d|f] t]; discriminate.
  - apply getReplaceStep_None_iff in Hg. congruence.
  - discriminate.
Qed.

(** The body on a step the engine rejects. *)
Lemma allBody_rejected (tr : Transform) (cur toDoc : Node) (s : Step) (failed : string) :
  getReplaceStep cur toDoc = Ok (Some s) ->
  applyStep s (trDoc tr) = StepFailed failed ->
  allBody tr cur toDoc = Throw (replaceStepFailed failed).
Proof.
  intros Hg Ha. unfold allBody, maybeStep. rewrite Hg. cbn [bind]. rewrite Ha.
  reflexivity.
Qed.

Lemma applyStructuralDiff_rejected (tr : Transform) (cur toDoc : Node) (s : Step)
  (failed : string) :
  getReplaceStep cur toDoc = Ok (Some s) ->
  applyStep s (trDoc tr) = StepFailed failed ->
  applyStructuralDiff tr cur toDoc = Throw (replaceStepFailed failed).
Proof.
  intros Hg Ha. unfold applyStructuralDiff, maybeStep. rewrite Hg. cbn [bind].
  rewrite Ha. reflexivity.
Qed.

Lemma step_rejected (tr : Transform) (s : Step) (failed : string) :
  applyStep s (trDoc tr) = StepFailed failed ->
  step tr s = Throw (TransformError failed).
Proof. intros Ha. unfold step, maybeStep. rewrite Ha. reflexivity. Qed.

(** ** How a run of the structural loop ends *)

Lemma structural_cap_reached (w : bool) (fromDoc toDoc : Node)
  (iterations : nat) (tr : Transform) :
  Reaches w (removeMarks toDoc) (newTransform fromDoc) 0 iterations tr ->
  recreateStructuralSteps w fromDoc toDoc (newTransform fromDoc)
  = Throw maxIterationsStructural.
Proof.
  intros Hr. pose proof (reaches_count _ _ _ _ _ _ Hr) as Hc.
  unfold recreateStructuralSteps.
  change (removeMarks fromDoc) with (removeMarks (trDoc (newTransform fromDoc))).
  rewrite (reaches_result _ _ _ _ _ _ Hr). cbn [structuralLoop bind].
  replace iterations with MAX_ITERATIONS by lia. rewrite Nat.leb_refl. reflexivity.
Qed.

Lemma structural_break (w : bool) (fromDoc toDoc : Node)
  (remaining iterations : nat) (tr : Transform) :
  Reaches w (removeMarks toDoc) (newTransform fromDoc) (S remaining) iterations tr ->
  structuralBody w tr (removeMarks (trDoc tr)) (removeMarks toDoc) = Ok None ->
  recreateStructuralSteps w fromDoc toDoc (newTransform fromDoc) = Ok tr.
Proof.
  intros Hr Hb. pose proof (reaches_count _ _ _ _ _ _ Hr) as Hc.
  unfold recreateStructuralSteps.
  change (removeMarks fromDoc) with (removeMarks (trDoc (newTransform fromDoc))).
  rewrite (reaches_result _ _ _ _ _ _ Hr). cbn [structuralLoop]. rewrite Hb.
  cbn [bind]. destruct (MAX_ITERATIONS <=? iterations)%nat eqn:Hle; [|reflexivity].
  apply Nat.leb_le in Hle. lia.
Qed.

Lemma structural_throw (w : bool) (fromDoc toDoc : Node)
  (remaining iterations : nat) (tr : Transform) (e : Exn) :
  Reaches w (removeMarks toDoc) (newTransform fromDoc) (S remaining) iterations tr ->
  structuralBody w tr (removeMarks (trDoc tr)) (removeMarks toDoc) = Throw e ->
  recreateStructuralSteps w fromDoc toDoc (newTransform fromDoc) = Throw e.
Proof.
  intros Hr Hb. unfold recreateStructuralSteps.
  change (removeMarks fromDoc) with (removeMarks (trDoc (newTransform fromDoc))).
  rewrite (reaches_result _ _ _ _ _ _ Hr). cbn [structuralLoop]. rewrite Hb.
  reflexivity.
Qed.

(** Every run ends in one of the three ways, after at most
    [MAX_ITERATIONS] iterations. *)
Lemma structural_run_ends (w : bool) (target : Node) (tr0 : Transform) :
  forall remaining iterations tr,
    Reaches w target tr0 remaining iterations tr ->
    exists remaining' iterations' tr',
      Reaches w target tr0 remaining' iterations' tr'
      /\ (remaining' = 0%nat
          \/ structuralBody w tr' (removeMarks (trDoc tr')) target = Ok None
          \/ exists e, structuralBody w tr' (removeMarks (trDoc tr')) target = Throw e).
Proof.
  induction remaining as [|r IH]; intros iterations tr Hr.
  - exists 0%nat, iterations, tr. auto.
  - destruct (structuralBody w tr (removeMarks (trDoc tr)) target) as [[tr1|]|e] eqn:Hb.
    + apply (IH (S iterations) tr1). eapply reaches_next; eauto.
    + exists (S r), iterations, tr. auto.
    + exists (S r), iterations, tr. eauto.
Qed.

(** A loop that has counted up to the cap has gone through a chain of that
    many iterations. *)
Lemma structuralLoop_chain (w : bool) (target : Node) (tr0 : Transform) :
  forall remaining iterations tr tr',
    Reaches w target tr0 remaining iterations tr ->
    structuralLoop w target remaining iterations tr (removeMarks (trDoc tr))
    = Ok ((iterations + remaining)%nat, tr') ->
    Reaches w target tr0 0 (iterations + remaining) tr'.
Proof.
  induction remaining as [|r IH]; intros iterations tr tr' Hr; cbn [structuralLoop].
  - rewrite Nat.add_0_r. intros H; injection H as <-. exact Hr.
  - destruct (structuralBody w tr (removeMarks (trDoc tr)) target) as [[tr1|]|e] eqn:Hb;
      cbn [bind]; [| |discriminate].
    + intros H. replace (iterations + S r)%nat with (S iterations + r)%nat in * by lia.
      apply (IH (S iterations) tr1); [|exact H]. eapply reaches_next; eauto.
    + intros H; injection H as H _. lia.
Qed.

(** ** How a run of the simple-mode loop ends *)

Lemma all_cap_reached (fromDoc toDoc : Node) (iterations : nat) (tr : Transform) :
  ReachesAll toDoc (newTransform fromDoc) 0 iterations tr ->
  recreateAllSteps fromDoc toDoc (newTransform fromDoc) = Throw maxIterationsAll.
Proof.
  intros Hr. pose proof (reachesAll_count _ _ _ _ _ Hr) as Hc.
  unfold recreateAllSteps.
  change fromDoc with (trDoc (newTransform fromDoc)) at 2.
  rewrite (reachesAll_result _ _ _ _ _ Hr). cbn [allLoop bind].
  replace iterations with MAX_ITERATIONS by lia. rewrite Nat.leb_refl. reflexivity.
Qed.

Lemma all_break (fromDoc toDoc : Node) (remaining iterations : nat) (tr : Transform) :
  ReachesAll toDoc (newTransform fromDoc) (S remaining) iterations tr ->
  allBody tr (trDoc tr) toDoc = Ok None ->
  recreateAllSteps fromDoc toDoc (newTransform fromDoc) = Ok tr.
Proof.
  intros Hr Hb. pose proof (reachesAll_count _ _ _ _ _ Hr) as Hc.
  unfold recreateAllSteps.
  change fromDoc with (trDoc (newTransform fromDoc)) at 2.
  rewrite (reachesAll_result _ _ _ _ _ Hr). cbn [allLoop]. rewrite Hb.
  cbn [bind]. destruct (MAX_ITERATIONS <=? iterations)%nat eqn:Hle; [|reflexivity].
  apply Nat.leb_le in Hle. lia.
Qed.

Lemma all_throw (fromDoc toDoc : Node) (remaining iterations : nat) (tr : Transform)
  (e : Exn) :
  ReachesAll toDoc (newTransform fromDoc) (S remaining) iterations tr ->
  allBody tr (trDoc tr) toDoc = Throw e ->
  recreateAllSteps fromDoc toDoc (newTransform fromDoc) = Throw e.
Proof.
  intros Hr Hb. unfold recreateAllSteps.
  change fromDoc with (trDoc (newTransform fromDoc)) at 2.
  rewrite (reachesAll_result _ _ _ _ _ Hr). cbn [allLoop]. rewrite Hb.
  reflexivity.
Qed.

Lemma all_run_ends (toDoc : Node) (tr0 : Transform) :
  forall remaining iterations tr,
    ReachesAll toDoc tr0 remaining iterations tr ->
    exists remaining' iterations' tr',
      ReachesAll toDoc tr0 remaining' iterations' tr'
      /\ (remaining' = 0%nat
          \/ allBody tr' (trDoc tr') toDoc = Ok None
          \/ exists e, allBody tr' (trDoc tr') toDoc = Throw e).
Proof.
  induction remaining as [|r IH]; intros iterations tr Hr.
  - exists 0%nat, iterations, tr. auto.
  - destruct (allBody tr (trDoc tr) toDoc) as [[tr1|]|e] eqn:Hb.
    + apply (IH (S iterations) tr1). eapply reachesAll_next; eauto.
    + exists (S r), iterations, tr. auto.
    + exists (S r), iterations, tr. eauto.
Qed.

(** [recreateTransform] passes the errors of its loops on. *)
Lemma recreateTransform_structural_throw (A B : Node) (options : Options) (e : Exn) :
  orDefault (optComplexSteps options) true = true ->
  recreateStructuralSteps (orDefault (optWordDiffs options) false) A B (newTransform A)
  = Throw e ->
  recreateTransform A B options = Throw e.
Proof.
  intros Hc H. unfold recreateTransform, init. rewrite Hc, H. reflexivity.
Qed.

Lemma recreateTransform_all_throw (A B : Node) (options : Options) (e : Exn) :
  orDefault (optComplexSteps options) true = false ->
  recreateAllSteps A B (newTransform A) = Throw e ->
  recreateTransform A B options = Throw e.
Proof.
  intros Hc H. unfold recreateTransform, init. rewrite Hc, H. reflexivity.
Qed.

End LoopRuns.

Section CapClaims.
Context {E : Env}.

(** C10, as the code has it: the cap is 1000 and it counts iterations.  The
    body of either loop runs at most 1000 times; the guard is tested before
    the documents are compared again, so a run that has gone through 1000
    iterations raises the max-iterations error whatever document its
    1000th iteration produced, the target included, while a run whose body
    finds no divergence with iterations left returns.  In simple mode every
    iteration applies exactly one step, so there a run that has applied
    1000 steps raises the error.  In detailed mode the iterations do not
    count the steps. *)
Theorem cap_counts_iterations :
  MAX_ITERATIONS = 1000%nat
  /\ (forall w fromDoc toDoc remaining iterations tr,
        Reaches w (removeMarks toDoc) (newTransform fromDoc) remaining iterations tr ->
        (iterations <= 1000)%nat
        /\ (remaining = 0%nat ->
            iterations = 1000%nat
            /\ recreateStructuralSteps w fromDoc toDoc (newTransform fromDoc)
               = Throw maxIterationsStructural)
        /\ ((0 < remaining)%nat ->
            structuralBody w tr (removeMarks (trDoc tr)) (removeMarks toDoc) = Ok None ->
            recreateStructuralSteps w fromDoc toDoc (newTransform fromDoc) = Ok tr))
  /\ (forall fromDoc toDoc remaining iterations tr,
        ReachesAll toDoc (newTransform fromDoc) remaining iterations tr ->
        (iterations <= 1000)%nat
        /\ List.length (trSteps tr) = iterations
        /\ (List.length (trSteps tr) = 1000%nat ->
            recreateAllSteps fromDoc toDoc (newTransform fromDoc) = Throw maxIterationsAll)
        /\ ((0 < remaining)%nat ->
            allBody tr (trDoc tr) toDoc = Ok None ->
            recreateAllSteps fromDoc toDoc (newTransform fromDoc) = Ok tr)).
Proof.
  split; [reflexivity|]. split.
  - intros w fromDoc toDoc remaining iterations tr Hr.
    pose proof (reaches_count _ _ _ _ _ _ Hr) as Hc. unfold MAX_ITERATIONS in Hc.
    split; [lia|]. split.
    + intros ->. split; [lia|]. eapply structural_cap_reached; eauto.
    + intros Hpos Hb. destruct remaining as [|r]; [lia|].
      eapply structural_break; eauto.
  - intros fromDoc toDoc remaining iterations tr Hr.
    pose proof (reachesAll_count _ _ _ _ _ Hr) as Hc. unfold MAX_ITERATIONS in Hc.
    pose proof (reachesAll_steps _ _ _ _ _ Hr) as Hs. cbn [newTransform trSteps List.length Nat.add] in Hs.
    split; [lia|]. split; [exact Hs|]. split.
    + intros Hl. assert (remaining = 0%nat) as -> by lia.
      eapply all_cap_reached; eauto.
    + intros Hpos Hb. destruct remaining as [|r]; [lia|].
      eapply all_break; eauto.
Qed.

(** C7: both loops are bounded by the iteration cap, and a run ends in one
    of three ways: at the cap with the max-iterations error of its loop,
    at an iteration that finds no divergence with its transform, or at an
    iteration that throws with the error of that iteration.  A step the
    engine rejects surfaces as a [TransformError] (from [tr.step]) or as
    the "ReplaceStep failed" error (from [maybeStep]); neither is a
    max-iterations error. *)
Theorem max_iterations_error_is_distinct :
  (forall w fromDoc toDoc,
     exists remaining iterations tr,
       Reaches w (removeMarks toDoc) (newTransform fromDoc) remaining iterations tr
       /\ (iterations <= MAX_ITERATIONS)%nat
       /\ ((remaining = 0%nat
            /\ recreateStructuralSteps w fromDoc toDoc (newTransform fromDoc)
               = Throw maxIterationsStructural)
           \/ ((0 < remaining)%nat
               /\ structuralBody w tr (removeMarks (trDoc tr)) (removeMarks toDoc) = Ok None
               /\ recreateStructuralSteps w fromDoc toDoc (newTransform fromDoc) = Ok tr)
           \/ (exists e,
                 (0 < remaining)%nat
                 /\ structuralBody w tr (removeMarks (trDoc tr)) (removeMarks toDoc)
                    = Throw e
                 /\ recreateStructuralSteps w fromDoc toDoc (newTransform fromDoc)
                    = Throw e)))
  /\ (forall fromDoc toDoc,
        exists remaining iterations tr,
          ReachesAll toDoc (newTransform fromDoc) remaining iterations tr
          /\ (iterations <= MAX_ITERATIONS)%nat
          /\ ((remaining = 0%nat
               /\ recreateAllSteps fromDoc toDoc (newTransform fromDoc)
                  = Throw maxIterationsAll)
              \/ ((0 < remaining)%nat
                  /\ allBody tr (trDoc tr) toDoc = Ok None
                  /\ recreateAllSteps fromDoc toDoc (newTransform fromDoc) = Ok tr)
              \/ (exists e,
                    (0 < remaining)%nat
                    /\ allBody tr (trDoc tr) toDoc = Throw e
                    /\ recreateAllSteps fromDoc toDoc (newTransform fromDoc) = Throw e)))
  /\ (forall A B options iterations tr,
        orDefault (optComplexSteps options) true = true ->
        Reaches (orDefault (optWordDiffs options) false) (removeMarks B) (newTransform A)
          0 iterations tr ->
        recreateTransform A B options = Throw maxIterationsStructural)
  /\ (forall A B options iterations tr,
        orDefault (optComplexSteps options) true = false ->
        ReachesAll B (newTransform A) 0 iterations tr ->
        recreateTransform A B options = Throw maxIterationsAll)
  /\ (forall tr s failed,
        applyStep s (trDoc tr) = StepFailed failed ->
        step tr s = Throw (TransformError failed)
        /\ (forall cur toDoc,
              getReplaceStep cur toDoc = Ok (Some s) ->
              allBody tr cur toDoc = Throw (replaceStepFailed failed)
              /\ applyStructuralDiff tr cur toDoc = Throw (replaceStepFailed failed))
        /\ TransformError failed <> maxIterationsStructural
        /\ TransformError failed <> maxIterationsAll
        /\ replaceStepFailed failed <> maxIterationsStructural
        /\ replaceStepFailed failed <> maxIterationsAll).
Proof.
  split; [|split; [|split; [|split]]].
  - intros w fromDoc toDoc.
    destruct (structural_run_ends w (removeMarks toDoc) (newTransform fromDoc)
                MAX_ITERATIONS 0 (newTransform fromDoc) (reaches_start _ _ _))
      as (r & n & tr & Hr & Hend).
    exists r, n, tr. pose proof (reaches_count _ _ _ _ _ _ Hr) as Hc.
    split; [exact Hr|]. split; [lia|].
    destruct r as [|r].
    + left. split; [reflexivity|]. eapply structural_cap_reached; eauto.
    + right. destruct Hend as [H|[Hb|(e & Hb)]]; [discriminate| |].
      * left. split; [lia|]. split; [exact Hb|]. eapply structural_break; eauto.
      * right. exists e. split; [lia|]. split; [exact Hb|].
        eapply structural_throw; eauto.
  - intros fromDoc toDoc.
    destruct (all_run_ends toDoc (newTransform fromDoc)
                MAX_ITERATIONS 0 (newTransform fromDoc) (reachesAll_start _ _))
      as (r & n & tr & Hr & Hend).
    exists r, n, tr. pose proof (reachesAll_count _ _ _ _ _ Hr) as Hc.
    split; [exact Hr|]. split; [lia|].
    destruct r as [|r].
    + left. split; [reflexivity|]. eapply all_cap_reached; eauto.
    + right. destruct Hend as [H|[Hb|(e & Hb)]]; [discriminate| |].
      * left. split; [lia|]. split; [exact Hb|]. eapply all_break; eauto.
      * right. exists e. split; [lia|]. split; [exact Hb|]. eapply all_throw; eauto.
  - intros A B options iterations tr Hc Hr.
    apply recreateTransform_structural_throw; [exact Hc|].
    eapply structural_cap_reached; eauto.
  - intros A B options iterations tr Hc Hr.
    apply recreateTransform_all_throw; [exact Hc|].
    eapply all_cap_reached; eauto.
  - intros tr s failed Ha. split; [now apply step_rejected|]. split.
    + intros cur toDoc Hg. split.
      * now apply allBody_rejected with (s := s).
      * now apply applyStructuralDiff_rejected with (s := s).
    + repeat split; discriminate.
Qed.

(** C3: an iteration of the structural loop that detects a divergence and
    appends no step leaves the loop in the same state, so the run uses up
    its iterations and ends in the max-iterations error; a detected
    divergence never ends either loop without an error; an iteration of
    the simple-mode loop that goes on has applied a step to the document;
    and a transform that either loop returns shows no divergence from the
    target any more. *)
Theorem no_silent_stall :
  (forall w fromDoc toDoc remaining iterations tr tr',
     Reaches w (removeMarks toDoc) (newTransform fromDoc) (S remaining) iterations tr ->
     structuralBody w tr (removeMarks (trDoc tr)) (removeMarks toDoc) = Ok (Some tr') ->
     trSteps tr' = trSteps tr ->
     recreateStructuralSteps w fromDoc toDoc (newTransform fromDoc)
     = Throw maxIterationsStructural)
  /\ (forall w tr cur target start,
        findDiffStart target cur = Some start ->
        structuralBody w tr cur target <> Ok None)
  /\ (forall tr cur toDoc start,
        findDiffStart toDoc cur = Some start ->
        allBody tr cur toDoc <> Ok None)
  /\ (forall tr cur toDoc tr',
        allBody tr cur toDoc = Ok (Some tr') ->
        exists s, trSteps tr' = (trSteps tr ++ [s])%list
                  /\ applyStep s (trDoc tr) = StepOk (trDoc tr'))
  /\ (forall w fromDoc toDoc tr,
        recreateStructuralSteps w fromDoc toDoc (newTransform fromDoc) = Ok tr ->
        findDiffStart (removeMarks toDoc) (removeMarks (trDoc tr)) = None)
  /\ (forall fromDoc toDoc tr,
        recreateAllSteps fromDoc toDoc (newTransform fromDoc) = Ok tr ->
        findDiffStart toDoc (trDoc tr) = None).
Proof.
  split; [|split; [|split; [|split; [|split]]]].
  - intros w fromDoc toDoc remaining iterations tr tr' Hreach Hb Hs.
    assert (tr' = tr) as ->.
    { apply Grows_same_steps; [eapply structuralBody_Grows; eauto | assumption]. }
    pose proof (reaches_count _ _ _ _ _ _ Hreach) as Hcount.
    unfold recreateStructuralSteps.
    change (removeMarks fromDoc) with (removeMarks (trDoc (newTransform fromDoc))).
    rewrite (reaches_result _ _ _ _ _ _ Hreach).
    rewrite (stalled_loop _ _ _ _ Hb eq_refl). cbn [bind].
    replace (iterations + S remaining)%nat with MAX_ITERATIONS by lia.
    rewrite Nat.leb_refl. reflexivity.
  - intros w tr cur target start. apply structuralBody_no_silent_break.
  - intros tr cur toDoc start. apply allBody_no_silent_break.
  - intros tr cur toDoc tr' Hb. apply allBody_step in Hb as (s & _ & Ha & ->).
    exists s. cbn [trSteps trDoc] in *. auto.
  - intros w fromDoc toDoc tr. unfold recreateStructuralSteps.
    destruct (structuralLoop w (removeMarks toDoc) MAX_ITERATIONS 0 (newTransform fromDoc)
                (removeMarks fromDoc)) as [[n tr1]|] eqn:Hloop; [|discriminate].
    cbn [bind]. destruct (MAX_ITERATIONS <=? n)%nat eqn:Hn; [discriminate|].
    intros H; injection H as <-. apply Nat.leb_gt in Hn.
    apply (structuralLoop_exit w (removeMarks toDoc) MAX_ITERATIONS 0
             (newTransform fromDoc)) in Hloop as [_ Hnone].
    apply Hnone. lia.
  - intros fromDoc toDoc tr. unfold recreateAllSteps.
    destruct (allLoop toDoc MAX_ITERATIONS 0 (newTransform fromDoc) fromDoc)
      as [[n tr1]|] eqn:Hloop; [|discriminate].
    cbn [bind]. destruct (MAX_ITERATIONS <=? n)%nat eqn:Hn; [discriminate|].
    intros H; injection H as <-. apply Nat.leb_gt in Hn.
    apply (allLoop_exit toDoc MAX_ITERATIONS 0 (newTransform fromDoc)) in Hloop
      as [_ Hnone].
    apply Hnone. lia.
Qed.

End CapClaims.

(* ================================================================== *)
(** * The runs of the loops on concrete documents *)

(** The chain of the thousand markup changes. *)
Lemma thousand_markup_chain :
  exists tr',
    @Reaches tokenEnv false (stripMarks (manyHeadings 1000))
      (newTransform (manyParagraphs 1000)) 0 1000 tr'
    /\ trDoc tr' = manyHeadings 1000.
Proof.
  destruct thousand_markup_changes as (tr' & H & Hd & _).
  exists tr'. split; [|exact Hd].
  apply (@structuralLoop_chain tokenEnv false (stripMarks (manyHeadings 1000))
           (newTransform (manyParagraphs 1000)) MAX_ITERATIONS 0
           (newTransform (manyParagraphs 1000)) tr' (reaches_start _ _ _) H).
Qed.

(** An engine that accepts every step and leaves the document as it is:
    with it the simple-mode loop builds the same step in every iteration
    and never gets closer to the target. *)
Definition idleEnv : Env := {|
  applyStep := fun _ d => StepOk d;
  fitReplace := tokenFitReplace;
  validContent := fun _ _ => true;
  addMarkSteps := tokenAddMarkSteps;
  removeMarkSteps := tokenRemoveMarkSteps;
  diffChars := myersDiffChars;
  diffWordsWithSpace := myersDiffWords;
  removeMarks := stripMarks;
  simplifyTransform := keepSteps
|}.

Definition worldToThere : Step := ReplaceStep 7 12 (mkSlice [txt "there"] 0 0).

Lemma idle_chain (k : nat) :
  (k <= MAX_ITERATIONS)%nat ->
  @ReachesAll idleEnv helloThere (newTransform helloWorld) (MAX_ITERATIONS - k) k
    (mkTransform helloWorld helloWorld (repeat worldToThere k)).
Proof.
  induction k as [|k IH]; intros Hk.
  - rewrite Nat.sub_0_r. apply reachesAll_start.
  - assert (Hk' : (k <= MAX_ITERATIONS)%nat) by lia. specialize (IH Hk').
    replace (MAX_ITERATIONS - k)%nat with (S (MAX_ITERATIONS - S k)) in IH by lia.
    eapply reachesAll_next; [exact IH|].
    unfold allBody, maybeStep. cbn [trDoc trSteps trBefore applyStep idleEnv].
    change (getReplaceStep helloWorld helloThere) with (Ok (Some worldToThere)).
    cbn [bind]. do 3 f_equal. symmetry. apply repeat_cons.
Qed.

Lemma idle_cap_chain :
  exists tr,
    @ReachesAll idleEnv helloThere (newTransform helloWorld) 0 1000 tr
    /\ List.length (trSteps tr) = 1000%nat.
Proof.
  exists (mkTransform helloWorld helloWorld (repeat worldToThere 1000)).
  split; [|apply repeat_length].
  exact (idle_chain MAX_ITERATIONS (Nat.le_refl _)).
Qed.

(** The runs on "Hello world" and "Hello there": the simple mode applies
    one step in one iteration, the detailed mode two steps in one
    iteration. *)
Definition worldToThereRun : Transform :=
  mkTransform helloWorld helloThere [worldToThere].

Definition helloTextRun : Transform :=
  mkTransform helloWorld helloThere
    [ReplaceStep 7 9 (mkSlice [txt "the"] 0 0);
     ReplaceStep 11 13 (mkSlice [txt "e"] 0 0)].

Lemma hello_all_chain :
  @ReachesAll tokenEnv helloThere (newTransform helloWorld) 999 1 worldToThereRun.
Proof. eapply reachesAll_next; [apply reachesAll_start | reflexivity]. Qed.

Lemma hello_text_chain :
  @Reaches tokenEnv false (stripMarks helloThere) (newTransform helloWorld) 999 1
    helloTextRun.
Proof. eapply reaches_next; [apply reaches_start | reflexivity]. Qed.

Lemma cap_counts_iterations_witness :
  (exists tr,
     @Reaches tokenEnv false (stripMarks (manyHeadings 1000))
       (newTransform (manyParagraphs 1000)) 0 1000 tr
     /\ trDoc tr = manyHeadings 1000
     /\ @recreateStructuralSteps tokenEnv false (manyParagraphs 1000) (manyHeadings 1000)
          (newTransform (manyParagraphs 1000))
        = Throw maxIterationsStructural)
  /\ @recreateStructuralSteps tokenEnv false helloWorld helloThere (newTransform helloWorld)
     = Ok helloTextRun
  /\ @recreateAllSteps idleEnv helloWorld helloThere (newTransform helloWorld)
     = Throw maxIterationsAll
  /\ List.length (trSteps worldToThereRun) = 1%nat
  /\ @recreateAllSteps tokenEnv helloWorld helloThere (newTransform helloWorld)
     = Ok worldToThereRun.
Proof.
  split; [|split; [|split; [|split]]].
  - destruct thousand_markup_chain as (tr' & Hr & Hd). exists tr'.
    split; [exact Hr|]. split; [exact Hd|].
    exact (proj2 (proj1 (proj2 (proj1 (proj2 (@cap_counts_iterations tokenEnv))
                                  false (manyParagraphs 1000) (manyHeadings 1000)
                                  0%nat 1000%nat tr' Hr))
                    eq_refl)).
  - exact (proj2 (proj2 (proj1 (proj2 (@cap_counts_iterations tokenEnv))
                           false helloWorld helloThere 999%nat 1%nat
                           helloTextRun hello_text_chain))
             (Nat.lt_0_succ _) eq_refl).
  - destruct idle_cap_chain as (tr & Hr & Hl).
    exact (proj1 (proj2 (proj2 (proj2 (proj2 (@cap_counts_iterations idleEnv))
                                  helloWorld helloThere 0%nat 1000%nat tr Hr)))
             Hl).
  - exact (proj1 (proj2 (proj2 (proj2 (@cap_counts_iterations tokenEnv))
                           helloWorld helloThere 999%nat 1%nat
                           worldToThereRun hello_all_chain))).
  - exact (proj2 (proj2 (proj2 (proj2 (proj2 (@cap_counts_iterations tokenEnv))
                                  helloWorld helloThere 999%nat 1%nat
                                  worldToThereRun hello_all_chain)))
             (Nat.lt_0_succ _) eq_refl).
Defined.

Definition plainParagraphs (n : nat) : Node := doc (repeat (paragraph [txt "a"]) n).
Definition markedParagraphs (n : nat) : Node :=
  doc (repeat (paragraph [Text "a" [em; strong]]) n).

(** C10, counterexample: five hundred paragraphs of plain text against the
    same paragraphs with the text in bold italics.  The reconstruction in
    detailed mode applies exactly 1000 steps, two for each paragraph, all of
    them after the structural loop, which finds no divergence in its first
    iteration; the document equals the target after the 1000th step and the
    transform is returned, no max-iterations error is raised. *)
Lemma thousand_steps_without_error :
  exists tr,
    @recreateTransform tokenEnv (plainParagraphs 500) (markedParagraphs 500) detailedChars
    = Ok tr
    /\ List.length (trSteps tr) = 1000%nat
    /\ trDoc tr = markedParagraphs 500
    /\ @structuralBody tokenEnv false (newTransform (plainParagraphs 500))
         (stripMarks (plainParagraphs 500)) (stripMarks (markedParagraphs 500))
       = Ok None
    /\ @recreateTransform tokenEnv (plainParagraphs 500) (markedParagraphs 500) detailedChars
       <> Throw maxIterationsStructural.
Proof.
  assert (H : match @recreateTransform tokenEnv (plainParagraphs 500)
                      (markedParagraphs 500) detailedChars with
              | Ok tr =>
                  Nat.eqb (List.length (trSteps tr)) 1000
                  && node_eqb (trDoc tr) (markedParagraphs 500)
              | Throw _ => false
              end = true).
  { vm_compute. reflexivity. }
  destruct (@recreateTransform tokenEnv _ _ _) as [tr|]; [|discriminate H].
  apply andb_true_iff in H as [H1 H2].
  apply Nat.eqb_eq in H1. apply node_eqb_eq in H2.
  exists tr. split; [reflexivity|]. split; [exact H1|]. split; [exact H2|].
  split; [vm_compute; reflexivity | discriminate].
Qed.

Lemma max_iterations_error_is_distinct_witness :
  @recreateTransform tokenEnv (manyParagraphs 1000) (manyHeadings 1000) detailedChars
  = Throw maxIterationsStructural
  /\ @recreateTransform idleEnv helloWorld helloThere simpleChars = Throw maxIterationsAll
  /\ @step tokenEnv (newTransform helloWorld) (ReplaceStep 0 1 emptySlice)
     = Throw (TransformError "Inconsistent open depths")
  /\ @allBody tokenEnv (newTransform (manyParagraphs 6)) helloWorld helloThere
     = Throw (replaceStepFailed "Inconsistent open depths")
  /\ TransformError "Inconsistent open depths" <> maxIterationsStructural
  /\ replaceStepFailed "Inconsistent open depths" <> maxIterationsAll.
Proof.
  split; [|split; [|split; [|split; [|split]]]].
  - destruct thousand_markup_chain as (tr' & Hr & _).
    exact (proj1 (proj2 (proj2 (@max_iterations_error_is_distinct tokenEnv)))
             (manyParagraphs 1000) (manyHeadings 1000) detailedChars 1000%nat tr'
             eq_refl Hr).
  - destruct idle_cap_chain as (tr & Hr & _).
    exact (proj1 (proj2 (proj2 (proj2 (@max_iterations_error_is_distinct idleEnv))))
             helloWorld helloThere simpleChars 1000%nat tr eq_refl Hr).
  - exact (proj1 (proj2 (proj2 (proj2 (proj2 (@max_iterations_error_is_distinct tokenEnv))))
                    (newTransform helloWorld) (ReplaceStep 0 1 emptySlice)
                    "Inconsistent open depths" eq_refl)).
  - exact (proj1 (proj1 (proj2 (proj2 (proj2 (proj2 (proj2
                    (@max_iterations_error_is_distinct tokenEnv))))
                    (newTransform (manyParagraphs 6)) worldToThere
                    "Inconsistent open depths" eq_refl))
                    helloWorld helloThere eq_refl)).
  - discriminate.
  - discriminate.
Defined.

Lemma no_silent_stall_witness :
  @recreateStructuralSteps stallEnv false helloWorld helloThere (newTransform helloWorld)
  = Throw maxIterationsStructural
  /\ @allBody tokenEnv (newTransform helloWorld) helloWorld helloThere <> Ok None
  /\ (exists s,
        [worldToThere] = ([] ++ [s])%list
        /\ @applyStep tokenEnv s helloWorld = StepOk helloThere)
  /\ findDiffStart helloThere helloThere = None.
Proof.
  split; [|split; [|split]].
  - apply (proj1 (@no_silent_stall stallEnv) false helloWorld helloThere 999%nat 0%nat
             (newTransform helloWorld) (newTransform helloWorld)).
    + apply reaches_start.
    + reflexivity.
    + reflexivity.
  - exact (proj1 (proj2 (proj2 (@no_silent_stall tokenEnv)))
             (newTransform helloWorld) helloWorld helloThere 7 eq_refl).
  - exact (proj1 (proj2 (proj2 (proj2 (@no_silent_stall tokenEnv))))
             (newTransform helloWorld) helloWorld helloThere
             (mkTransform helloWorld helloThere [worldToThere]) eq_refl).
  - exact (proj2 (proj2 (proj2 (proj2 (proj2 (@no_silent_stall tokenEnv)))))
             helloWorld helloThere (mkTransform helloWorld helloThere [worldToThere])
             eq_refl).
Defined.

(* ================================================================== *)
(** * Round trip: structure and text *)



Section StructureContracts.
Context {E : Env}.




End StructureContracts.


(** ** The token engine keeps the two contracts *)






















Section RoundTripStructure.
Context {E : Env}.


End RoundTripStructure.



